(** * Data-Research-Agent: the retrieval-augmented indexing and query pipeline

    A shallow embedding of [src/rag/ingest.py], [src/rag/rag.py], of
    [src/app.py] (the "Reset Index" branch, the uploads, the tabs and
    [main]) and of the fetching and prompt functions of [src/agents],
    together with the parts of the Python runtime and of the LangChain
    classes that these files call.

    Python values are modelled as follows:
    - [str] is a list of Unicode code points, [len] is its length;
    - [int] is [Z];
    - an exception is a constructor of [exn]; a call that may raise returns a
      [result];
    - the index directory is a finite map from relative paths to entries;
    - the numbers of an embedding are an abstract type [float]. *)

From Stdlib Require Import ZArith QArith Lia Lqa Ascii String.
From stdpp Require Import gmap list sorting lexico.

Local Open Scope Z_scope.

(** ** Python runtime *)

Module Py.

Definition char := N.
Definition str := list char.

(** A string literal of the source, as code points. *)
Definition lit (s : string) : str :=
  (fun a => N_of_ascii a) <$> list_ascii_of_string s.

Definition nl : str := [10%N].
Definition nlnl : str := [10%N; 10%N].
Definition space : str := [32%N].

Definition len (s : str) : Z := Z.of_nat (length s).

(** The exception classes that occur. [External] stands for whatever an
    external collaborator (PDF loader, embedding service, chat service)
    raises. *)
Inductive exn :=
| ValueError
| IndexError
| RuntimeError
| AssertionError
| FileNotFoundError
| IsADirectoryError
| NotADirectoryError
| FileExistsError
| OSError
| External (tag : N).

(** [isinstance(e, OSError)] *)
Definition is_OSError (e : exn) : bool :=
  match e with
  | FileNotFoundError | IsADirectoryError | NotADirectoryError
  | FileExistsError | OSError => true
  | _ => false
  end.

Inductive result (A : Type) :=
| Ok (a : A)
| Raise (e : exn).
Arguments Ok {A} a.
Arguments Raise {A} e.

Definition bind {A B} (m : result A) (k : A -> result B) : result B :=
  match m with
  | Ok a => k a
  | Raise e => Raise e
  end.

(** [str.isspace] on one code point (CPython's [_PyUnicode_IsWhitespace]). *)
Definition isspace (c : char) : bool :=
  ((9 <=? c) && (c <=? 13) || (28 <=? c) && (c <=? 32)
   || (c =? 133) || (c =? 160) || (c =? 5760)
   || (8192 <=? c) && (c <=? 8202)
   || (c =? 8232) || (c =? 8233) || (c =? 8239) || (c =? 8287)
   || (c =? 12288))%N.

Fixpoint lstrip (s : str) : str :=
  match s with
  | [] => []
  | c :: s' => if isspace c then lstrip s' else s
  end.

Definition rstrip (s : str) : str := reverse (lstrip (reverse s)).

(** [s.strip()] *)
Definition strip (s : str) : str := rstrip (lstrip s).

(** [sep.join(items)] *)
Fixpoint join (sep : str) (items : list str) : str :=
  match items with
  | [] => []
  | [x] => x
  | x :: xs => x ++ sep ++ join sep xs
  end.

(** [text.startswith(sep)] *)
Fixpoint startswith (sep text : str) : bool :=
  match sep, text with
  | [], _ => true
  | _ :: _, [] => false
  | a :: sep', b :: text' => if decide (a = b) then startswith sep' text' else false
  end.

(** [sep in text]; also [re.search(re.escape(sep), text)] as a truth value. *)
Fixpoint contains (sep text : str) : bool :=
  startswith sep text ||
  match text with
  | [] => false
  | _ :: text' => contains sep text'
  end.

(** [text.split(sep)] for a non-empty [sep]: the pieces between the
    leftmost, non-overlapping occurrences of [sep]. [skip] counts the
    characters of a matched separator still to be passed over and [cur]
    holds the current piece, reversed. *)
Fixpoint split_go (sep : str) (skip : nat) (cur : str) (text : str) : list str :=
  match text with
  | [] => [reverse cur]
  | c :: rest =>
      match skip with
      | S n => split_go sep n cur rest
      | O =>
          if startswith sep text
          then reverse cur :: split_go sep (length sep - 1) [] rest
          else split_go sep O (c :: cur) rest
      end
  end.

Definition split (sep text : str) : list str := split_go sep O [] text.

(** [c] occurs in [t] as a contiguous run of characters. *)
Definition substring (c t : str) : Prop := exists a b, t = a ++ c ++ b.

End Py.

Export Py.

Declare Scope result_scope.
Delimit Scope result_scope with result.
Notation "x <- m ;; k" := (Py.bind m (fun x => k))
  (at level 100, m at next level, right associativity) : result_scope.
Local Open Scope result_scope.

(** ** Documents *)

Inductive MetaValue :=
| MStr (s : str)
| MInt (n : Z).

(** [langchain_core.documents.Document]: the text of a page or of a chunk
    and a metadata dictionary (PyPDFLoader fills in [source] and [page]). *)
Record Document := mkDocument {
  page_content : str;
  metadata : list (str * MetaValue)
}.

(** ** LangChain's RecursiveCharacterTextSplitter

    The library code that [_split_docs] runs ([langchain.text_splitter]),
    with the options that the source leaves at their defaults:
    [length_function = len], [keep_separator = True],
    [is_separator_regex = False], [strip_whitespace = True]. It is not part
    of the repository; the embedding follows the library's Python text. *)

Module TextSplitter.
Section Splitter.

Variables (chunk_size chunk_overlap : Z).
Variable separators : list str.

(** [_split_text_with_regex(text, re.escape(separator), keep_separator=True)].
    For a non-empty separator [re.split] with one capturing group returns
    [p0, sep, p1, sep, ..., pn] where [p0 .. pn] are the pieces of
    [text.split(separator)]; the comprehension glues every separator to
    the piece after it. The result has odd length, so the
    [len(_splits) % 2 == 0] branch is never taken. Empty strings are
    dropped at the end. *)
Definition _split_text_with_regex (text separator : str) : list str :=
  let splits :=
    match separator with
    | [] => (fun c => [c]) <$> text
    | _ :: _ =>
        match Py.split separator text with
        | [] => []
        | p0 :: ps => p0 :: ((fun p => separator ++ p) <$> ps)
        end
    end in
  filter (fun s => s <> []) splits.

(** [_join_docs]: [None] when nothing but whitespace is left. *)
Definition _join_docs (docs : list str) (separator : str) : option str :=
  let text := strip (join separator docs) in
  if decide (text = []) then None else Some text.

Definition opt_to_list {A} (o : option A) : list A :=
  match o with Some x => [x] | None => [] end.

(** The [while] loop of [_merge_splits]: it drops pieces from the front
    of [current_doc] until what is left fits the overlap and leaves room
    for the next piece of length [_len]. Indexing an empty [current_doc]
    raises [IndexError]. *)
Fixpoint pop_while (separator_len _len total : Z) (current_doc : list str)
  : result (Z * list str) :=
  let cond :=
    (chunk_overlap <? total)
    || ((chunk_size <?
           total + _len + (if (0 <? length current_doc)%nat then separator_len else 0))
        && (0 <? total)) in
  match current_doc with
  | [] => if cond then Raise IndexError else Ok (total, [])
  | c :: rest =>
      if cond
      then pop_while separator_len _len
             (total - (len c + (if (1 <? length current_doc)%nat then separator_len else 0)))
             rest
      else Ok (total, current_doc)
  end.

(** The [for d in splits] loop of [_merge_splits]; the documents appended
    to [docs] are returned in order. *)
Fixpoint merge_loop (separator : str) (splits current_doc : list str) (total : Z)
  : result (list str) :=
  match splits with
  | [] => Ok (opt_to_list (_join_docs current_doc separator))
  | d :: splits' =>
      let separator_len := len separator in
      let _len := len d in
      st <-
        (if (chunk_size <?
               total + _len + (if (0 <? length current_doc)%nat then separator_len else 0))
            && (0 <? length current_doc)%nat
         then
           st <- pop_while separator_len _len total current_doc ;;
           Ok (opt_to_list (_join_docs current_doc separator), st)
         else Ok ([], (total, current_doc))) ;;
      let emitted := st.1 in
      let current_doc := st.2.2 ++ [d] in
      let total :=
        st.2.1 + _len + (if (1 <? length current_doc)%nat then separator_len else 0) in
      rest <- merge_loop separator splits' current_doc total ;;
      Ok (emitted ++ rest)
  end.

Definition _merge_splits (splits : list str) (separator : str) : result (list str) :=
  merge_loop separator splits [] 0.

(** The [for s in splits] loop of [_split_text]. [recur] is the recursive
    call on the remaining separators, [None] when [new_separators] is
    empty. *)
Fixpoint split_loop (recur : option (str -> result (list str))) (_separator : str)
    (splits _good_splits : list str) : result (list str) :=
  match splits with
  | [] =>
      match _good_splits with
      | [] => Ok []
      | _ :: _ => _merge_splits _good_splits _separator
      end
  | s :: splits' =>
      if len s <? chunk_size
      then split_loop recur _separator splits' (_good_splits ++ [s])
      else
        merged <-
          match _good_splits with
          | [] => Ok []
          | _ :: _ => _merge_splits _good_splits _separator
          end ;;
        other_info <-
          match recur with
          | None => Ok [s]
          | Some f => f s
          end ;;
        rest <- split_loop recur _separator splits' [] ;;
        Ok (merged ++ other_info ++ rest)
  end.

(** [_split_text(text, separators)]: the first separator that is empty or
    occurs in the text is used, the ones after it are kept for the pieces
    that are too long; when none occurs the last one is used. With
    [keep_separator] the pieces are merged with the empty separator. *)
Fixpoint _split_text (separators : list str) (text : str) {struct separators}
  : result (list str) :=
  match separators with
  | [] => Raise IndexError
  | _s :: new_separators =>
      if decide (_s = []) then
        split_loop None [] (_split_text_with_regex text _s) []
      else if contains _s text then
        split_loop
          (match new_separators with
           | [] => None
           | _ :: _ => Some (_split_text new_separators)
           end)
          [] (_split_text_with_regex text _s) []
      else
        match new_separators with
        | [] => split_loop None [] (_split_text_with_regex text _s) []
        | _ :: _ => _split_text new_separators text
        end
  end.

Definition split_text (text : str) : result (list str) :=
  _split_text separators text.

(** [create_documents] as [split_documents] calls it: every chunk of a
    document carries a copy of the document's metadata. *)
Fixpoint split_documents (documents : list Document) : result (list Document) :=
  match documents with
  | [] => Ok []
  | doc :: documents' =>
      chunks <- split_text (page_content doc) ;;
      rest <- split_documents documents' ;;
      Ok (((fun chunk => mkDocument chunk (metadata doc)) <$> chunks) ++ rest)
  end.

(** The recursive call to which [_split_text] hands the pieces that are
    too long, when it splits at [sep] and [after] are the separators of
    lower priority. *)
Definition lower_priority (sep : str) (after : list str)
  : option (str -> result (list str)) :=
  match sep, after with
  | [], _ | _, [] => None
  | _, _ :: _ => Some (_split_text after)
  end.

(** What is shown of every chunk [c] of a text. *)
Definition chunk_of (text c : str) : Prop :=
  c <> [] /\ len c <= chunk_size /\ substring c text.

End Splitter.

(** [TextSplitter.__init__] rejects a chunk size that is not positive, a
    negative overlap and an overlap larger than the chunk size. *)
Definition validate (chunk_size chunk_overlap : Z) : result unit :=
  if chunk_size <=? 0 then Raise ValueError
  else if chunk_overlap <? 0 then Raise ValueError
  else if chunk_size <? chunk_overlap then Raise ValueError
  else Ok tt.

(** Two consecutive chunks overlap by [n] characters: the last [n] of the
    first are the first [n] of the second. *)
Definition overlap_by (n : nat) (c1 c2 : str) : Prop :=
  (n <= length c1)%nat /\ (n <= length c2)%nat
  /\ drop (length c1 - n) c1 = take n c2.

End TextSplitter.

(** ** The chunker, in words

    The chunks of one text, written as relations and without the loops of
    the library; the properties compare [Ingest._split_docs] with them. A
    text is cut into pieces at a boundary, pieces are gathered into runs, a
    run makes a chunk. *)

Module Chunker.
Section Chunker.

Variables (chunk_size chunk_overlap : Z).

(** The parts of a text between the occurrences of a boundary, found
    from left to right: the first part lies in front of the leftmost
    occurrence, and what follows that occurrence is cut in the same way. *)
Inductive Cut (boundary : str) : str -> list str -> Prop :=
| Cut_last text :
    ~ substring boundary text ->
    Cut boundary text [text]
| Cut_at text part rest parts :
    text = part ++ boundary ++ rest ->
    (forall part' rest',
        text = part' ++ boundary ++ rest' -> (length part <= length part')%nat) ->
    Cut boundary rest parts ->
    Cut boundary text (part :: parts).

(** Every part but the first with the boundary in front. *)
Definition with_boundary (boundary : str) (parts : list str) : list str :=
  match parts with
  | [] => []
  | part :: parts => part :: ((fun p => boundary ++ p) <$> parts)
  end.

(** The pieces of a text at a boundary: the characters of the text at the
    empty boundary, and otherwise its parts with the boundary in front;
    empty pieces do not count. *)
Definition Pieces (text boundary : str) (pieces : list str) : Prop :=
  exists all,
    match boundary with
    | [] => all = (fun c => [c]) <$> text
    | _ :: _ => exists parts, Cut boundary text parts /\ all = with_boundary boundary parts
    end
    /\ pieces = filter (fun p => p <> []) all.

Definition short (piece : str) : Prop := len piece < chunk_size.

(** What a full run hands to the next one: the longest tail [kept] of its
    pieces whose total length is at most the overlap and which, with the
    piece [next] that did not fit, stays within the maximum. *)
Definition carried_over (next : str) (run kept : list str) : Prop :=
  let fits (tail : list str) :=
    len (concat tail) <= chunk_overlap
    /\ len (concat tail) + len next <= chunk_size in
  kept `suffix_of` run /\ fits kept
  /\ forall tail, tail `suffix_of` run -> fits tail -> tail `suffix_of` kept.

(** [Runs run rest runs]: with [run] gathered so far, the pieces [rest]
    give the runs [runs]. A piece joins the run while the total stays
    within the maximum; otherwise the run is closed and the next one starts
    with what is carried over, followed by the piece. *)
Inductive Runs : list str -> list str -> list (list str) -> Prop :=
| Runs_end run : Runs run [] [run]
| Runs_add run piece rest runs :
    len (concat run) + len piece <= chunk_size ->
    Runs (run ++ [piece]) rest runs ->
    Runs run (piece :: rest) runs
| Runs_full run piece rest kept runs :
    chunk_size < len (concat run) + len piece ->
    carried_over piece run kept ->
    Runs (kept ++ [piece]) rest runs ->
    Runs run (piece :: rest) (run :: runs).

(** The chunk of a run: its pieces put together, without the whitespace
    at both ends; a run of whitespace makes no chunk. *)
Definition chunk_of_run (run : list str) : list str :=
  let chunk := strip (concat run) in
  if decide (chunk = []) then [] else [chunk].

Definition chunks_of_runs (runs : list (list str)) : list str :=
  concat (chunk_of_run <$> runs).

(** The chunks of the pieces at one boundary: the short pieces in front
    of the first piece that is not short are gathered into runs, that piece
    is chunked by [lower], and so on for the pieces after it. *)
Inductive Level (lower : str -> list str -> Prop) : list str -> list str -> Prop :=
| Level_short pieces runs :
    Forall short pieces ->
    Runs [] pieces runs ->
    Level lower pieces (chunks_of_runs runs)
| Level_long good long rest runs low more :
    Forall short good ->
    chunk_size <= len long ->
    Runs [] good runs ->
    lower long low ->
    Level lower rest more ->
    Level lower (good ++ long :: rest) (chunks_of_runs runs ++ low ++ more).

(** Without a boundary of lower priority a piece that is not short is a
    chunk as it is. *)
Definition whole (piece : str) (chunks : list str) : Prop := chunks = [piece].

(** The chunks of a text cut at one boundary. *)
Definition At (lower : str -> list str -> Prop) (boundary text : str)
    (chunks : list str) : Prop :=
  exists pieces, Pieces text boundary pieces /\ Level lower pieces chunks.

(** [Chunked boundaries text chunks]: the text is cut at the first
    boundary that occurs in it (the empty boundary always does, and the
    last boundary is used when none occurs); a piece that is not short is
    chunked with the boundaries after that one. *)
Fixpoint Chunked (boundaries : list str) (text : str) (chunks : list str) : Prop :=
  match boundaries with
  | [] => False
  | boundary :: lower =>
      match lower with
      | [] => At whole boundary text chunks
      | _ :: _ =>
          if decide (boundary = []) then At whole boundary text chunks
          else if contains boundary text
               then At (Chunked lower) boundary text chunks
               else Chunked lower text chunks
      end
  end.

End Chunker.
End Chunker.

(** ** Calls that act on a state

    An exception leaves the state as it was when it was raised: nothing is
    rolled back. *)

Definition io (S A : Type) : Type := S -> result A * S.

Definition io_ret {S A} (a : A) : io S A := fun s => (Ok a, s).

Definition io_lift {S A} (r : result A) : io S A := fun s => (r, s).

Definition io_bind {S A B} (m : io S A) (k : A -> io S B) : io S B :=
  fun s =>
    match m s with
    | (Ok a, s') => k a s'
    | (Raise e, s') => (Raise e, s')
    end.

Declare Scope io_scope.
Delimit Scope io_scope with io.
Notation "x <- m ;; k" := (io_bind m (fun x => k))
  (at level 100, m at next level, right associativity) : io_scope.

(** ** The index directory

    The state of the file system at the index directory. A path is the list
    of its components below that directory, so [[]] is the directory
    itself. *)

Module FS.
Section Files.

Context {float : Type}.

(** What a file holds: the two files that [FAISS.save_local] writes, or
    anything else. *)
Inductive content :=
| FaissIndex (d : nat) (vectors : list (list float))
| Pickle (docs : list Document)
| Blob (bytes : list N).

Inductive entry :=
| Dir
| File (c : content).

Definition exists_ (p : list str) (fs : gmap (list str) entry) : bool :=
  bool_decide (is_Some (fs !! p)).

Definition is_dir (p : list str) (fs : gmap (list str) entry) : bool :=
  match fs !! p with
  | Some Dir => true
  | _ => false
  end.

(** [q] is an entry of the directory [p]. *)
Definition is_child (p q : list str) : bool :=
  match reverse q with
  | [] => false
  | _ :: rq => bool_decide (reverse rq = p)
  end.

Definition has_children (p : list str) (fs : gmap (list str) entry) : bool :=
  existsb (is_child p) (map_to_list fs).*1.

(** [Path.mkdir(parents=True, exist_ok=True)] on the index directory. *)
Definition mkdir : io (gmap (list str) entry) unit := fun fs =>
  match fs !! [] with
  | None => (Ok tt, <[ [] := Dir ]> fs)
  | Some Dir => (Ok tt, fs)
  | Some (File _) => (Raise FileExistsError, fs)
  end.

(** [Path.unlink()], with the errors of Linux: a directory is refused with
    [IsADirectoryError], which is the error that the source expects. *)
Definition unlink (p : list str) : io (gmap (list str) entry) unit := fun fs =>
  match fs !! p with
  | None => (Raise FileNotFoundError, fs)
  | Some Dir => (Raise IsADirectoryError, fs)
  | Some (File _) => (Ok tt, delete p fs)
  end.

(** [Path.rmdir()]: only an empty directory is removed. *)
Definition rmdir (p : list str) : io (gmap (list str) entry) unit := fun fs =>
  match fs !! p with
  | None => (Raise FileNotFoundError, fs)
  | Some (File _) => (Raise NotADirectoryError, fs)
  | Some Dir =>
      if has_children p fs then (Raise OSError, fs) else (Ok tt, delete p fs)
  end.

(** Writing a whole file below an existing directory. *)
Definition write_file (p : list str) (c : content) : io (gmap (list str) entry) unit :=
  fun fs =>
    match fs !! p with
    | Some Dir => (Raise IsADirectoryError, fs)
    | _ => (Ok tt, <[ p := File c ]> fs)
    end.

(** [INDEX_DIR.glob("**/*")]: every path below the index directory, in the
    order in which the map enumerates them (the order of [os.scandir] is not
    specified). In a file system every entry lies in a directory that
    exists, so these are the paths that the recursive listing reaches.
    Nothing is listed when the path is not a directory. *)
Definition glob_all (fs : gmap (list str) entry) : list (list str) :=
  if is_dir [] fs
  then filter (fun p => p <> []) (map_to_list fs).*1
  else [].

End Files.
Arguments content : clear implicits.
Arguments entry : clear implicits.
End FS.

(** ** Single precision

    [np.array(embeddings, dtype=np.float32)]: the vector store keeps every
    number of a vector in single precision. [float32] is the conversion of
    one number. *)

Class Float32 (float : Type) := float32 : float -> float.

(** Integers as numbers: the nearest integer with at most 24 significant
    bits, the even one of two that are equally near. This is NumPy's
    conversion for integers below [2^128] in magnitude; beyond that NumPy
    gives an infinity, which the integers do not have. *)
Definition float32_Z (n : Z) : Z :=
  let a := Z.abs n in
  let bits := Z.log2 a + 1 in
  if bits <=? 24 then n
  else
    let sh := bits - 24 in
    let q := Z.shiftr a sh in
    let r := a - Z.shiftl q sh in
    let half := Z.shiftl 1 (sh - 1) in
    let q' := if (half <? r) || ((r =? half) && Z.odd q) then q + 1 else q in
    Z.sgn n * Z.shiftl q' sh.

#[global] Instance Float32_Z : Float32 Z := float32_Z.

(** ** The embedding service and the world of an ingestion *)

(** [OpenAIEmbeddings]: both calls go to the network and may raise. *)
Record Embeddings (float : Type) := mkEmbeddings {
  embed_documents : list str -> result (list (list float));
  embed_query : str -> result (list float)
}.
Arguments embed_documents {float}.
Arguments embed_query {float}.

(** The index directory and the batches of texts sent to the embedding
    service so far. *)
Record World (float : Type) := mkWorld {
  files : gmap (list str) (FS.entry float);
  embed_calls : list (list str)
}.
Arguments mkWorld {float}.
Arguments files {float}.
Arguments embed_calls {float}.

Definition on_files {float A} (m : io (gmap (list str) (FS.entry float)) A)
  : io (World float) A :=
  fun w =>
    let (r, fs') := m (files w) in
    (r, mkWorld fs' (embed_calls w)).

(** A call of [embed_documents]: recorded, then answered by the service. *)
Definition call_embed_documents {float} (e : Embeddings float) (texts : list str)
  : io (World float) (list (list float)) :=
  fun w => (embed_documents e texts, mkWorld (files w) (embed_calls w ++ [texts])).

(** ** LangChain's FAISS vector store

    The library class behind [FAISS.load_local], [add_documents],
    [from_documents] and [save_local]; not part of the repository. *)

Module FAISS.
Section Store.

Context {float : Type} {F32 : Float32 float}.

Definition index_faiss : list str := [lit "index.faiss"].
Definition index_pkl : list str := [lit "index.pkl"].

(** The vector store in memory: a flat index of dimension [index_d] whose
    rows are numbered from 0 in insertion order, and the documents of the
    rows. The library keeps the documents in a dictionary under random
    identifiers and maps row numbers to identifiers; the composition of
    the two is the list [docstore]. *)
Record t := mk {
  index_d : nat;
  index_vectors : list (list float);
  docstore : list Document
}.

(** A row of the index: its number, its vector and its document. *)
Definition row : Type := nat * (list float * Document).

Definition rows (vs : t) : list row :=
  imap (fun i r => (i, r)) (zip (index_vectors vs) (docstore vs)).

(** [FAISS.load_local(folder, embeddings, allow_dangerous_deserialization=True)] *)
Definition load_local (fs : gmap (list str) (FS.entry float)) : result t :=
  match fs !! index_faiss with
  | Some (FS.File (FS.FaissIndex d vectors)) =>
      match fs !! index_pkl with
      | Some (FS.File (FS.Pickle docs)) => Ok (mk d vectors docs)
      | Some (FS.File _) => Raise (External 0)
      | Some FS.Dir => Raise IsADirectoryError
      | None => Raise FileNotFoundError
      end
  | _ => Raise RuntimeError
  end.

(** [vs.save_local(folder)]: the folder is created when missing, then the
    index and the pickled documents are written. *)
Definition save_local (vs : t) : io (gmap (list str) (FS.entry float)) unit :=
  (_ <- FS.mkdir ;;
   _ <- FS.write_file index_faiss (FS.FaissIndex (index_d vs) (index_vectors vs)) ;;
   FS.write_file index_pkl (FS.Pickle (docstore vs)))%io.

(** The directory [fs] with the two files of [vs] in it. *)
Definition saved (vs : t) (fs : gmap (list str) (FS.entry float))
  : gmap (list str) (FS.entry float) :=
  <[ index_pkl := FS.File (FS.Pickle (docstore vs)) ]>
    (<[ index_faiss := FS.File (FS.FaissIndex (index_d vs) (index_vectors vs)) ]> fs).

(** [__add]: the documents and their vectors are appended as new rows.
    The lengths must agree, numpy needs a non-empty rectangular array and
    converts it to single precision, and the index checks the dimension. *)
Definition add (vs : t) (documents : list Document) (embeddings : list (list float))
  : result t :=
  if negb (length documents =? length embeddings)%nat then Raise ValueError
  else
    match embeddings with
    | [] => Raise ValueError
    | e0 :: _ =>
        if negb (forallb (fun e => (length e =? length e0)%nat) embeddings)
        then Raise ValueError
        else if negb (length e0 =? index_d vs)%nat then Raise AssertionError
        else Ok (mk (index_d vs) (index_vectors vs ++ (fmap (M:=list) float32 <$> embeddings))
                    (docstore vs ++ documents))
    end.

(** [vs.add_documents(docs)] *)
Definition add_documents (e : Embeddings float) (vs : t) (docs : list Document)
  : io (World float) t :=
  (embeddings <- call_embed_documents e (page_content <$> docs) ;;
   io_lift (add vs docs embeddings))%io.

(** [FAISS.from_documents(docs, embeddings)]: the dimension of the new
    index is that of the first vector. *)
Definition from_documents (e : Embeddings float) (docs : list Document)
  : io (World float) t :=
  (embeddings <- call_embed_documents e (page_content <$> docs) ;;
   match embeddings with
   | [] => io_lift (Raise IndexError)
   | e0 :: _ => io_lift (add (mk (length e0) [] []) docs embeddings)
   end)%io.

End Store.
Arguments t : clear implicits.
Arguments row : clear implicits.
End FAISS.

(** ** src/rag/ingest.py *)

Module Ingest.
Section Ingestion.

Context {float : Type} {F32 : Float32 float}.

(** [PyPDFLoader(str(path)).load()]: the pages of one file, or the
    loader's exception. *)
Variable PyPDFLoader_load : str -> result (list Document).

(** [OpenAIEmbeddings(api_key=..., model=...)] *)
Variable OpenAIEmbeddings : str -> str -> Embeddings float.

Definition ensure_index : io (World float) unit := on_files FS.mkdir.

(** The generator, as [list(...)] consumes it. *)
Fixpoint _load_pdfs (paths : list str) : result (list Document) :=
  match paths with
  | [] => Ok []
  | path :: paths' =>
      docs <- PyPDFLoader_load path ;;
      rest <- _load_pdfs paths' ;;
      Ok (docs ++ rest)
  end.

Definition _split_docs (documents : list Document) (chunk_size chunk_overlap : Z)
  : result (list Document) :=
  _ <- TextSplitter.validate chunk_size chunk_overlap ;;
  TextSplitter.split_documents chunk_size chunk_overlap [nlnl; nl; space; []] documents.

Definition _get_embeddings (api_key : str) : Embeddings float :=
  OpenAIEmbeddings api_key (lit "text-embedding-3-small").

Definition add_pdfs_to_index (pdf_paths : list str) (api_key : str)
  : io (World float) unit :=
  (_ <- ensure_index ;;
   raw_docs <- io_lift (_load_pdfs pdf_paths) ;;
   match raw_docs with
   | [] => io_ret tt
   | _ :: _ =>
       docs <- io_lift (_split_docs raw_docs 1000 150) ;;
       let embeddings := _get_embeddings api_key in
       fun w =>
         if FS.exists_ FAISS.index_faiss (files w) then
           (vs <- io_lift (FAISS.load_local (files w)) ;;
            vs <- FAISS.add_documents embeddings vs docs ;;
            on_files (FAISS.save_local vs)) w
         else
           (vs <- FAISS.from_documents embeddings docs ;;
            on_files (FAISS.save_local vs)) w
   end)%io.

(** The pages of the files of a batch that the loader can read. *)
Definition loadable_docs (paths : list str) : list Document :=
  flat_map (fun p => match PyPDFLoader_load p with Ok ds => ds | Raise _ => [] end) paths.

(** A batch is ingested with its unreadable files left out: the call
    returns and the chunks of all the other files are at the end of the
    index. *)
Definition skips_failed_files (paths : list str) (api_key : str) (w : World float) : Prop :=
  exists w' vs docs before,
    add_pdfs_to_index paths api_key w = (Ok tt, w')
    /\ _split_docs (loadable_docs paths) 1000 150 = Ok docs
    /\ FAISS.load_local (files w') = Ok vs
    /\ FAISS.docstore vs = before ++ docs.

End Ingestion.
End Ingest.

(** ** Nearest-neighbour search *)

Module Search.
Section Ranking.

Context {float : Type}.

(** The similarity of a stored vector to the query vector. Every finite
    floating-point score is a rational number. *)
Variable similarity : list float -> list float -> Q.

Definition score (q : list float) (c : FAISS.row float) : Q := similarity q c.2.1.

(** Modelled from the spec: the [search] operation of the Vector Index
    (section 4.3), which the source obtains from the FAISS library through
    [as_retriever]; the library's search is native code outside the
    repository. The spec's words are "returning the top-k Chunks ranked
    by descending similarity, ties broken by insertion order
    (earlier-inserted chunk wins)": every chunk, taken in insertion
    order, is placed behind all the chunks that are at least as similar
    to the query, and the first [k] of the ranking are returned. *)
Fixpoint place (q : list float) (c : FAISS.row float) (ranked : list (FAISS.row float))
  : list (FAISS.row float) :=
  match ranked with
  | [] => [c]
  | c' :: ranked' =>
      if Qle_bool (score q c) (score q c')
      then c' :: place q c ranked'
      else c :: ranked
  end.

(** Modelled from the spec: the ranking of all the chunks of the index
    behind [search] (section 4.3), which is missing with the FAISS library:
    the chunks are placed one by one in insertion order. *)
Definition ranking (q : list float) (cs : list (FAISS.row float)) : list (FAISS.row float) :=
  foldl (fun ranked c => place q c ranked) [] cs.

(** Modelled from the spec: [search(query_vector, k)] of section 4.3,
    missing with the FAISS library: "ordered sequence of up to k Chunks",
    the first [k] of the ranking; on an empty index it is the empty
    sequence. *)
Definition search (vs : FAISS.t float) (q : list float) (k : Z) : list (FAISS.row float) :=
  take (Z.to_nat k) (ranking q (FAISS.rows vs)).

(** [a] is ranked before [b]: it is more similar to the query, or as
    similar and inserted earlier. *)
Definition outranks (q : list float) (a b : FAISS.row float) : Prop :=
  (score q b < score q a)%Q \/ ((score q a == score q b)%Q /\ (a.1 < b.1)%nat).

End Ranking.
End Search.

(** ** src/rag/rag.py *)

Module Rag.

Record QAResult := mkQAResult {
  answer : str;
  sources : list Document
}.

(** A chat message: the dictionary with the keys [role] and [content]. *)
Record Message := mkMessage {
  role : str;
  content : str
}.

(** What [llm.invoke] returns: an [AIMessage], which has a [content]
    attribute, or any other object, of which only [str(...)] is used. *)
Inductive Response :=
| AIMessage (content : str)
| Object (repr : str).

Section Answering.

Context {float : Type}.

Variable OpenAIEmbeddings : str -> str -> Embeddings float.
Variable similarity : list float -> list float -> Q.

(** [ChatOpenAI(model=..., temperature=..., api_key=...).invoke(messages)] *)
Variable ChatOpenAI_invoke : str -> float -> str -> list Message -> result Response.

Definition _get_embeddings (api_key : str) : Embeddings float :=
  OpenAIEmbeddings api_key (lit "text-embedding-3-small").

(** [vs.as_retriever(search_kwargs={"k": k})] *)
Record Retriever := mkRetriever {
  vectorstore : FAISS.t float;
  embeddings : Embeddings float;
  search_k : Z
}.

Definition load_retriever (api_key : str) (k : Z) (fs : gmap (list str) (FS.entry float))
  : result Retriever :=
  let embeddings := _get_embeddings api_key in
  vs <- FAISS.load_local fs ;;
  Ok (mkRetriever vs embeddings k).

(** [retriever.get_relevant_documents(question)]: the query is embedded
    and the documents of the nearest chunks are returned. *)
Definition get_relevant_documents (r : Retriever) (question : str)
  : result (list Document) :=
  q <- embed_query (embeddings r) question ;;
  Ok ((fun c : FAISS.row float => c.2.2) <$>
        Search.search similarity (vectorstore r) q (search_k r)).

Definition system : str :=
  lit "You are a helpful assistant that answers strictly based on the provided context. "
  ++ lit "If the answer is not contained in the context, say you don't know. Provide concise answers.".

(** [retriever] is the bound method [retriever.get_relevant_documents]. *)
Definition answer_question (retriever : str -> result (list Document))
    (question model : str) (temperature : float) (api_key : str) : result QAResult :=
  let llm := ChatOpenAI_invoke model temperature api_key in
  docs <- retriever question ;;
  let context := join nlnl (page_content <$> docs) in
  let messages :=
    [ mkMessage (lit "system") system;
      mkMessage (lit "user")
        (lit "Context:" ++ nl ++ context ++ nlnl ++ lit "Question: " ++ question) ] in
  response <- llm messages ;;
  let answer_text :=
    match response with
    | AIMessage content => content
    | Object repr => repr
    end in
  Ok (mkQAResult answer_text docs).

End Answering.

(** The grounding context in the words of the spec: the texts of the
    retrieved chunks, in rank order, with the delimiter between each two. *)
Fixpoint delimited (delimiter : str) (texts : list str) : list str :=
  match texts with
  | [] => []
  | [t] => [t]
  | t :: texts' => t :: delimiter :: delimited delimiter texts'
  end.

Definition grounding_context (delimiter : str) (retrieved : list Document) : str :=
  concat (delimited delimiter (page_content <$> retrieved)).

End Rag.

(** ** src/app.py: the "Reset Index" button *)

Module App.
Section ResetButton.

Context {float : Type}.

(** The index directory and the [retriever_ready] key of the session. *)
Record State := mkState {
  index_dir : gmap (list str) (FS.entry float);
  retriever_ready : bool
}.

(** [try: m except <class>: pass] *)
Definition try_pass {S} (m : io S unit) (caught : exn -> bool) : io S unit :=
  fun s =>
    match m s with
    | (Raise e, s') => if caught e then (Ok tt, s') else (Raise e, s')
    | r => r
    end.

Definition is_IsADirectoryError (e : exn) : bool :=
  match e with IsADirectoryError => true | _ => false end.

(** The first loop: every path is unlinked, directories are passed over. *)
Fixpoint unlink_each (ps : list (list str)) : io (gmap (list str) (FS.entry float)) unit :=
  match ps with
  | [] => io_ret tt
  | p :: ps' =>
      (_ <- try_pass (FS.unlink p) is_IsADirectoryError ;;
       unlink_each ps')%io
  end.

(** The second loop: every directory is removed if it is empty. *)
Fixpoint rmdir_each (ps : list (list str)) : io (gmap (list str) (FS.entry float)) unit :=
  match ps with
  | [] => io_ret tt
  | p :: ps' =>
      (_ <- (fun fs =>
               if FS.is_dir p fs then try_pass (FS.rmdir p) is_OSError fs
               else (Ok tt, fs)) ;;
       rmdir_each ps')%io
  end.

(** Paths compare as the lists of their components, strings compare by
    code points. *)
Definition path_leb (p q : list str) : bool :=
  match trichotomyT lexico p q with
  | inright _ => false
  | _ => true
  end.

Definition path_le (p q : list str) : Prop := path_leb p q = true.

#[local] Instance path_le_dec p q : Decision (path_le p q).
Proof. unfold path_le. apply _. Defined.

(** [sorted(paths, reverse=True)] *)
Definition sorted_reverse (ps : list (list str)) : list (list str) :=
  reverse (merge_sort path_le ps).

(** [if INDEX_DIR.exists(): ...] with its two loops. The first listing is
    taken before anything is unlinked; the generator of the source lists
    every directory before the loop body touches its entries, and unlinking
    a file does not change the listing of another directory. *)
Definition clear_index_dir : io (gmap (list str) (FS.entry float)) unit :=
  fun fs =>
    if FS.exists_ [] fs then
      (_ <- unlink_each (FS.glob_all fs) ;;
       fun fs1 => rmdir_each (sorted_reverse (FS.glob_all fs1)) fs1)%io fs
    else (Ok tt, fs).

(** The body of [if st.button("Reset Index", ...)] up to [st.success]. *)
Definition reset_index : io State unit :=
  fun s =>
    match clear_index_dir (index_dir s) with
    | (Ok _, fs') => (Ok tt, mkState fs' false)
    | (Raise e, fs') => (Raise e, mkState fs' (retriever_ready s))
    end.

End ResetButton.
End App.

(** ** Concrete inputs

    A loader that fails on [bad.pdf] and returns one page for any other
    file, an embedding service whose vectors are [[len(text), 1]] and one
    that is out of service, a chat service that echoes its prompt, and a
    similarity that is the negated distance of the first components, over
    integers as numbers. *)

Module Examples.

Definition page (path text : str) (n : Z) : Document :=
  mkDocument text [(lit "source", MStr path); (lit "page", MInt n)].

Definition loader (path : str) : result (list Document) :=
  if decide (path = lit "bad.pdf") then Raise (External 1)
  else Ok [page path (lit "Hello world.") 0].

Definition embedder (api_key model : str) : Embeddings Z :=
  mkEmbeddings Z
    (fun texts => Ok ((fun t => [len t; 1]) <$> texts))
    (fun text => Ok [len text; 1]).

Definition embedder_down (api_key model : str) : Embeddings Z :=
  mkEmbeddings Z (fun _ => Raise (External 2)) (fun _ => Raise (External 2)).

Definition key : str := lit "sk-test".

Definition empty_world : World Z := mkWorld ∅ [].

(** The world after [a.pdf] has been ingested into an empty one. *)
Definition world_a : World Z :=
  (Ingest.add_pdfs_to_index loader embedder [lit "a.pdf"] key empty_world).2.

Definition batch : list str := [lit "a.pdf"; lit "bad.pdf"; lit "c.pdf"].

Definition chunk_a : Document := page (lit "a.pdf") (lit "Hello world.") 0.

Definition two_chunks : list Document :=
  [page (lit "a.pdf") (lit "Alpha.") 0; page (lit "a.pdf") (lit "Beta.") 1].

Definition chat (model : str) (temperature : Z) (api_key : str)
    (messages : list Rag.Message) : result Rag.Response :=
  match messages with
  | [_; user] => Ok (Rag.AIMessage (lit "Echo: " ++ Rag.content user))
  | _ => Raise (External 3)
  end.

Definition closeness (q v : list Z) : Q :=
  match q, v with
  | a :: _, b :: _ => inject_Z (- Z.abs (a - b))
  | _, _ => 0%Q
  end.

Definition five_rows : FAISS.t Z :=
  FAISS.mk 2 [[5; 1]; [3; 1]; [7; 1]; [5; 1]; [1; 1]]
    ((fun n => page (lit "a.pdf") (lit "Text.") n) <$> [0; 1; 2; 3; 4]).

(** The vector of the question [Hello]. *)
Definition query : list Z := [5; 1].

Definition retriever : Rag.Retriever :=
  Rag.mkRetriever five_rows (embedder key (lit "text-embedding-3-small")) 3.

(** Two paragraphs of 600 characters each. *)
Definition two_paragraphs : str := replicate 600 97%N ++ nlnl ++ replicate 600 98%N.

(** An index directory with the two index files, a stray file and nested
    directories. *)
Definition cluttered_dir : gmap (list str) (FS.entry Z) :=
  list_to_map
    [ ([], FS.Dir);
      (FAISS.index_faiss, FS.File (FS.FaissIndex 2 [[12; 1]]));
      (FAISS.index_pkl, FS.File (FS.Pickle [chunk_a]));
      ([lit "cache"], FS.Dir);
      ([lit "cache"; lit "old"], FS.Dir);
      ([lit "cache"; lit "old"; lit "notes.txt"], FS.File (FS.Blob [104%N; 105%N])) ].

End Examples.

(** ** More of the Python runtime: slices and lines *)

Module PyText.

(** [l[:n]]: the first [n] items, or all but the last [-n] of them when
    [n] is negative. *)
Definition slice_to {A} (n : Z) (l : list A) : list A :=
  if 0 <=? n then take (Z.to_nat n) l
  else take (length l - Z.to_nat (- n)) l.

(** The line boundaries of [str.splitlines]: LF, VT, FF, CR, FS, GS, RS,
    NEL, LS and PS. *)
Definition is_linebreak (c : char) : bool :=
  ((10 <=? c) && (c <=? 13) || (28 <=? c) && (c <=? 30)
   || (c =? 133) || (c =? 8232) || (c =? 8233))%N.

(** [text.splitlines()]: the lines without their boundaries; CR LF is one
    boundary, and a boundary at the end of the text opens no further line.
    [cur] holds the current line, reversed. *)
Fixpoint splitlines_go (cur : str) (text : str) : list str :=
  match text with
  | [] =>
      match cur with
      | [] => []
      | _ :: _ => [reverse cur]
      end
  | c :: rest =>
      if is_linebreak c then
        reverse cur ::
          (if (c =? 13)%N then
             match rest with
             | c2 :: rest' =>
                 if (c2 =? 10)%N then splitlines_go [] rest'
                 else splitlines_go [] rest
             | [] => splitlines_go [] rest
             end
           else splitlines_go [] rest)
      else splitlines_go (c :: cur) rest
  end.

Definition splitlines (text : str) : list str := splitlines_go [] text.

(** [x or ""] for an [x] that is [None] or a string. *)
Definition or_empty (x : option str) : str := default [] x.

(** [[u.strip() for u in items if u.strip()]] *)
Definition strip_each (items : list str) : list str :=
  strip <$> filter (fun u => strip u <> []) items.

(** [resp.content if hasattr(resp, "content") else str(resp)] *)
Definition content_or_str (resp : Rag.Response) : str :=
  match resp with
  | Rag.AIMessage content => content
  | Rag.Object repr => repr
  end.

(** The characters of a text that are not whitespace, in order. *)
Definition visible (s : str) : str :=
  filter (fun c => isspace c = false) (s : list char).

(** A text without a line boundary. *)
Definition no_linebreak (u : str) : Prop :=
  Forall (fun c => is_linebreak c = false) u.

Definition comma : char := 44%N.

(** A text that is not empty and has no whitespace at either end. *)
Definition clean (u : str) : Prop := u <> [] /\ strip u = u.

End PyText.

(** ** src/agents/market.py *)

Module Market.

(** An item of the result of [fetch_pages]: the dictionary with the keys
    [url] and [text]. *)
Record Page := mkPage {
  url : str;
  text : str
}.

Section Market.

Context {float : Type}.

(** [httpx.Client(follow_redirects=True, timeout=timeout, headers=headers)]
    and [client.get(url)] on it: the status code and the text of the
    response, or the exception of the client. *)
Variable httpx_get : Q -> str -> result (Z * str).

(** [trafilatura.extract(text, include_comments=False, favor_recall=True)] *)
Variable trafilatura_extract : str -> result (option str).

Variable ChatOpenAI_invoke : str -> float -> str -> list Rag.Message -> result Rag.Response.

(** The body of the [try] for one URL, with the pages that it appends. *)
Definition fetch_page (timeout : Q) (url : str) : result (list Page) :=
  r <- httpx_get timeout url ;;
  if r.1 =? 200 then
    extracted <- trafilatura_extract r.2 ;;
    Ok [mkPage url (PyText.slice_to 20000 (PyText.or_empty extracted))]
  else Ok [].

(** [except Exception: continue] goes on with the next URL. *)
Fixpoint fetch_pages (urls : list str) (timeout : Q) : list Page :=
  match urls with
  | [] => []
  | url :: urls' =>
      match fetch_page timeout url with
      | Ok ps => ps
      | Raise _ => []
      end ++ fetch_pages urls' timeout
  end.

Definition joined_pages (pages : list Page) : str :=
  join nlnl ((fun p => lit "URL: " ++ url p ++ nl ++ text p) <$> pages).

Definition brief_prompt (competitors : list str) (pages : list Page) : str :=
  lit "Create a concise market research brief covering the listed competitors. "
  ++ lit "Include: positioning, key products, pricing cues (if present), strengths/weaknesses, and notable recent updates. "
  ++ lit "Use bullet lists and cite URLs inline." ++ nlnl
  ++ lit "Competitors: " ++ join (lit ", ") competitors ++ nlnl
  ++ lit "Sources (raw):" ++ nl ++ PyText.slice_to 40000 (joined_pages pages).

Definition synthesize_competitor_brief (competitors : list str) (pages : list Page)
    (api_key model : str) (temperature : float) : result str :=
  let llm := ChatOpenAI_invoke model temperature api_key in
  let prompt := brief_prompt competitors pages in
  let msg := [Rag.mkMessage (lit "user") prompt] in
  resp <- llm msg ;;
  Ok (PyText.content_or_str resp).

End Market.
End Market.

(** ** src/agents/news.py *)

Module News.

(** An item of the result of [fetch_rss_entries]: the dictionary with
    these five keys. *)
Record Entry := mkEntry {
  title : str;
  link : str;
  summary : str;
  published : str;
  source : str
}.

Section News.

Context {float : Type}.

(** [feedparser.parse(url).entries]: every entry is a dictionary. *)
Variable feedparser_parse : str -> result (list (gmap str str)).

Variable ChatOpenAI_invoke : str -> float -> str -> list Rag.Message -> result Rag.Response.

(** [entry.get(key, "")] *)
Definition get (entry : gmap str str) (key : string) : str :=
  default [] (entry !! lit key).

(** The body of the [try] for one feed, with the entries that it appends. *)
Definition feed_entries (url : str) (max_items_per_feed : Z) : list Entry :=
  match feedparser_parse url with
  | Ok entries =>
      (fun entry =>
         mkEntry (get entry "title") (get entry "link") (get entry "summary")
           (get entry "published") url)
        <$> PyText.slice_to max_items_per_feed entries
  | Raise _ => []
  end.

Fixpoint fetch_rss_entries (feed_urls : list str) (max_items_per_feed : Z) : list Entry :=
  match feed_urls with
  | [] => []
  | url :: feed_urls' =>
      feed_entries url max_items_per_feed ++ fetch_rss_entries feed_urls' max_items_per_feed
  end.

(** The em dash of the bullet lines. *)
Definition em_dash : str := [8212%N].

Definition bullet (e : Entry) : str :=
  lit "- " ++ title e ++ lit " (" ++ link e ++ lit ") " ++ em_dash ++ lit " "
  ++ PyText.slice_to 300 (summary e).

Definition news_prompt (entries : list Entry) : str :=
  lit "Summarize today's news from the following bullet points into a concise brief with 3-5 bullets and a short headline."
  ++ lit " Focus on facts. Include links inline when useful." ++ nlnl
  ++ join nl (bullet <$> entries).

Definition summarize_news (entries : list Entry) (api_key model : str)
    (temperature : float) : result str :=
  match entries with
  | [] => Ok (lit "No news entries available.")
  | _ :: _ =>
      let llm := ChatOpenAI_invoke model temperature api_key in
      let msg := [Rag.mkMessage (lit "user") (news_prompt entries)] in
      resp <- llm msg ;;
      Ok (PyText.content_or_str resp)
  end.

End News.
End News.

(** ** src/app.py: uploads, the tabs and [main]

    One run of the script on the widget values of the moment. What is
    drawn on the page is left out; a function returns the values that the
    page shows. *)

Module Main.

(** An uploaded file: [uf.name], the base name of the file, and
    [uf.getbuffer()]. *)
Record UploadedFile := mkUploadedFile {
  name : str;
  getbuffer : list N
}.

(** The loop of [save_uploaded_files] over the fresh directory of
    [tempfile.mkdtemp]; a path is the name of the file in that directory,
    and [open(target, "wb")] replaces a file that is there already. *)
Fixpoint save_loop (uploaded_files : list UploadedFile) (saved : list str)
    (temp_dir : gmap str (list N)) : list str * gmap str (list N) :=
  match uploaded_files with
  | [] => (saved, temp_dir)
  | uf :: uploaded_files' =>
      let target := name uf in
      save_loop uploaded_files' (saved ++ [target]) (<[ target := getbuffer uf ]> temp_dir)
  end.

(** The saved paths, and the files of the temporary directory. *)
Definition save_uploaded_files (uploaded_files : list UploadedFile)
  : list str * gmap str (list N) :=
  save_loop uploaded_files [] ∅.

(** The widget values of one run. *)
Record Inputs (float : Type) := mkInputs {
  reset_clicked : bool;
  uploaded : list UploadedFile;
  ingest_clicked : bool;
  question : str;
  ask_clicked : bool;
  model : str;
  temperature : float;
  top_k : Z
}.
Arguments reset_clicked {float}.
Arguments uploaded {float}.
Arguments ingest_clicked {float}.
Arguments question {float}.
Arguments ask_clicked {float}.
Arguments model {float}.
Arguments temperature {float}.
Arguments top_k {float}.

(** The index directory with the calls of the embedding service, and the
    [retriever_ready] key of [st.session_state]. *)
Record Session (float : Type) := mkSession {
  world : World float;
  retriever_ready : bool
}.
Arguments mkSession {float}.
Arguments world {float}.
Arguments retriever_ready {float}.

Section Script.

Context {float : Type} {F32 : Float32 float}.

(** [PyPDFLoader(path).load()] on a file with these bytes. *)
Variable PyPDFLoader_parse : str -> list N -> result (list Document).

Variable OpenAIEmbeddings : str -> str -> Embeddings float.
Variable similarity : list float -> list float -> Q.
Variable ChatOpenAI_invoke : str -> float -> str -> list Rag.Message -> result Rag.Response.
Variable feedparser_parse : str -> result (list (gmap str str)).
Variable httpx_get : Q -> str -> result (Z * str).
Variable trafilatura_extract : str -> result (option str).

(** The body of [if st.button("Summarize News")]: the brief and the raw
    entries that are shown. *)
Definition news_tab (api_key model : str) (temperature : float) (feed_text : str)
    (max_items : Z) : result (str * list News.Entry) :=
  let feeds := PyText.strip_each (PyText.splitlines feed_text) in
  let entries := News.fetch_rss_entries feedparser_parse feeds max_items in
  summary <- News.summarize_news ChatOpenAI_invoke entries api_key model temperature ;;
  Ok (summary, entries).

(** [[s.strip() for s in competitors.split(",") if s.strip()]] *)
Definition competitor_names (competitors : str) : list str :=
  PyText.strip_each (Py.split (lit ",") competitors).

(** The body of [if st.button("Generate Brief")]: the brief and the
    fetched pages that are shown. *)
Definition market_tab (api_key model : str) (temperature : float)
    (competitors urls_text : str) : result (str * list Market.Page) :=
  let url_list := PyText.strip_each (PyText.splitlines urls_text) in
  let pages := Market.fetch_pages httpx_get trafilatura_extract url_list 12 in
  brief <- Market.synthesize_competitor_brief ChatOpenAI_invoke
             (competitor_names competitors) pages api_key model temperature ;;
  Ok (brief, pages).

Definition on_world {A} (m : io (World float) A) : io (Session float) A :=
  fun s =>
    let (r, w') := m (world s) in
    (r, mkSession w' (retriever_ready s)).

(** The loader on the files of the temporary directory; it refuses a
    path that is no file with [ValueError]. *)
Definition load_saved (temp_dir : gmap str (list N)) (path : str)
  : result (list Document) :=
  match temp_dir !! path with
  | Some bytes => PyPDFLoader_parse path bytes
  | None => Raise ValueError
  end.

(** The "Reset Index" button of [sidebar_controls]. *)
Definition sidebar_controls (inp : Inputs float) : io (Session float) unit :=
  fun s =>
    if reset_clicked inp then
      let (r, st) :=
        App.reset_index (App.mkState (files (world s)) (retriever_ready s)) in
      (r, mkSession (mkWorld (App.index_dir st) (embed_calls (world s)))
            (App.retriever_ready st))
    else (Ok tt, s).

(** The body of [if st.button("Ingest Documents", ...)]. *)
Definition ingest_documents (api_key : str) (uploaded : list UploadedFile)
  : io (Session float) unit :=
  (_ <- on_world Ingest.ensure_index ;;
   let saved := save_uploaded_files uploaded in
   _ <- on_world
          (Ingest.add_pdfs_to_index (load_saved saved.2) OpenAIEmbeddings saved.1 api_key) ;;
   fun s => (Ok tt, mkSession (world s) true))%io.

(** The "Index Files" metric. *)
Definition index_files (s : Session float) : option nat :=
  if FS.exists_ [] (files (world s))
  then Some (length (FS.glob_all (files (world s))))
  else None.

(** The question part of the page: the retriever is loaded whenever the
    session key is set or the index directory exists. *)
Definition ask (api_key : str) (inp : Inputs float) (s : Session float)
  : result (option Rag.QAResult) :=
  if retriever_ready s || FS.exists_ [] (files (world s)) then
    retriever <- Rag.load_retriever OpenAIEmbeddings api_key (top_k inp) (files (world s)) ;;
    if ask_clicked inp && bool_decide (strip (question inp) <> []) then
      result <- Rag.answer_question ChatOpenAI_invoke
                  (Rag.get_relevant_documents similarity retriever)
                  (question inp) (model inp) (temperature inp) api_key ;;
      Ok (Some result)
    else Ok None
  else Ok None.

(** [main] up to the end of the "Document Analyzer" tab: the metric and
    the answer that are shown. *)
Definition main (api_key : str) (inp : Inputs float)
  : io (Session float) (option nat * option Rag.QAResult) :=
  (_ <- sidebar_controls inp ;;
   _ <- (if ingest_clicked inp then ingest_documents api_key (uploaded inp)
         else io_ret tt) ;;
   fun s => ((r <- ask api_key inp s ;; Ok (index_files s, r))%result, s))%io.

End Script.

(** The session key is only set while the index directory exists. *)
Definition ready_has_dir {float} (s : Session float) : Prop :=
  retriever_ready s = true -> FS.exists_ [] (files (world s)) = true.

End Main.

(** ** src/agents/report.py *)

Module Report.

(** A data frame: its column names and its rows. *)
Record DataFrame := mkDataFrame {
  columns : list str;
  rows : list (list str)
}.

Section Report.

(** [pd.read_csv(BytesIO(csv_bytes))] *)
Variable pd_read_csv : list N -> result DataFrame.

(** [df.head(n)] *)
Definition head (df : DataFrame) (n : Z) : DataFrame :=
  mkDataFrame (columns df) (PyText.slice_to n (rows df)).

Definition load_csv_preview (csv_bytes : list N) (max_rows : Z) : result DataFrame :=
  df <- pd_read_csv csv_bytes ;;
  Ok (if max_rows <? Z.of_nat (length (rows df)) then head df max_rows else df).

End Report.
End Report.

(** ** Chunks and their pages *)

(** The texts of a list of documents, one after the other. *)
Definition texts (documents : list Document) : str :=
  concat (page_content <$> documents).

(** [c] is a chunk of one of the [documents]: it carries the metadata of
    that document and its text is a chunk of the document's text. *)
Definition chunk_from (chunk_size : Z) (documents : list Document) (c : Document) : Prop :=
  exists d, d ∈ documents /\ metadata c = metadata d
    /\ TextSplitter.chunk_of chunk_size (page_content d) (page_content c).

(** ** Concrete inputs for the script and the agents

    A PDF parser that returns the bytes of a file as its only page, a
    session on an empty and on a cluttered index directory, widget values,
    two feeds of which the second cannot be read, and a web on which one
    page is served, one is missing and one fails. *)

Module Scenarios.

Definition parse (path : str) (bytes : list N) : result (list Document) :=
  Ok [Examples.page path bytes 0].

(** An embedding service whose vectors need more than 24 bits:
    [[16777217, len(text)]]. *)
Definition wide_embedder (api_key model : str) : Embeddings Z :=
  mkEmbeddings Z
    (fun texts => Ok ((fun t => [16777217; len t]) <$> texts))
    (fun text => Ok [16777217; len text]).

Definition upload_a : Main.UploadedFile :=
  Main.mkUploadedFile (lit "a.pdf") (lit "Hello world.").

Definition empty_dir : gmap (list str) (FS.entry Z) := {[ [] := FS.Dir ]}.

Definition fresh_session : Main.Session Z :=
  Main.mkSession (mkWorld empty_dir []) false.

Definition cluttered_session : Main.Session Z :=
  Main.mkSession (mkWorld Examples.cluttered_dir []) true.

(** Only "Ask" is clicked. *)
Definition asking : Main.Inputs Z :=
  Main.mkInputs Z false [] false (lit "What is said?") true (lit "gpt-4o-mini") 0 4.

(** "Ask" is clicked on a question of whitespace. *)
Definition asking_nothing : Main.Inputs Z :=
  Main.mkInputs Z false [] false [32%N; 9%N] true (lit "gpt-4o-mini") 0 4.

(** The session after [a.pdf] has been ingested. *)
Definition indexed_session : Main.Session Z :=
  Main.mkSession Examples.world_a true.

(** Only "Reset Index" is clicked. *)
Definition resetting : Main.Inputs Z :=
  Main.mkInputs Z true [] false [] false (lit "gpt-4o-mini") 0 4.

Definition feed_a : str := lit "https://a.example/rss".
Definition feed_b : str := lit "https://b.example/feed".

Definition item (title link : string) : gmap str str :=
  list_to_map [(lit "title", lit title); (lit "link", lit link)].

Definition feedparser (url : str) : result (list (gmap str str)) :=
  if decide (url = feed_a)
  then Ok [item "One" "https://a.example/1"; item "Two" "https://a.example/2"]
  else Raise (External 4).


Definition site_ok : str := lit "https://acme.example/pricing".
Definition site_missing : str := lit "https://acme.example/gone".
Definition site_down : str := lit "https://down.example/".

Definition httpx (timeout : Q) (url : str) : result (Z * str) :=
  if decide (url = site_ok) then Ok (200, lit "<p>Plans from 10 a month</p>")
  else if decide (url = site_missing) then Ok (404, lit "Not found")
  else Raise (External 5).

Definition trafilatura (html : str) : result (option str) := Ok (Some html).

Definition competitors : list str := [lit "Acme"; lit "Wingify"].

Definition feeds : list str := [feed_a; feed_b].

Definition sites : list str := [site_ok; site_missing; site_down].

(** A space, a newline and a tab. *)
Definition blank : str := [32%N; 10%N; 9%N].

Definition model : str := lit "gpt-4o-mini".

Definition read_csv (csv_bytes : list N) : result Report.DataFrame :=
  Ok (Report.mkDataFrame [lit "day"; lit "visits"]
        [[lit "1"; lit "10"]; [lit "2"; lit "12"]; [lit "3"; lit "9"]]).

End Scenarios.

(** * Properties *)

(** ** Ingestion *)

(** Runs [add_pdfs_to_index] up to the first call whose outcome is not
    known yet. *)
Ltac run_ingest :=
  unfold Ingest.add_pdfs_to_index, io_bind, Ingest.ensure_index, on_files, io_lift.

Section IngestProperties.

Context {float : Type} {F32 : Float32 float}.
Variable ldr : str -> result (list Document).
Variable emb : str -> str -> Embeddings float.

Lemma mkdir_lookup_ne (fs : gmap (list str) (FS.entry float)) p :
  p <> [] -> (FS.mkdir fs).2 !! p = fs !! p.
Proof.
  intros Hp. unfold FS.mkdir.
  destruct (fs !! []) as [[|c]|] eqn:E; simpl; try done.
  by rewrite lookup_insert_ne.
Qed.

Lemma mkdir_ok (fs : gmap (list str) (FS.entry float)) :
  (forall c, fs !! [] <> Some (FS.File c)) ->
  (FS.mkdir fs).1 = Ok tt /\ (FS.mkdir fs).2 !! [] = Some FS.Dir.
Proof.
  intros H. unfold FS.mkdir.
  destruct (fs !! []) as [[|c]|] eqn:E; simpl.
  - done.
  - by destruct (H c).
  - by rewrite lookup_insert_eq.
Qed.

Lemma mkdir_root (fs : gmap (list str) (FS.entry float)) :
  (FS.mkdir fs).2 !! [] = fs !! []
  \/ (fs !! [] = None /\ (FS.mkdir fs).2 !! [] = Some FS.Dir).
Proof.
  unfold FS.mkdir. destruct (fs !! []) as [[|c]|] eqn:E; simpl; [by left..|].
  right. by rewrite lookup_insert_eq.
Qed.

Lemma load_pdfs_failure paths p e :
  p ∈ paths -> ldr p = Raise e -> exists e', Ingest._load_pdfs ldr paths = Raise e'.
Proof.
  induction paths as [|q paths IH]; intros Hin Hp.
  - by apply elem_of_nil in Hin.
  - simpl. apply elem_of_cons in Hin as [->|Hin].
    + rewrite Hp. simpl. eauto.
    + destruct (ldr q); simpl; [|eauto].
      destruct (IH Hin Hp) as [e' ->]. simpl. eauto.
Qed.

(** C1, as the code has it: when the loader fails on a file of the batch,
    [add_pdfs_to_index] raises; no text is sent to the embedding service
    and no file below the index directory is created or changed. *)
Theorem loader_failure_aborts_batch paths p e key (w : World float) :
  p ∈ paths -> ldr p = Raise e ->
  let r := Ingest.add_pdfs_to_index ldr emb paths key w in
  (exists e', r.1 = Raise e')
  /\ embed_calls r.2 = embed_calls w
  /\ (forall q, q <> [] -> files r.2 !! q = files w !! q)
  /\ (files r.2 !! [] = files w !! []
      \/ (files w !! [] = None /\ files r.2 !! [] = Some FS.Dir)).
Proof.
  intros Hin Hp.
  destruct (load_pdfs_failure paths p e Hin Hp) as [e' He'].
  pose proof (mkdir_root (files w)) as Hroot.
  pose proof (mkdir_lookup_ne (files w)) as Hmk.
  run_ingest.
  rewrite He'.
  destruct (FS.mkdir (files w)) as [[[]|e0] fs'] eqn:E; simpl in *; eauto.
Qed.

(** C10: when loading yields no document, [add_pdfs_to_index] returns
    after [ensure_index]: nothing is sent to the embedding service, the
    index directory exists, and every file below it is as it was. *)
Theorem no_documents_no_index_change paths key (w : World float) :
  Ingest._load_pdfs ldr paths = Ok [] ->
  (forall c, files w !! [] <> Some (FS.File c)) ->
  let r := Ingest.add_pdfs_to_index ldr emb paths key w in
  r.1 = Ok tt
  /\ embed_calls r.2 = embed_calls w
  /\ files r.2 !! [] = Some FS.Dir
  /\ (forall q, q <> [] -> files r.2 !! q = files w !! q).
Proof.
  intros Hload Hroot.
  destruct (mkdir_ok (files w) Hroot) as [Hok Hdir].
  run_ingest.
  rewrite Hload.
  destruct (FS.mkdir (files w)) as [[[]|e0] fs'] eqn:E; simpl in *; [|done].
  repeat split; try done.
  intros q Hq. rewrite <- (mkdir_lookup_ne (files w) q Hq). by rewrite E.
Qed.

(** C4: when the embedding service fails on the chunks of the batch,
    [add_pdfs_to_index] raises and every file below the index directory,
    the index files among them, is as it was before the call. *)
Theorem embedder_failure_persists_nothing paths key (w : World float) raw docs e :
  Ingest._load_pdfs ldr paths = Ok raw -> raw <> [] ->
  Ingest._split_docs raw 1000 150 = Ok docs ->
  embed_documents (Ingest._get_embeddings emb key) (page_content <$> docs) = Raise e ->
  let r := Ingest.add_pdfs_to_index ldr emb paths key w in
  (exists e', r.1 = Raise e')
  /\ (forall q, q <> [] -> files r.2 !! q = files w !! q)
  /\ (files r.2 !! [] = files w !! []
      \/ (files w !! [] = None /\ files r.2 !! [] = Some FS.Dir)).
Proof.
  intros Hload Hne Hsplit Hemb.
  run_ingest.
  rewrite Hload.
  pose proof (mkdir_lookup_ne (files w)) as Hmk.
  pose proof (mkdir_root (files w)) as Hroot.
  destruct (FS.mkdir (files w)) as [[[]|e0] fs'] eqn:E; simpl in *; [|eauto].
  destruct raw as [|d raw]; [done|].
  rewrite Hsplit. simpl.
  destruct (FS.exists_ FAISS.index_faiss fs'); simpl.
  - destruct (FAISS.load_local fs') as [vs|e1]; simpl; [|eauto].
    unfold FAISS.add_documents, io_bind, call_embed_documents. simpl.
    rewrite Hemb. simpl. eauto.
  - unfold FAISS.from_documents, io_bind, call_embed_documents. simpl.
    rewrite Hemb. simpl. eauto.
Qed.

Lemma index_names_distinct :
  FAISS.index_faiss <> FAISS.index_pkl /\ FAISS.index_faiss <> [] /\ FAISS.index_pkl <> [].
Proof. repeat split; discriminate. Qed.

Lemma save_local_inv (vs : FAISS.t float) (fs fs' : gmap (list str) (FS.entry float)) :
  FAISS.save_local vs fs = (Ok tt, fs') ->
  fs' = FAISS.saved vs (FS.mkdir fs).2 /\ fs' !! [] = Some FS.Dir.
Proof.
  destruct index_names_distinct as (Hfp & Hf & Hp).
  unfold FAISS.save_local, io_bind, FAISS.saved.
  destruct (FS.mkdir fs) as [[[]|e0] fs1] eqn:E; [|done].
  assert (fs1 !! [] = Some FS.Dir) as Hroot.
  { revert E. unfold FS.mkdir. destruct (fs !! []) as [[|c]|] eqn:E'; intros [= <-]; try done.
    by rewrite lookup_insert_eq. }
  simpl. unfold FS.write_file.
  destruct (fs1 !! FAISS.index_faiss) as [[|c]|] eqn:E1; try done;
    rewrite lookup_insert_ne by done;
    (destruct (fs1 !! FAISS.index_pkl) as [[|c']|] eqn:E2; try done);
    intros [= <-]; (split; [done|]); by rewrite !lookup_insert_ne.
Qed.

Lemma load_local_saved (vs : FAISS.t float) (fs : gmap (list str) (FS.entry float)) :
  FAISS.load_local (FAISS.saved vs fs) = Ok vs.
Proof.
  destruct index_names_distinct as (Hfp & Hf & Hp).
  unfold FAISS.load_local, FAISS.saved.
  rewrite lookup_insert_ne by done. rewrite lookup_insert_eq.
  rewrite lookup_insert_eq. by destruct vs.
Qed.

Lemma save_local_saved (vs vs' : FAISS.t float) (fs : gmap (list str) (FS.entry float)) :
  fs !! [] = Some FS.Dir ->
  FAISS.save_local vs' (FAISS.saved vs fs) = (Ok tt, FAISS.saved vs' fs).
Proof.
  destruct index_names_distinct as (Hfp & Hf & Hp). intros Hroot.
  unfold FAISS.save_local, io_bind, FS.mkdir, FAISS.saved.
  rewrite !lookup_insert_ne by done. rewrite Hroot.
  unfold FS.write_file. rewrite lookup_insert_ne by done.
  rewrite lookup_insert_eq.
  rewrite lookup_insert_ne by done. rewrite lookup_insert_eq.
  f_equal. apply map_eq. intros q.
  destruct (decide (q = FAISS.index_pkl)) as [->|];
    [by rewrite !lookup_insert_eq|].
  rewrite !(lookup_insert_ne _ FAISS.index_pkl) by done.
  destruct (decide (q = FAISS.index_faiss)) as [->|];
    [by rewrite !lookup_insert_eq|].
  rewrite !(lookup_insert_ne _ FAISS.index_faiss) by done.
  rewrite !lookup_insert_ne by done. done.
Qed.

Lemma add_inv (vs vs' : FAISS.t float) docs embs :
  FAISS.add vs docs embs = Ok vs' ->
  vs' = FAISS.mk (FAISS.index_d vs)
          (FAISS.index_vectors vs ++ (fmap (M:=list) float32 <$> embs))
          (FAISS.docstore vs ++ docs)
  /\ length docs = length embs.
Proof.
  unfold FAISS.add.
  destruct (negb (length docs =? length embs)%nat) eqn:E1; [done|].
  destruct embs as [|e0 embs]; [done|].
  destruct (negb (forallb _ (e0 :: embs))) eqn:E2; [done|].
  destruct (negb (length e0 =? FAISS.index_d vs)%nat) eqn:E3; [done|].
  intros [= <-]. split; [done|].
  by apply negb_false_iff, Nat.eqb_eq in E1.
Qed.

Lemma add_again (vs vs' : FAISS.t float) docs embs :
  FAISS.add vs docs embs = Ok vs' ->
  FAISS.add vs' docs embs =
    Ok (FAISS.mk (FAISS.index_d vs')
          (FAISS.index_vectors vs' ++ (fmap (M:=list) float32 <$> embs))
          (FAISS.docstore vs' ++ docs)).
Proof.
  unfold FAISS.add.
  destruct (negb (length docs =? length embs)%nat) eqn:E1; [done|].
  destruct embs as [|e0 embs]; [done|].
  destruct (negb (forallb _ (e0 :: embs))) eqn:E2; [done|].
  destruct (negb (length e0 =? FAISS.index_d vs)%nat) eqn:E3; [done|].
  intros [= <-]. simpl FAISS.index_d. by rewrite E3.
Qed.

Lemma rows_lookup (vs : FAISS.t float) n v d :
  FAISS.index_vectors vs !! n = Some v -> FAISS.docstore vs !! n = Some d ->
  FAISS.rows vs !! n = Some (n, (v, d)).
Proof.
  intros Hv Hd. unfold FAISS.rows.
  rewrite list_lookup_imap, lookup_zip_with, Hv, Hd. done.
Qed.

Lemma add_pdfs_to_index_unfold paths key (w : World float) raw docs :
  Ingest._load_pdfs ldr paths = Ok raw -> raw <> [] ->
  Ingest._split_docs raw 1000 150 = Ok docs ->
  (FS.mkdir (files w)).1 = Ok tt ->
  Ingest.add_pdfs_to_index ldr emb paths key w =
    let w' := mkWorld (FS.mkdir (files w)).2 (embed_calls w) in
    if FS.exists_ FAISS.index_faiss (files w') then
      (vs <- io_lift (FAISS.load_local (files w')) ;;
       vs <- FAISS.add_documents (Ingest._get_embeddings emb key) vs docs ;;
       on_files (FAISS.save_local vs))%io w'
    else
      (vs <- FAISS.from_documents (Ingest._get_embeddings emb key) docs ;;
       on_files (FAISS.save_local vs))%io w'.
Proof.
  intros Hload Hne Hsplit Hmk.
  unfold Ingest.add_pdfs_to_index, Ingest.ensure_index.
  unfold io_bind at 1. unfold on_files at 1.
  destruct (FS.mkdir (files w)) as [[[]|e0] fs'] eqn:E; [|done].
  unfold io_bind at 1. unfold io_lift at 1. rewrite Hload.
  destruct raw as [|d raw]; [done|].
  unfold io_bind at 1. unfold io_lift at 1. rewrite Hsplit. done.
Qed.

(** The store that a successful ingestion of [docs] leaves in the index
    directory is some store with [docs] and their vectors added. *)
Lemma first_ingestion_inv paths key (w0 w1 : World float) raw docs embs :
  Ingest._load_pdfs ldr paths = Ok raw -> raw <> [] ->
  Ingest._split_docs raw 1000 150 = Ok docs ->
  embed_documents (Ingest._get_embeddings emb key) (page_content <$> docs) = Ok embs ->
  Ingest.add_pdfs_to_index ldr emb paths key w0 = (Ok tt, w1) ->
  exists vs vs1 (fs : gmap (list str) (FS.entry float)) calls,
    FAISS.add vs docs embs = Ok vs1
    /\ w1 = mkWorld (FAISS.saved vs1 fs) calls
    /\ fs !! [] = Some FS.Dir.
Proof.
  intros Hload Hne Hsplit Hemb Hfirst.
  assert ((FS.mkdir (files w0)).1 = Ok tt) as Hmk0.
  { revert Hfirst. unfold Ingest.add_pdfs_to_index, Ingest.ensure_index.
    unfold io_bind at 1. unfold on_files at 1.
    by destruct (FS.mkdir (files w0)) as [[[]|e0] fs']. }
  rewrite (add_pdfs_to_index_unfold paths key w0 raw docs Hload Hne Hsplit Hmk0) in Hfirst.
  cbv zeta in Hfirst. simpl files in Hfirst.
  destruct index_names_distinct as (Hfp & Hf & Hp).
  destruct (FS.exists_ FAISS.index_faiss (FS.mkdir (files w0)).2).
  - revert Hfirst. unfold io_bind at 1. unfold io_lift at 1.
    destruct (FAISS.load_local _) as [vs|e1]; [|done].
    unfold io_bind at 1. unfold FAISS.add_documents, io_bind, call_embed_documents, io_lift.
    simpl. rewrite Hemb.
    destruct (FAISS.add vs docs embs) as [vs'|e2] eqn:Ea; [|done].
    unfold on_files. simpl.
    destruct (FAISS.save_local vs' _) as [[[]|e3] fs'] eqn:Es; [|done].
    intros [= <-]. apply save_local_inv in Es as [-> Hr].
    eexists vs, vs', _, _. split; [done|]. split; [done|].
    revert Hr. unfold FAISS.saved. by rewrite !lookup_insert_ne.
  - revert Hfirst. unfold io_bind at 1.
    unfold FAISS.from_documents, io_bind, call_embed_documents, io_lift.
    simpl. rewrite Hemb.
    destruct embs as [|e0 embs]; [done|].
    destruct (FAISS.add _ docs (e0 :: embs)) as [vs'|e2] eqn:Ea; [|done].
    unfold on_files. simpl.
    destruct (FAISS.save_local vs' _) as [[[]|e3] fs'] eqn:Es; [|done].
    intros [= <-]. apply save_local_inv in Es as [-> Hr].
    eexists _, vs', _, _. split; [exact Ea|]. split; [done|].
    revert Hr. unfold FAISS.saved. by rewrite !lookup_insert_ne.
Qed.

(** C7: after a file has been ingested, ingesting it again into the same
    index directory succeeds and appends its chunks once more: every chunk
    of the file is then in the index in two different rows, with the same
    text, metadata and vector. *)
Theorem reingest_appends_duplicates paths key (w0 w1 : World float) raw docs embs :
  Ingest._load_pdfs ldr paths = Ok raw -> raw <> [] ->
  Ingest._split_docs raw 1000 150 = Ok docs ->
  embed_documents (Ingest._get_embeddings emb key) (page_content <$> docs) = Ok embs ->
  Ingest.add_pdfs_to_index ldr emb paths key w0 = (Ok tt, w1) ->
  exists w2 vs1 vs2 before,
    Ingest.add_pdfs_to_index ldr emb paths key w1 = (Ok tt, w2)
    /\ FAISS.load_local (files w1) = Ok vs1
    /\ FAISS.load_local (files w2) = Ok vs2
    /\ FAISS.docstore vs1 = before ++ docs
    /\ FAISS.docstore vs2 = before ++ docs ++ docs
    /\ (forall i d, docs !! i = Some d ->
          FAISS.docstore vs2 !! (length before + i)%nat = Some d
          /\ FAISS.docstore vs2 !! (length before + length docs + i)%nat = Some d
          /\ (length before + i)%nat <> (length before + length docs + i)%nat)
    /\ (length (FAISS.index_vectors vs1) = length (FAISS.docstore vs1) ->
        forall i d, docs !! i = Some d ->
          exists v,
            FAISS.rows vs2 !! (length before + i)%nat
              = Some ((length before + i)%nat, (v, d))
            /\ FAISS.rows vs2 !! (length before + length docs + i)%nat
              = Some ((length before + length docs + i)%nat, (v, d))).
Proof.
  intros Hload Hne Hsplit Hemb Hfirst.
  destruct (first_ingestion_inv paths key w0 w1 raw docs embs Hload Hne Hsplit Hemb Hfirst)
    as (vs & vs1 & fs & calls & Hadd & -> & Hroot).
  pose proof (add_again _ _ _ _ Hadd) as Hadd2.
  destruct (add_inv _ _ _ _ Hadd) as [Hvs1 Hlen].
  set (stored := fmap (M:=list) float32 <$> embs) in *.
  assert (length stored = length embs) as Hstored by apply length_fmap.
  set (vs2 := FAISS.mk (FAISS.index_d vs1) (FAISS.index_vectors vs1 ++ stored)
                (FAISS.docstore vs1 ++ docs)) in *.
  destruct index_names_distinct as (Hfp & Hf & Hp).
  assert (FS.mkdir (FAISS.saved vs1 fs) = (Ok tt, FAISS.saved vs1 fs)) as Hmk1.
  { unfold FS.mkdir, FAISS.saved. rewrite !lookup_insert_ne by done. by rewrite Hroot. }
  assert (forall i d, docs !! i = Some d ->
            FAISS.docstore vs2 !! (length (FAISS.docstore vs) + i)%nat = Some d
            /\ FAISS.docstore vs2 !! (length (FAISS.docstore vs) + length docs + i)%nat
               = Some d) as Hdocs.
  { intros i d Hi. subst vs1. simpl. pose proof (lookup_lt_Some _ _ _ Hi) as Hlt. split.
    - rewrite <- app_assoc. rewrite lookup_app_r by lia.
      rewrite lookup_app_l by lia.
      by replace (length (FAISS.docstore vs) + i - length (FAISS.docstore vs))%nat
        with i by lia.
    - rewrite lookup_app_r by (rewrite length_app; lia).
      rewrite length_app.
      by replace (length (FAISS.docstore vs) + length docs + i
                  - (length (FAISS.docstore vs) + length docs))%nat with i by lia. }
  exists (mkWorld (FAISS.saved vs2 fs) (calls ++ [page_content <$> docs])), vs1, vs2,
    (FAISS.docstore vs).
  split.
  { rewrite (add_pdfs_to_index_unfold paths key _ raw docs Hload Hne Hsplit);
      [|simpl; by rewrite Hmk1].
    cbv zeta. simpl files. rewrite Hmk1. simpl.
    assert (FS.exists_ FAISS.index_faiss (FAISS.saved vs1 fs) = true) as ->.
    { unfold FS.exists_, FAISS.saved. apply bool_decide_eq_true.
      rewrite lookup_insert_ne by done. rewrite lookup_insert_eq. eauto. }
    unfold io_bind at 1. unfold io_lift at 1. rewrite load_local_saved.
    unfold io_bind at 1. unfold FAISS.add_documents, io_bind, call_embed_documents, io_lift.
    simpl. rewrite Hemb, Hadd2.
    unfold on_files. simpl. rewrite (save_local_saved _ _ _ Hroot). done. }
  split; [apply load_local_saved|].
  split; [apply load_local_saved|].
  split; [by subst vs1|].
  split; [subst vs1; simpl; by rewrite <- app_assoc|].
  split.
  - intros i d Hi. destruct (Hdocs i d Hi) as [H1 H2].
    pose proof (lookup_lt_Some _ _ _ Hi). repeat split; [done|done|lia].
  - intros Hcons i d Hi. destruct (Hdocs i d Hi) as [H1 H2].
    pose proof (lookup_lt_Some _ _ _ Hi) as Hlt.
    destruct (lookup_lt_is_Some_2 stored i) as [v Hv]; [lia|].
    assert (length (FAISS.index_vectors vs) = length (FAISS.docstore vs)) as Hcons0.
    { revert Hcons. subst vs1. simpl. rewrite !length_app. lia. }
    exists v. split; apply rows_lookup; try done; subst vs1; simpl.
    + rewrite <- app_assoc. rewrite lookup_app_r by lia.
      rewrite lookup_app_l by lia.
      by replace (length (FAISS.docstore vs) + i - length (FAISS.index_vectors vs))%nat
        with i by lia.
    + rewrite lookup_app_r by (rewrite length_app; lia).
      rewrite length_app.
      by replace (length (FAISS.docstore vs) + length docs + i
                  - (length (FAISS.index_vectors vs) + length stored))%nat with i by lia.
Qed.

End IngestProperties.

(** C1 as the spec states it fails: on a batch of three files whose second
    file cannot be loaded, nothing of the two readable files reaches the
    index. *)
Lemma loader_failure_not_skipped :
  Examples.loader (lit "bad.pdf") = Raise (External 1)
  /\ Examples.loader (lit "a.pdf") = Ok [Examples.page (lit "a.pdf") (lit "Hello world.") 0]
  /\ Examples.loader (lit "c.pdf") = Ok [Examples.page (lit "c.pdf") (lit "Hello world.") 0]
  /\ ~ Ingest.skips_failed_files Examples.loader Examples.embedder
         Examples.batch Examples.key Examples.empty_world.
Proof.
  repeat split; try reflexivity.
  intros (w' & vs & docs & before & H & _).
  vm_compute in H. discriminate H.
Qed.

Lemma loader_failure_aborts_batch_witness :
  lit "bad.pdf" ∈ Examples.batch
  /\ Examples.loader (lit "bad.pdf") = Raise (External 1)
  /\ let r := Ingest.add_pdfs_to_index Examples.loader Examples.embedder
                Examples.batch Examples.key Examples.empty_world in
     (exists e', r.1 = Raise e')
     /\ embed_calls r.2 = embed_calls Examples.empty_world
     /\ (forall q, q <> [] -> files r.2 !! q = files Examples.empty_world !! q)
     /\ (files r.2 !! [] = files Examples.empty_world !! []
         \/ (files Examples.empty_world !! [] = None /\ files r.2 !! [] = Some FS.Dir)).
Proof.
  assert (lit "bad.pdf" ∈ Examples.batch) as Hin.
  { apply elem_of_cons. right. apply elem_of_cons. left. reflexivity. }
  split; [exact Hin|]. split; [reflexivity|].
  apply (loader_failure_aborts_batch Examples.loader Examples.embedder Examples.batch
           (lit "bad.pdf") (External 1));
    [exact Hin|reflexivity].
Defined.

Lemma no_documents_no_index_change_witness :
  Ingest._load_pdfs Examples.loader [] = Ok []
  /\ (forall c, files Examples.world_a !! [] <> Some (FS.File c))
  /\ let r := Ingest.add_pdfs_to_index Examples.loader Examples.embedder []
                Examples.key Examples.world_a in
     r.1 = Ok tt
     /\ embed_calls r.2 = embed_calls Examples.world_a
     /\ files r.2 !! [] = Some FS.Dir
     /\ (forall q, q <> [] -> files r.2 !! q = files Examples.world_a !! q).
Proof.
  assert (forall c, files Examples.world_a !! [] <> Some (FS.File c)) as Hroot.
  { intros c. vm_compute. discriminate. }
  split; [reflexivity|]. split; [exact Hroot|].
  apply (no_documents_no_index_change Examples.loader Examples.embedder []
           Examples.key Examples.world_a);
    [reflexivity|exact Hroot].
Defined.

Lemma embedder_failure_persists_nothing_witness :
  Ingest._load_pdfs Examples.loader [lit "a.pdf"] = Ok [Examples.chunk_a]
  /\ [Examples.chunk_a] <> []
  /\ Ingest._split_docs [Examples.chunk_a] 1000 150 = Ok [Examples.chunk_a]
  /\ embed_documents (Ingest._get_embeddings Examples.embedder_down Examples.key)
       (page_content <$> [Examples.chunk_a])
     = Raise (External 2)
  /\ let r := Ingest.add_pdfs_to_index Examples.loader Examples.embedder_down
                [lit "a.pdf"] Examples.key Examples.world_a in
     (exists e', r.1 = Raise e')
     /\ (forall q, q <> [] -> files r.2 !! q = files Examples.world_a !! q)
     /\ (files r.2 !! [] = files Examples.world_a !! []
         \/ (files Examples.world_a !! [] = None /\ files r.2 !! [] = Some FS.Dir)).
Proof.
  assert (Ingest._split_docs [Examples.chunk_a] 1000 150 = Ok [Examples.chunk_a]) as Hs
    by (vm_compute; reflexivity).
  split; [reflexivity|]. split; [discriminate|]. split; [exact Hs|]. split; [reflexivity|].
  apply (embedder_failure_persists_nothing Examples.loader Examples.embedder_down
           [lit "a.pdf"] Examples.key Examples.world_a
           [Examples.chunk_a] [Examples.chunk_a] (External 2));
    [reflexivity|discriminate|exact Hs|reflexivity].
Defined.

Lemma reingest_appends_duplicates_witness :
  exists w2 vs1 vs2 before,
    Ingest.add_pdfs_to_index Examples.loader Examples.embedder [lit "a.pdf"]
      Examples.key Examples.world_a = (Ok tt, w2)
    /\ FAISS.load_local (files Examples.world_a) = Ok vs1
    /\ FAISS.load_local (files w2) = Ok vs2
    /\ FAISS.docstore vs1 = before ++ [Examples.chunk_a]
    /\ FAISS.docstore vs2 = before ++ [Examples.chunk_a] ++ [Examples.chunk_a]
    /\ (forall i d, [Examples.chunk_a] !! i = Some d ->
          FAISS.docstore vs2 !! (length before + i)%nat = Some d
          /\ FAISS.docstore vs2 !! (length before + length [Examples.chunk_a] + i)%nat
             = Some d
          /\ (length before + i)%nat
             <> (length before + length [Examples.chunk_a] + i)%nat)
    /\ (length (FAISS.index_vectors vs1) = length (FAISS.docstore vs1) ->
        forall i d, [Examples.chunk_a] !! i = Some d ->
          exists v,
            FAISS.rows vs2 !! (length before + i)%nat
              = Some ((length before + i)%nat, (v, d))
            /\ FAISS.rows vs2 !! (length before + length [Examples.chunk_a] + i)%nat
              = Some ((length before + length [Examples.chunk_a] + i)%nat, (v, d))).
Proof.
  apply (reingest_appends_duplicates Examples.loader Examples.embedder [lit "a.pdf"]
           Examples.key Examples.empty_world Examples.world_a
           [Examples.chunk_a] [Examples.chunk_a] [[12; 1]]).
  - reflexivity.
  - discriminate.
  - vm_compute; reflexivity.
  - reflexivity.
  - vm_compute; reflexivity.
Defined.

(** ** Persistence *)

Section PersistProperties.

Context {float : Type}.
Variable emb : str -> str -> Embeddings float.
Variable similarity : list float -> list float -> Q.
Implicit Types fs : gmap (list str) (FS.entry float).

(** [save_local] returns unless the index directory is a regular file or
    a directory stands in the place of one of the two files. *)
Lemma save_local_returns (vs : FAISS.t float) fs :
  (forall c, fs !! [] <> Some (FS.File c)) ->
  fs !! FAISS.index_faiss <> Some FS.Dir -> fs !! FAISS.index_pkl <> Some FS.Dir ->
  FAISS.save_local vs fs = (Ok tt, FAISS.saved vs (FS.mkdir fs).2).
Proof.
  destruct index_names_distinct as (Hfp & Hf & Hp). intros Hroot H1 H2.
  pose proof (mkdir_lookup_ne fs) as Hsame. revert Hsame.
  unfold FAISS.save_local, io_bind.
  destruct (mkdir_ok fs Hroot) as [Hok _]. revert Hok.
  destruct (FS.mkdir fs) as [[[]|e] fs1]; [|done]. cbn [fst snd]. intros _ Hsame.
  unfold FS.write_file, FAISS.saved.
  rewrite (Hsame FAISS.index_faiss) by done.
  destruct (fs !! FAISS.index_faiss) as [[|c]|] eqn:E1; try done;
    rewrite lookup_insert_ne by done; rewrite (Hsame FAISS.index_pkl) by done;
    by destruct (fs !! FAISS.index_pkl) as [[|c']|] eqn:E2.
Qed.

(** C2, on the model of the store. A file of the model holds the value
    that was written to it: the byte formats of [faiss.write_index] and of
    [pickle] are library code, and the search is the one of section 4.3 of
    the spec. For every store, [save_local] into a directory that can take
    the two files returns, [load_retriever] on the directory then returns a
    retriever whose store has the same rows (texts, metadata and vectors),
    and every search and every retrieval on it gives what it gives on the
    store that was saved. *)
Theorem persisted_index_searches_alike (vs : FAISS.t float) fs key k :
  (forall c, fs !! [] <> Some (FS.File c)) ->
  fs !! FAISS.index_faiss <> Some FS.Dir -> fs !! FAISS.index_pkl <> Some FS.Dir ->
  exists fs' r,
    FAISS.save_local vs fs = (Ok tt, fs')
    /\ Rag.load_retriever emb key k fs' = Ok r
    /\ FAISS.rows (Rag.vectorstore r) = FAISS.rows vs
    /\ (forall q n,
          Search.search similarity (Rag.vectorstore r) q n
          = Search.search similarity vs q n)
    /\ (forall question,
          Rag.get_relevant_documents similarity r question
          = Rag.get_relevant_documents similarity
              (Rag.mkRetriever vs (Rag._get_embeddings emb key) k) question).
Proof.
  intros Hroot H1 H2.
  exists (FAISS.saved vs (FS.mkdir fs).2),
    (Rag.mkRetriever vs (Rag._get_embeddings emb key) k).
  split; [by apply save_local_returns|].
  split; [unfold Rag.load_retriever; by rewrite load_local_saved|].
  done.
Qed.

End PersistProperties.

Lemma persisted_index_searches_alike_witness :
  exists fs' r,
    FAISS.save_local Examples.five_rows ∅ = (Ok tt, fs')
    /\ Rag.load_retriever Examples.embedder Examples.key 3 fs' = Ok r
    /\ FAISS.rows (Rag.vectorstore r) = FAISS.rows Examples.five_rows
    /\ (forall q n,
          Search.search Examples.closeness (Rag.vectorstore r) q n
          = Search.search Examples.closeness Examples.five_rows q n)
    /\ (forall question,
          Rag.get_relevant_documents Examples.closeness r question
          = Rag.get_relevant_documents Examples.closeness
              (Rag.mkRetriever Examples.five_rows
                 (Rag._get_embeddings Examples.embedder Examples.key) 3) question).
Proof.
  apply (persisted_index_searches_alike Examples.embedder Examples.closeness
           Examples.five_rows ∅ Examples.key 3).
  - intros c H. vm_compute in H. discriminate.
  - intros H. vm_compute in H. discriminate.
  - intros H. vm_compute in H. discriminate.
Defined.

(** ** Answering *)

Section AnswerProperties.

Context {float : Type}.
Variable chat : str -> float -> str -> list Rag.Message -> result Rag.Response.

Lemma join_delimited sep texts : join sep texts = concat (Rag.delimited sep texts).
Proof.
  induction texts as [|t [|t' texts] IH]; simpl in *.
  - done.
  - by rewrite app_nil_r.
  - by rewrite IH.
Qed.

(** C9: when retrieval returns [retrieved] and the chat service answers
    the prompt that holds the texts of [retrieved], in rank order and
    separated by a blank line, followed by the question, then
    [answer_question] returns that answer text unchanged, with [retrieved]
    itself as the sources. *)
Theorem answer_question_grounded (retriever : str -> result (list Document))
    question model temperature api_key retrieved text :
  retriever question = Ok retrieved ->
  chat model temperature api_key
    [ Rag.mkMessage (lit "system") Rag.system;
      Rag.mkMessage (lit "user")
        (lit "Context:" ++ nl ++ Rag.grounding_context nlnl retrieved
         ++ nlnl ++ lit "Question: " ++ question) ]
    = Ok (Rag.AIMessage text) ->
  Rag.answer_question chat retriever question model temperature api_key
    = Ok (Rag.mkQAResult text retrieved).
Proof.
  intros Hret Hchat. unfold Rag.answer_question.
  rewrite Hret. cbn [Py.bind]. rewrite join_delimited.
  fold (Rag.grounding_context nlnl retrieved). rewrite Hchat. done.
Qed.

End AnswerProperties.

Lemma answer_question_grounded_witness :
  Rag.answer_question Examples.chat (fun _ => Ok Examples.two_chunks)
    (lit "Why?") (lit "gpt-4o-mini") 0 Examples.key
  = Ok (Rag.mkQAResult
          (lit "Echo: Context:" ++ nl ++ lit "Alpha." ++ nlnl ++ lit "Beta."
           ++ nlnl ++ lit "Question: Why?")
          Examples.two_chunks).
Proof.
  apply (answer_question_grounded Examples.chat (fun _ => Ok Examples.two_chunks));
    reflexivity.
Defined.

(** ** Search *)

Section SearchProperties.

Context {float : Type}.
Variable similarity : list float -> list float -> Q.

Abbreviation score := (Search.score similarity).
Abbreviation place := (Search.place similarity).
Abbreviation ranking := (Search.ranking similarity).
Abbreviation outranks := (Search.outranks similarity).

Lemma outranks_trans q a b c : outranks q a b -> outranks q b c -> outranks q a c.
Proof.
  unfold Search.outranks. intros [H1|[H1 H1']] [H2|[H2 H2']].
  - left. lra.
  - left. lra.
  - left. lra.
  - right. split; [lra|lia].
Qed.

Lemma place_perm q c ranked : place q c ranked ≡ₚ c :: ranked.
Proof.
  induction ranked as [|c' ranked IH]; simpl; [done|].
  destruct (Qle_bool _ _); [|done].
  rewrite IH. apply Permutation_swap.
Qed.

Lemma place_sorted q c ranked :
  StronglySorted (outranks q) ranked ->
  Forall (fun c' => (c'.1 < c.1)%nat) ranked ->
  StronglySorted (outranks q) (place q c ranked).
Proof.
  induction ranked as [|c' ranked IH]; simpl; intros Hs Hlt.
  - repeat constructor.
  - apply StronglySorted_inv in Hs as [Hs Hc']. apply Forall_cons in Hlt as [Hlt1 Hlt].
    destruct (Qle_bool (score q c) (score q c')) eqn:E.
    + apply Qle_bool_iff in E. constructor; [by apply IH|].
      rewrite place_perm. constructor; [|done].
      destruct (Qlt_le_dec (score q c) (score q c')) as [Hl|Hl]; [by left|].
      right. split; [lra|done].
    + assert (score q c' < score q c)%Q as Hl.
      { destruct (Qlt_le_dec (score q c') (score q c)) as [Hl|Hl]; [done|].
        apply Qle_bool_iff in Hl. congruence. }
      constructor; [by constructor|].
      constructor; [by left|].
      eapply Forall_impl; [exact Hc'|]. intros x Hx.
      eapply outranks_trans; [|exact Hx]. by left.
Qed.

Lemma ranking_from_spec q (rows : list (list float * Document)) : forall n ranked,
  StronglySorted (outranks q) ranked ->
  Forall (fun c' : FAISS.row float => (c'.1 < n)%nat) ranked ->
  let out := foldl (fun ranked c => place q c ranked) ranked
               (imap (fun i r => ((n + i)%nat, r)) rows) in
  StronglySorted (outranks q) out
  /\ out ≡ₚ ranked ++ imap (fun i r => ((n + i)%nat, r)) rows.
Proof.
  induction rows as [|r rows IH]; intros n ranked Hs Hlt; simpl.
  - split; [done|]. by rewrite app_nil_r.
  - assert (imap ((fun i r0 => ((n + i)%nat, r0)) ∘ S) rows
            = imap (fun i r0 => ((S n + i)%nat, r0)) rows) as ->.
    { apply imap_ext. intros i x _. simpl. f_equal. lia. }
    destruct (IH (S n) (place q ((n + 0)%nat, r) ranked)) as [H1 H2].
    + apply place_sorted; [done|].
      eapply Forall_impl; [exact Hlt|]. simpl. intros; lia.
    + rewrite place_perm. constructor; [simpl; lia|].
      eapply Forall_impl; [exact Hlt|]. simpl. intros; lia.
    + split; [exact H1|]. rewrite H2, place_perm.
      simpl. apply Permutation_middle.
Qed.

Lemma ranking_sorted q vs :
  StronglySorted (outranks q) (ranking q (FAISS.rows vs))
  /\ ranking q (FAISS.rows vs) ≡ₚ FAISS.rows vs.
Proof.
  unfold Search.ranking, FAISS.rows.
  destruct (ranking_from_spec q (zip (FAISS.index_vectors vs) (FAISS.docstore vs)) 0%nat [])
    as [H1 H2]; [constructor|constructor|].
  simpl in *. done.
Qed.

Lemma StronglySorted_lookup {A} (R : relation A) l i j a b :
  StronglySorted R l -> (i < j)%nat -> l !! i = Some a -> l !! j = Some b -> R a b.
Proof.
  intros Hs. revert i j. induction Hs as [|x l Hs IH Hx]; intros i j Hij Hi Hj; [done|].
  destruct j as [|j]; [lia|]. simpl in Hj.
  destruct i as [|i]; simpl in Hi.
  - injection Hi as ->. rewrite Forall_forall in Hx. apply Hx.
    by eapply list_elem_of_lookup_2.
  - eapply IH; [|done..]. lia.
Qed.

(** The first [k] of the ranking: [min(k, n)] chunks of the index, in order
    of non-increasing similarity and, among equally similar ones, in
    insertion order; no chunk that is left out would rank before a returned
    one. *)
Lemma search_top_k vs q k :
  0 <= k ->
  let found := Search.search similarity vs q k in
  Z.of_nat (length found) = Z.min k (Z.of_nat (length (FAISS.rows vs)))
  /\ (forall c, c ∈ found -> c ∈ FAISS.rows vs)
  /\ (forall i j a b, (i < j)%nat -> found !! i = Some a -> found !! j = Some b ->
        (score q b <= score q a)%Q
        /\ ((score q a == score q b)%Q -> (a.1 < b.1)%nat))
  /\ (forall a c, a ∈ found -> c ∈ FAISS.rows vs -> c ∉ found ->
        (score q c <= score q a)%Q
        /\ ((score q a == score q c)%Q -> (a.1 < c.1)%nat)).
Proof.
  intros Hk found. subst found. unfold Search.search.
  destruct (ranking_sorted q vs) as [Hs Hp].
  set (l := ranking q (FAISS.rows vs)) in *.
  assert (forall a b, outranks q a b ->
            (score q b <= score q a)%Q
            /\ ((score q a == score q b)%Q -> (a.1 < b.1)%nat)) as Hout.
  { intros a b [H|[H1 H2]]; split; [lra|intros; lra|lra|done]. }
  rewrite <- (take_drop (Z.to_nat k) l) in Hs.
  apply StronglySorted_app in Hs as (Hcross & Hs1 & _).
  split; [|split; [|split]].
  - rewrite length_take, <- (Permutation_length Hp). lia.
  - intros c Hc. rewrite <- Hp.
    apply elem_of_take in Hc as (i & Hi & _). by eapply list_elem_of_lookup_2.
  - intros i j a b Hij Hi Hj. apply Hout. by eapply StronglySorted_lookup.
  - intros a c Ha Hc Hnc. apply Hout, Hcross; [done|].
    rewrite <- Hp, <- (take_drop (Z.to_nat k) l) in Hc.
    apply elem_of_app in Hc as [Hc|Hc]; done.
Qed.

(** C3: for a retriever with a positive [k] over an index of [n] chunks
    and a question that the embedding service turns into the vector [q],
    retrieval returns the documents of [min(k, n)] chunks of the index, in
    order of non-increasing similarity to [q] and, among equally similar
    chunks, in insertion order; no chunk that is left out would rank before
    a returned one. *)
Theorem retrieval_returns_top_k (r : Rag.Retriever) question q :
  0 < Rag.search_k r ->
  embed_query (Rag.embeddings r) question = Ok q ->
  exists found,
    Rag.get_relevant_documents similarity r question
    = Ok ((fun c : FAISS.row float => c.2.2) <$> found)
    /\ Z.of_nat (length found)
       = Z.min (Rag.search_k r) (Z.of_nat (length (FAISS.rows (Rag.vectorstore r))))
    /\ (forall c, c ∈ found -> c ∈ FAISS.rows (Rag.vectorstore r))
    /\ (forall i j a b, (i < j)%nat -> found !! i = Some a -> found !! j = Some b ->
          (score q b <= score q a)%Q
          /\ ((score q a == score q b)%Q -> (a.1 < b.1)%nat))
    /\ (forall a c, a ∈ found -> c ∈ FAISS.rows (Rag.vectorstore r) -> c ∉ found ->
          (score q c <= score q a)%Q
          /\ ((score q a == score q c)%Q -> (a.1 < c.1)%nat)).
Proof.
  intros Hk Hq.
  exists (Search.search similarity (Rag.vectorstore r) q (Rag.search_k r)).
  split.
  - unfold Rag.get_relevant_documents. by rewrite Hq.
  - apply search_top_k. lia.
Qed.

End SearchProperties.

Lemma retrieval_returns_top_k_witness :
  0 < 3
  /\ embed_query (Examples.embedder Examples.key (lit "text-embedding-3-small"))
       (lit "Hello") = Ok Examples.query
  /\ exists found,
       Rag.get_relevant_documents Examples.closeness Examples.retriever (lit "Hello")
       = Ok ((fun c : FAISS.row Z => c.2.2) <$> found)
       /\ Z.of_nat (length found)
          = Z.min 3 (Z.of_nat (length (FAISS.rows Examples.five_rows)))
       /\ (forall c, c ∈ found -> c ∈ FAISS.rows Examples.five_rows)
       /\ (forall i j a b, (i < j)%nat -> found !! i = Some a -> found !! j = Some b ->
             (Search.score Examples.closeness Examples.query b
              <= Search.score Examples.closeness Examples.query a)%Q
             /\ ((Search.score Examples.closeness Examples.query a
                  == Search.score Examples.closeness Examples.query b)%Q
                 -> (a.1 < b.1)%nat))
       /\ (forall a c, a ∈ found -> c ∈ FAISS.rows Examples.five_rows -> c ∉ found ->
             (Search.score Examples.closeness Examples.query c
              <= Search.score Examples.closeness Examples.query a)%Q
             /\ ((Search.score Examples.closeness Examples.query a
                  == Search.score Examples.closeness Examples.query c)%Q
                 -> (a.1 < c.1)%nat)).
Proof.
  split; [lia|]. split; [reflexivity|].
  apply (retrieval_returns_top_k Examples.closeness Examples.retriever (lit "Hello")
           Examples.query); [simpl; lia|reflexivity].
Defined.

(** ** Reset *)

Section ResetProperties.
Context {float : Type}.
Implicit Types fs : gmap (list str) (FS.entry float).
Implicit Types p q : list str.

Lemma path_le_iff p q : App.path_le p q <-> lexico p q \/ p = q.
Proof.
  unfold App.path_le, App.path_leb.
  destruct (trichotomyT lexico p q) as [[H|H]|H]; split; try done; try tauto.
  intros [H'| ->].
  - exfalso. apply (irreflexivity lexico p). by etrans.
  - exfalso. by apply (irreflexivity lexico q).
Qed.

#[local] Instance path_le_total : Total App.path_le.
Proof.
  intros p q. rewrite !path_le_iff.
  destruct (trichotomyT lexico p q) as [[H|H]|H]; tauto.
Qed.

#[local] Instance path_le_trans : Transitive App.path_le.
Proof.
  intros p q r. rewrite !path_le_iff. intros [H1| ->] [H2| ->]; try tauto.
  left. by etrans.
Qed.

Lemma lexico_snoc p (x : str) : lexico p (p ++ [x]).
Proof.
  induction p as [|a p IH]; simpl; [done|].
  right. done.
Qed.

Lemma is_child_spec p q : FS.is_child p q = true -> exists x, q = p ++ [x].
Proof.
  unfold FS.is_child. destruct (reverse q) as [|x rq] eqn:E; [done|].
  intros H. apply bool_decide_eq_true in H. exists x.
  rewrite <- H, <- reverse_cons, <- E. by rewrite reverse_involutive.
Qed.

Lemma has_children_false p fs :
  (forall x, fs !! (p ++ [x]) = None) -> FS.has_children p fs = false.
Proof.
  intros H. unfold FS.has_children.
  destruct (existsb _ _) eqn:E; [|done].
  apply existsb_exists in E as (q & Hq & Hc).
  apply is_child_spec in Hc as [x ->].
  apply list_elem_of_In, list_elem_of_fmap in Hq as ([q' e] & Heq & Hq).
  apply elem_of_map_to_list in Hq. simpl in Heq. subst q'. by rewrite H in Hq.
Qed.

(** The first loop on distinct, existing paths: the regular files among
    them are gone, nothing else changes. *)
Lemma unlink_each_spec ps : forall fs,
  NoDup ps -> (forall p, p ∈ ps -> is_Some (fs !! p)) ->
  exists fs', App.unlink_each ps fs = (Ok tt, fs')
    /\ forall q, fs' !! q =
         match fs !! q with
         | Some (FS.File c) => if decide (q ∈ ps) then None else Some (FS.File c)
         | o => o
         end.
Proof.
  induction ps as [|p ps IH]; intros fs Hnd Hin.
  - exists fs. split; [done|]. intros q. by destruct (fs !! q) as [[|c]|].
  - apply NoDup_cons in Hnd as [Hp Hnd].
    destruct (Hin p) as [e He]; [by left|].
    simpl. unfold io_bind, App.try_pass, FS.unlink. rewrite He.
    destruct e as [|c]; simpl.
    + destruct (IH fs Hnd) as (fs' & -> & Hfs').
      { intros p' Hp'. apply Hin. by right. }
      exists fs'. split; [done|]. intros q. rewrite Hfs'.
      destruct (fs !! q) as [[|c]|] eqn:Eq; try done.
      destruct (decide (q ∈ ps)) as [Hq|Hq].
      * rewrite decide_True; [done|]. by right.
      * rewrite decide_False; [done|]. intros [->|?]%elem_of_cons; [congruence|done].
    + destruct (IH (delete p fs) Hnd) as (fs' & -> & Hfs').
      { intros p' Hp'. rewrite lookup_delete_ne; [apply Hin; by right|].
        intros ->. done. }
      exists fs'. split; [done|]. intros q. rewrite Hfs'.
      destruct (decide (q = p)) as [->|Hne].
      * rewrite lookup_delete_eq, He. rewrite decide_True; [done|]. by left.
      * rewrite lookup_delete_ne by done.
        destruct (fs !! q) as [[|c']|] eqn:Eq; try done.
        destruct (decide (q ∈ ps)) as [Hq|Hq].
        -- rewrite decide_True; [done|]. by right.
        -- rewrite decide_False; [done|]. intros [->|?]%elem_of_cons; done.
Qed.

(** The order in which the paths are listed does not matter to the first
    loop. *)
Lemma unlink_each_any_order ps ps' fs :
  NoDup ps -> ps ≡ₚ ps' -> (forall p, p ∈ ps -> is_Some (fs !! p)) ->
  App.unlink_each ps' fs = App.unlink_each ps fs.
Proof.
  intros Hnd Hperm Hin.
  destruct (unlink_each_spec ps fs Hnd Hin) as (fs1 & -> & H1).
  destruct (unlink_each_spec ps' fs) as (fs2 & -> & H2).
  { by rewrite <- Hperm. }
  { intros p Hp. apply Hin. by rewrite Hperm. }
  f_equal. apply map_eq. intros q. rewrite H1, H2.
  destruct (fs !! q) as [[|c]|]; try done.
  destruct (decide (q ∈ ps)) as [Hq|Hq].
  - rewrite decide_True; [done|]. by rewrite <- Hperm.
  - rewrite decide_False; [done|]. by rewrite <- Hperm.
Qed.

(** The second loop on the directories in descending order: each is
    empty when its turn comes, so all of them are removed. *)
Lemma rmdir_each_spec ps : forall fs,
  StronglySorted (flip App.path_le) ps -> NoDup ps -> [] ∉ ps ->
  (forall q, q <> [] -> (is_Some (fs !! q) <-> q ∈ ps)) ->
  (forall q, q ∈ ps -> fs !! q = Some FS.Dir) ->
  exists fs', App.rmdir_each ps fs = (Ok tt, fs')
    /\ fs' !! [] = fs !! []
    /\ forall q, q <> [] -> fs' !! q = None.
Proof.
  induction ps as [|p ps IH]; intros fs Hs Hnd Hroot Hkeys Hdir.
  - exists fs. split; [done|]. split; [done|]. intros q Hq.
    destruct (fs !! q) eqn:E; [|done].
    exfalso. eapply elem_of_nil. apply Hkeys; [done|]. by rewrite E.
  - apply StronglySorted_inv in Hs as [Hs Hle].
    apply NoDup_cons in Hnd as [Hp Hnd].
    rewrite Forall_forall in Hle.
    assert (FS.has_children p fs = false) as Hempty.
    { apply has_children_false. intros x.
      destruct (fs !! (p ++ [x])) eqn:E; [|done]. exfalso.
      assert (p ++ [x] ∈ p :: ps) as Hin.
      { apply Hkeys; [by destruct p|]. by rewrite E. }
      pose proof (lexico_snoc p x) as Hlt.
      apply elem_of_cons in Hin as [Heq|Hin].
      - rewrite Heq in Hlt at 1. by apply (irreflexivity lexico) in Hlt.
      - apply Hle in Hin. unfold flip in Hin. apply path_le_iff in Hin as [Hgt|Heq].
        + apply (irreflexivity lexico p). by etrans.
        + rewrite Heq in Hlt at 1. by apply (irreflexivity lexico) in Hlt. }
    simpl. unfold io_bind at 1. unfold FS.is_dir.
    rewrite (Hdir p) by (by left).
    unfold App.try_pass, FS.rmdir. rewrite (Hdir p) by (by left). rewrite Hempty.
    assert (p <> []) as Hpne by (intros ->; apply Hroot; by left).
    destruct (IH (delete p fs) Hs Hnd) as (fs' & -> & Hroot' & Hgone).
    + intros ?. apply Hroot. by right.
    + intros q Hq. destruct (decide (q = p)) as [->|Hne].
      * rewrite lookup_delete_eq. split; [by intros [? ?]|done].
      * rewrite lookup_delete_ne by done. rewrite (Hkeys q Hq).
        split; [intros [?|?]%elem_of_cons; done|by right].
    + intros q Hq. rewrite lookup_delete_ne; [apply Hdir; by right|].
      intros ->. done.
    + exists fs'. split; [done|]. split; [|done].
      rewrite Hroot'. by rewrite lookup_delete_ne.
Qed.

Lemma glob_all_spec fs q :
  q ∈ FS.glob_all fs <-> FS.is_dir [] fs = true /\ q <> [] /\ is_Some (fs !! q).
Proof.
  unfold FS.glob_all. destruct (FS.is_dir [] fs).
  - rewrite list_elem_of_filter, list_elem_of_fmap. split.
    + intros (Hq & [q' e] & -> & Hin). apply elem_of_map_to_list in Hin.
      repeat split; [done|]. simpl. eauto.
    + intros (_ & Hq & e & He). split; [done|]. exists (q, e). split; [done|].
      by apply elem_of_map_to_list.
  - split; [by intros ?%elem_of_nil|by intros [? _]].
Qed.

Lemma glob_all_NoDup fs : NoDup (FS.glob_all fs).
Proof.
  unfold FS.glob_all. destruct (FS.is_dir [] fs); [|constructor].
  apply NoDup_filter, NoDup_fst_map_to_list.
Qed.

Lemma sorted_reverse_spec ps :
  StronglySorted (flip App.path_le) (App.sorted_reverse ps)
  /\ App.sorted_reverse ps ≡ₚ ps.
Proof.
  unfold App.sorted_reverse. split.
  - apply Sorted_StronglySorted.
    { intros p q r. unfold flip. intros ??. by etrans. }
    apply Sorted_reverse, Sorted_merge_sort. apply _.
  - by rewrite reverse_Permutation, merge_sort_Permutation.
Qed.

(** C8: the reset never fails, whatever is left of the index directory.
    When the directory exists, everything below it, files and nested
    directories, is removed and the empty directory remains; when there is
    no such directory, nothing is touched. *)
Theorem reset_index_clears (s : @App.State float) :
  exists fs',
    App.reset_index s = (Ok tt, App.mkState fs' false)
    /\ (FS.is_dir [] (App.index_dir s) = true -> fs' = {[ [] := FS.Dir ]})
    /\ (FS.is_dir [] (App.index_dir s) = false -> fs' = App.index_dir s).
Proof.
  destruct s as [fs ready]. unfold App.reset_index, App.clear_index_dir. simpl.
  destruct (FS.is_dir [] fs) eqn:Hroot.
  - (* the index directory exists *)
    assert (fs !! [] = Some FS.Dir) as Hr.
    { revert Hroot. unfold FS.is_dir. by destruct (fs !! []) as [[|c]|]. }
    assert (FS.exists_ [] fs = true) as ->.
    { apply bool_decide_eq_true. rewrite Hr. eauto. }
    destruct (unlink_each_spec (FS.glob_all fs) fs) as (fs1 & H1 & Hfs1).
    { apply glob_all_NoDup. }
    { intros p Hp. by apply glob_all_spec in Hp as (_ & _ & ?). }
    unfold io_bind. rewrite H1.
    assert (fs1 !! [] = Some FS.Dir) as Hr1 by (by rewrite Hfs1, Hr).
    assert (FS.is_dir [] fs1 = true) as Hroot1 by (unfold FS.is_dir; by rewrite Hr1).
    destruct (sorted_reverse_spec (FS.glob_all fs1)) as [Hs Hp].
    destruct (rmdir_each_spec (App.sorted_reverse (FS.glob_all fs1)) fs1)
      as (fs2 & H2 & Hr2 & Hgone).
    + exact Hs.
    + rewrite Hp. apply glob_all_NoDup.
    + rewrite Hp. by intros (_ & ? & _)%glob_all_spec.
    + intros q Hq. rewrite Hp, glob_all_spec. tauto.
    + intros q. rewrite Hp. intros (_ & Hq & e & He)%glob_all_spec.
      revert He. rewrite Hfs1. destruct (fs !! q) as [[|c]|] eqn:E; try done.
      rewrite decide_True; [done|]. apply glob_all_spec. rewrite E. eauto.
    + rewrite H2. exists fs2. split; [done|]. split; [|done]. intros _.
      apply map_eq. intros q. destruct (decide (q = [])) as [->|Hq].
      * by rewrite Hr2, Hr1, lookup_singleton_eq.
      * rewrite Hgone by done. by rewrite lookup_singleton_ne.
  - (* not a directory: nothing is listed *)
    assert (FS.glob_all fs = []) as Hg by (unfold FS.glob_all; by rewrite Hroot).
    exists fs. split; [|done].
    destruct (FS.exists_ [] fs); [|done].
    unfold io_bind. rewrite Hg. simpl. rewrite Hg. done.
Qed.
End ResetProperties.

Example reset_cluttered_dir :
  App.reset_index (App.mkState Examples.cluttered_dir true)
  = (Ok tt, App.mkState {[ [] := FS.Dir ]} false).
Proof. vm_compute. reflexivity. Qed.

(** ** Chunking *)

Create HintDb substr discriminated.

Section StringProperties.
Implicit Types s t c sep text : str.

Lemma substring_refl s : substring s s.
Proof. exists [], []. by rewrite app_nil_r. Qed.

Lemma substring_trans c s t : substring c s -> substring s t -> substring c t.
Proof.
  intros (a & b & ->) (a' & b' & ->). exists (a' ++ a), (b ++ b').
  by rewrite <- !app_assoc.
Qed.

Lemma substring_app_l c s t : substring c s -> substring c (t ++ s).
Proof. intros (a & b & ->). exists (t ++ a), b. by rewrite <- app_assoc. Qed.

Lemma substring_app_r c s t : substring c s -> substring c (s ++ t).
Proof. intros (a & b & ->). exists a, (b ++ t). by rewrite <- !app_assoc. Qed.

Lemma substring_length c t : substring c t -> len c <= len t.
Proof. intros (a & b & ->). unfold len. rewrite !length_app. lia. Qed.

Lemma lstrip_suffix s : exists a, s = a ++ lstrip s.
Proof.
  induction s as [|c s [a IH]]; simpl; [by exists []|].
  destruct (isspace c); [|by exists []].
  exists (c :: a). simpl. by rewrite <- IH.
Qed.

Lemma strip_substring s : substring (strip s) s.
Proof.
  unfold strip, rstrip.
  destruct (lstrip_suffix s) as [a Ha].
  destruct (lstrip_suffix (reverse (lstrip s))) as [b Hb].
  exists a, (reverse b). rewrite Ha at 1. f_equal.
  rewrite <- reverse_app, <- Hb. by rewrite reverse_involutive.
Qed.

Lemma join_nil (l : list str) : join [] l = concat l.
Proof.
  induction l as [|x [|y l] IH]; simpl in *; [done|by rewrite app_nil_r|].
  by rewrite IH.
Qed.

Lemma startswith_spec sep text :
  startswith sep text = true -> text = sep ++ drop (length sep) text.
Proof.
  revert text. induction sep as [|a sep IH]; intros [|b text]; simpl; try done.
  destruct (decide (a = b)) as [->|]; [|done]. intros H. f_equal. by apply IH.
Qed.

Lemma startswith_app sep text : startswith sep (sep ++ text) = true.
Proof.
  induction sep as [|a sep IH]; simpl; [done|]. by rewrite decide_True.
Qed.

Lemma split_go_skip sep pre : forall cur text,
  Py.split_go sep (length pre) cur (pre ++ text) = Py.split_go sep 0 cur text.
Proof.
  induction pre as [|c pre IH]; intros cur text; simpl; [done|]. apply IH.
Qed.

(** The pieces of a split, each but the first with the separator in
    front, make up the text again. *)
Lemma split_go_concat sep : sep <> [] -> forall n text cur,
  (length text <= n)%nat ->
  exists p0 ps, Py.split_go sep 0 cur text = p0 :: ps
    /\ p0 ++ concat ((fun p => sep ++ p) <$> ps) = reverse cur ++ text.
Proof.
  intros Hsep. induction n as [|n IH]; intros text cur Hn.
  - destruct text; [|simpl in Hn; lia]. simpl. eexists _, []. split; [done|]. done.
  - destruct text as [|c rest].
    { simpl. eexists _, []. split; [done|]. done. }
    simpl Py.split_go.
    destruct (startswith sep (c :: rest)) eqn:E.
    + apply startswith_spec in E.
      destruct sep as [|b sep]; [done|]. simpl in E. injection E as -> E.
      replace (length (b :: sep) - 1)%nat with (length sep) by (simpl; lia).
      assert (length (drop (length sep) rest) <= n)%nat as Hlen.
      { rewrite length_drop. simpl in Hn. lia. }
      revert E Hlen. generalize (drop (length sep) rest). intros rest' -> Hlen.
      rewrite split_go_skip.
      destruct (IH rest' [] Hlen) as (p0 & ps & -> & Hc).
      eexists _, _. split; [done|]. rewrite fmap_cons. cbn [concat].
      rewrite <- (app_assoc (b :: sep)), Hc. done.
    + destruct (IH rest (c :: cur)) as (p0 & ps & -> & Hc); [simpl in Hn; lia|].
      eexists _, _. split; [done|]. rewrite Hc, reverse_cons, <- app_assoc. done.
Qed.

Lemma contains_unfold sep text :
  contains sep text =
    startswith sep text
    || match text with
       | [] => false
       | _ :: text' => contains sep text'
       end.
Proof. by destruct text. Qed.

(** [sep in text] says that [sep] occurs in [text]. *)
Lemma contains_substring sep text : contains sep text = true <-> substring sep text.
Proof.
  split.
  - induction text as [|c text IH]; rewrite contains_unfold;
      intros [H|H]%orb_true_iff; try done.
    + apply startswith_spec in H. exists [], (drop (length sep) []). by rewrite <- H.
    + apply startswith_spec in H. exists [], (drop (length sep) (c :: text)).
      by rewrite <- H.
    + destruct (IH H) as (a & b & ->). by exists (c :: a), b.
  - intros (a & b & ->). induction a as [|c a IH]; rewrite contains_unfold.
    + cbn [app]. by rewrite startswith_app.
    + cbn [app]. rewrite IH. apply orb_true_r.
Qed.

(** [text.split(sep)] cuts at the occurrences of [sep] from left to
    right. *)
Lemma split_go_cut sep : sep <> [] -> forall n text cur,
  (length text <= n)%nat ->
  (forall a b, reverse cur ++ text = a ++ sep ++ b -> (length cur <= length a)%nat) ->
  Chunker.Cut sep (reverse cur ++ text) (Py.split_go sep 0 cur text).
Proof.
  intros Hsep.
  assert (forall cur : str,
             (forall a b, reverse cur ++ [] = a ++ sep ++ b -> (length cur <= length a)%nat) ->
             Chunker.Cut sep (reverse cur ++ []) [reverse cur]) as Hend.
  { intros cur Hinv. rewrite app_nil_r. apply Chunker.Cut_last. intros (a & b & E).
    rewrite <- (app_nil_r (reverse cur)) in E. pose proof (Hinv a b E) as Hle.
    apply (f_equal length) in E. rewrite app_nil_r, length_reverse, !length_app in E.
    destruct sep; [done|]. simpl in E. lia. }
  induction n as [|n IH]; intros text cur Hn Hinv.
  - destruct text; [|simpl in Hn; lia]. by apply Hend.
  - destruct text as [|c rest]; [by apply Hend|].
    simpl Py.split_go.
    destruct (startswith sep (c :: rest)) eqn:E.
    + apply startswith_spec in E.
      destruct sep as [|b sep]; [done|]. simpl in E. injection E as -> E.
      replace (length (b :: sep) - 1)%nat with (length sep) by (simpl; lia).
      assert (length (drop (length sep) rest) <= n)%nat as Hlen.
      { rewrite length_drop. simpl in Hn. lia. }
      revert E Hlen Hinv. generalize (drop (length sep) rest). intros rest' -> Hlen Hinv.
      rewrite split_go_skip.
      apply (Chunker.Cut_at (b :: sep) _ (reverse cur) rest'); [done| |].
      * intros part' rest'' E'. rewrite length_reverse. by eapply Hinv.
      * apply (IH rest' [] Hlen). intros a b' _. simpl. lia.
    + replace (reverse cur ++ c :: rest) with (reverse (c :: cur) ++ rest)
        by (by rewrite reverse_cons, <- app_assoc).
      apply IH; [simpl in Hn; lia|].
      intros a b' E'. rewrite reverse_cons, <- app_assoc in E'. cbn [app] in E'.
      pose proof (Hinv a b' E') as Hle.
      destruct (decide (length a = length cur)) as [Heq|]; [|simpl; lia].
      exfalso. apply app_inj_1 in E' as [_ E']; [|by rewrite length_reverse].
      rewrite E', startswith_app in E. done.
Qed.

Lemma Cut_unique sep text parts1 parts2 :
  Chunker.Cut sep text parts1 -> Chunker.Cut sep text parts2 -> parts1 = parts2.
Proof.
  intros H1. revert parts2.
  induction H1 as [text Hno|text part rest parts Htext Hleft H1 IH]; intros parts2 H2.
  - inversion H2 as [text' Hno'|text' part' rest' parts' Htext' Hleft' H2']; subst; [done|].
    destruct Hno. by eexists _, _.
  - inversion H2 as [text' Hno'|text' part' rest' parts' Htext' Hleft' H2']; subst.
    + destruct Hno'. by eexists _, _.
    + pose proof (Hleft _ _ Htext') as Hle. pose proof (Hleft' _ _ eq_refl) as Hle'.
      apply app_inj_1 in Htext' as [-> E]; [|lia].
      apply app_inv_head in E as ->. f_equal. by apply IH.
Qed.

Lemma concat_filter_nonempty (l : list str) : concat (filter (fun s => s <> []) l) = concat l.
Proof.
  induction l as [|x l IH]; [done|].
  rewrite filter_cons. destruct (decide (x <> [])) as [H|H]; simpl; [by rewrite IH|].
  destruct x; [by rewrite IH|]. by destruct H.
Qed.
End StringProperties.

#[local] Hint Resolve substring_refl substring_app_l substring_app_r : substr.


Section SplitterProperties.
Variables (chunk_size chunk_overlap : Z).
Implicit Types s t c d sep text : str.
Implicit Types splits good cd : list str.

Abbreviation pop_while := (TextSplitter.pop_while chunk_size chunk_overlap).
Abbreviation merge_loop := (TextSplitter.merge_loop chunk_size chunk_overlap).
Abbreviation _merge_splits := (TextSplitter._merge_splits chunk_size chunk_overlap).
Abbreviation split_loop := (TextSplitter.split_loop chunk_size chunk_overlap).
Abbreviation _split_text := (TextSplitter._split_text chunk_size chunk_overlap).

Abbreviation chunk_of := (TextSplitter.chunk_of chunk_size).

Lemma chunk_of_mono text text' c :
  substring text text' -> chunk_of text c -> chunk_of text' c.
Proof.
  unfold TextSplitter.chunk_of. intros H (? & ? & ?).
  repeat split; try done. by eapply substring_trans.
Qed.

Lemma regex_split_spec text sep :
  Forall (fun s => s <> []) (TextSplitter._split_text_with_regex text sep)
  /\ concat (TextSplitter._split_text_with_regex text sep) = text.
Proof.
  unfold TextSplitter._split_text_with_regex. split.
  - apply Forall_forall. intros s Hs. by apply list_elem_of_filter in Hs as [? _].
  - rewrite concat_filter_nonempty. destruct sep as [|a sep].
    + induction text as [|c text IH]; [done|].
      rewrite fmap_cons. cbn [concat]. by rewrite IH.
    + unfold Py.split.
      destruct (split_go_concat (a :: sep) ltac:(done) (length text) text [] ltac:(done))
        as (p0 & ps & -> & Hc).
      exact Hc.
Qed.

Lemma join_docs_spec docs c :
  c ∈ TextSplitter.opt_to_list (TextSplitter._join_docs docs []) ->
  c <> [] /\ substring c (concat docs).
Proof.
  unfold TextSplitter._join_docs. rewrite join_nil.
  destruct (decide (strip (concat docs) = [])) as [|Hne]; simpl.
  - by intros ?%elem_of_nil.
  - intros ->%list_elem_of_singleton. split; [done|]. apply strip_substring.
Qed.

Lemma len_concat_app cd d : len (concat (cd ++ [d])) = len (concat cd) + len d.
Proof. unfold len. rewrite concat_app, length_app. simpl. rewrite app_nil_r. lia. Qed.

Lemma len_nonneg s : 0 <= len s.
Proof. unfold len. lia. Qed.

Hypothesis overlap_nonneg : 0 <= chunk_overlap.

(** The [while] loop returns: it stops at the latest when nothing is
    left. What it keeps is a tail of the current pieces, no longer than
    the overlap, and short enough for the next piece to be added unless
    nothing is kept. *)
Lemma pop_while_spec _len cd :
  exists cd',
    pop_while 0 _len (len (concat cd)) cd = Ok (len (concat cd'), cd')
    /\ cd' `suffix_of` cd
    /\ len (concat cd') <= chunk_overlap
    /\ (len (concat cd') + _len <= chunk_size \/ len (concat cd') = 0).
Proof.
  induction cd as [|c cd IH].
  - exists []. cbn [TextSplitter.pop_while concat]. change (len []) with 0.
    replace (chunk_overlap <? 0) with false by lia. rewrite andb_false_r.
    cbn [orb]. repeat split; [done|lia|by right].
  - destruct IH as (cd' & IH & Hsuf & Hov & Hfit).
    cbn [TextSplitter.pop_while].
    match goal with |- context [if ?b then _ else _] => destruct b eqn:E end.
    + exists cd'. split; [|split; [by apply suffix_cons_r|done]].
      rewrite <- IH. f_equal. simpl. unfold len. rewrite length_app.
      destruct (1 <? S (length cd))%nat; lia.
    + exists (c :: cd). split; [done|]. split; [done|].
      apply orb_false_iff in E as [E1 E2]. apply andb_false_iff in E2.
      split; [lia|]. simpl length in E2.
      replace (0 <? S (length cd))%nat with true in E2 by done.
      pose proof (len_nonneg (concat (c :: cd))). destruct E2; [left|right]; lia.
Qed.

Hypothesis size_positive : 1 <= chunk_size.

(** The merge loop returns, and every document it emits is a chunk of
    the pieces it was given. *)
Lemma merge_loop_spec splits : forall cd,
  len (concat cd) <= chunk_size ->
  Forall (fun d => len d < chunk_size) splits ->
  exists out,
    merge_loop [] splits cd (len (concat cd)) = Ok out
    /\ Forall (chunk_of (concat cd ++ concat splits)) out.
Proof.
  induction splits as [|d splits IH]; intros cd Hcd Hsplits.
  - eexists. split; [done|]. apply Forall_forall. intros c Hc.
    apply join_docs_spec in Hc as [Hne Hsub].
    rewrite app_nil_r. repeat split; [done| |done].
    apply substring_length in Hsub. lia.
  - apply Forall_cons in Hsplits as [Hd Hsplits].
    cbn [TextSplitter.merge_loop]. change (len []) with 0.
    match goal with |- context [Py.bind (if ?b then _ else _)] => destruct b eqn:E end.
    + (* the current pieces are emitted and trimmed to the overlap *)
      destruct (pop_while_spec (len d) cd) as (cd' & -> & [pre Hsuf] & _ & Hfit).
      cbn [Py.bind fst snd].
      replace (len (concat cd') + len d
               + (if (1 <? length (cd' ++ [d]))%nat then 0 else 0))
        with (len (concat (cd' ++ [d])))
        by (rewrite len_concat_app; destruct (1 <? _)%nat; lia).
      destruct (IH (cd' ++ [d])) as (out & -> & Hout); [|done|].
      { rewrite len_concat_app. pose proof (len_nonneg (concat cd')). lia. }
      eexists. split; [done|]. apply Forall_app. split.
      * apply Forall_forall. intros c Hc.
        apply join_docs_spec in Hc as [Hne Hsub].
        repeat split; [done| |by apply substring_app_r].
        apply substring_length in Hsub. lia.
      * eapply Forall_impl; [exact Hout|]. intros c. apply chunk_of_mono.
        rewrite Hsuf, !concat_app. cbn [concat]. rewrite app_nil_r, <- !app_assoc.
        eauto with substr.
    + (* the piece fits, or there is nothing to emit *)
      cbn [Py.bind fst snd app].
      replace (len (concat cd) + len d
               + (if (1 <? length (cd ++ [d]))%nat then 0 else 0))
        with (len (concat (cd ++ [d])))
        by (rewrite len_concat_app; destruct (1 <? _)%nat; lia).
      destruct (IH (cd ++ [d])) as (out & -> & Hout); [|done|].
      { rewrite len_concat_app. apply andb_false_iff in E as [E|E].
        - destruct (0 <? length cd)%nat; lia.
        - destruct cd; [|done]. change (len (concat [])) with 0. lia. }
      eexists. split; [done|].
      eapply Forall_impl; [exact Hout|]. intros c. apply chunk_of_mono.
      rewrite concat_app. cbn [concat]. rewrite app_nil_r, <- !app_assoc.
      apply substring_refl.
Qed.

Lemma merge_splits_spec splits :
  Forall (fun d => len d < chunk_size) splits ->
  exists out,
    _merge_splits splits [] = Ok out /\ Forall (chunk_of (concat splits)) out.
Proof.
  intros H. unfold TextSplitter._merge_splits.
  destruct (merge_loop_spec splits [] ltac:(change (len (concat [])) with 0; lia) H)
    as (out & Hout & Hc).
  exists out. split; [exact Hout|exact Hc].
Qed.

(** When everything fits into one chunk, the merge loop emits the
    stripped concatenation, if anything is left of it. *)
Lemma merge_loop_fits splits : forall cd,
  len (concat cd) + len (concat splits) <= chunk_size ->
  merge_loop [] splits cd (len (concat cd))
  = Ok (TextSplitter.opt_to_list (TextSplitter._join_docs (cd ++ splits) [])).
Proof.
  induction splits as [|d splits IH]; intros cd Hfit.
  - by rewrite app_nil_r.
  - cbn [TextSplitter.merge_loop]. change (len []) with 0.
    assert (len (concat (d :: splits)) = len d + len (concat splits)) as Hd.
    { unfold len. cbn [concat]. rewrite length_app. lia. }
    pose proof (len_nonneg (concat splits)).
    replace (chunk_size <? len (concat cd) + len d
               + (if (0 <? length cd)%nat then 0 else 0)) with false
      by (destruct (0 <? length cd)%nat; lia).
    cbn [andb Py.bind fst snd app].
    replace (len (concat cd) + len d
             + (if (1 <? length (cd ++ [d]))%nat then 0 else 0))
      with (len (concat (cd ++ [d])))
      by (rewrite len_concat_app; destruct (1 <? _)%nat; lia).
    rewrite IH by (rewrite len_concat_app; lia).
    cbn [Py.bind app]. by rewrite <- app_assoc.
Qed.

Lemma len_elem_concat (l : list str) s : s ∈ l -> len s <= len (concat l).
Proof.
  induction l as [|x l IH]; [by intros ?%elem_of_nil|].
  unfold len in *. cbn [concat]. rewrite length_app.
  intros [->|H]%elem_of_cons; [lia|]. specialize (IH H). lia.
Qed.

(** Pieces that are all short enough are merged at this level; the
    separators of lower priority are not used. *)
Lemma split_loop_all_good recur splits : forall good,
  Forall (fun s => len s < chunk_size) splits ->
  split_loop recur [] splits good =
    match good ++ splits with
    | [] => Ok []
    | _ :: _ => _merge_splits (good ++ splits) []
    end.
Proof.
  induction splits as [|s splits IH]; intros good Hs.
  - rewrite app_nil_r. by destruct good.
  - apply Forall_cons in Hs as [Hs Hsplits].
    cbn [TextSplitter.split_loop].
    replace (len s <? chunk_size) with true by lia.
    rewrite IH by done. by rewrite <- app_assoc.
Qed.

Lemma split_loop_spec recur splits : forall good,
  Forall (fun s => s <> []) splits ->
  match recur with
  | None => Forall (fun s => len s <= chunk_size) splits
  | Some f => forall s, exists out, f s = Ok out /\ Forall (chunk_of s) out
  end ->
  Forall (fun d => len d < chunk_size) good ->
  exists out,
    split_loop recur [] splits good = Ok out
    /\ Forall (chunk_of (concat good ++ concat splits)) out.
Proof.
  induction splits as [|s splits IH]; intros good Hne Hrec Hgood.
  - cbn [TextSplitter.split_loop]. rewrite app_nil_r. destruct good as [|g good].
    + by exists [].
    + by apply merge_splits_spec.
  - apply Forall_cons in Hne as [Hs Hne].
    cbn [TextSplitter.split_loop]. destruct (len s <? chunk_size) eqn:E.
    + destruct (IH (good ++ [s])) as (out & -> & Hout); [done| |  |].
      { destruct recur; [done|]. by apply Forall_cons in Hrec as [_ ?]. }
      { apply Forall_app. split; [done|]. constructor; [lia|done]. }
      exists out. split; [done|].
      revert Hout. rewrite concat_app. cbn [concat]. by rewrite app_nil_r, <- !app_assoc.
    + assert (exists merged,
                 match good with
                 | [] => Ok []
                 | _ :: _ => _merge_splits good []
                 end = Ok merged /\ Forall (chunk_of (concat good)) merged)
        as (merged & -> & Hmerged).
      { destruct good as [|g good]; [by exists []|by apply merge_splits_spec]. }
      assert (exists other,
                 match recur with
                 | Some f => f s
                 | None => Ok [s]
                 end = Ok other /\ Forall (chunk_of s) other)
        as (other & -> & Hother).
      { destruct recur as [f|]; [apply Hrec|].
        exists [s]. split; [done|]. constructor; [|done].
        apply Forall_cons in Hrec as [? _]. repeat split; [done..|apply substring_refl]. }
      destruct (IH []) as (out & -> & Hout); [done| |done|].
      { destruct recur; [done|]. by apply Forall_cons in Hrec as [_ ?]. }
      cbn [Py.bind]. eexists. split; [done|]. cbn [concat].
      rewrite !Forall_app. repeat split.
      * eapply Forall_impl; [exact Hmerged|]. intros c.
        apply chunk_of_mono. eauto with substr.
      * eapply Forall_impl; [exact Hother|]. intros c.
        apply chunk_of_mono. eauto with substr.
      * eapply Forall_impl; [exact Hout|]. intros c.
        apply chunk_of_mono. cbn [concat app].
        eauto with substr.
Qed.

Lemma _split_text_cons _s new_separators text :
  _split_text (_s :: new_separators) text =
    if decide (_s = []) then
      split_loop None [] (TextSplitter._split_text_with_regex text _s) []
    else if contains _s text then
      split_loop
        (match new_separators with
         | [] => None
         | _ :: _ => Some (_split_text new_separators)
         end)
        [] (TextSplitter._split_text_with_regex text _s) []
    else
      match new_separators with
      | [] => split_loop None [] (TextSplitter._split_text_with_regex text _s) []
      | _ :: _ => _split_text new_separators text
      end.
Proof. done. Qed.

(** With the empty separator last in the list, the recursion returns and
    yields chunks of the text. *)
Lemma _split_text_spec separators :
  last separators = Some [] ->
  forall text, exists out,
    _split_text separators text = Ok out /\ Forall (chunk_of text) out.
Proof.
  induction separators as [|_s rest IH]; [done|]. intros Hlast text.
  rewrite _split_text_cons.
  destruct (regex_split_spec text _s) as [Hne Hconcat].
  case_decide as Hs; [subst _s|].
  - (* single characters *)
    destruct (split_loop_spec None (TextSplitter._split_text_with_regex text []) [])
      as (out & -> & Hout); [done| |done|].
    { unfold TextSplitter._split_text_with_regex.
      apply Forall_forall. intros s [_ Hs]%list_elem_of_filter.
      apply list_elem_of_fmap in Hs as (c & -> & _). change (len [c]) with 1. lia. }
    exists out. split; [done|]. by rewrite Hconcat in Hout.
  - assert (last rest = Some []) as Hrest.
    { destruct rest as [|s' rest]; [|done]. simpl in Hlast. congruence. }
    specialize (IH Hrest).
    destruct (contains _s text); [|destruct rest as [|s' rest]; [done|apply IH]].
    destruct (split_loop_spec
                (match rest with
                 | [] => None
                 | _ :: _ => Some (_split_text rest)
                 end)
                (TextSplitter._split_text_with_regex text _s) [])
      as (out & Heq & Hout); [done| |done|].
    { destruct rest as [|s' rest]; [done|]. exact IH. }
    exists out. split; [exact Heq|]. by rewrite Hconcat in Hout.
Qed.

(** *** The loops against the chunker in words *)

Abbreviation Runs := (Chunker.Runs chunk_size chunk_overlap).
Abbreviation Level := (Chunker.Level chunk_size chunk_overlap).
Abbreviation Chunked := (Chunker.Chunked chunk_size chunk_overlap).
Abbreviation carried_over := (Chunker.carried_over chunk_size chunk_overlap).

(** In front of a short piece the [while] loop keeps the longest tail
    that fits the overlap and leaves room for the piece. *)
Lemma pop_while_longest d cd :
  len d < chunk_size ->
  exists kept,
    pop_while 0 (len d) (len (concat cd)) cd = Ok (len (concat kept), kept)
    /\ carried_over d cd kept.
Proof.
  intros Hd. pose proof (len_nonneg d) as Hd0. induction cd as [|c cd IH].
  - exists []. cbn [TextSplitter.pop_while concat]. change (len []) with 0.
    replace (chunk_overlap <? 0) with false by lia. rewrite andb_false_r.
    cbn [orb]. split; [done|]. unfold Chunker.carried_over.
    change (len (concat [])) with 0. repeat split; [done|lia|lia|done].
  - destruct IH as (kept & IH & Hsuf & Hfit & Hmax).
    pose proof (len_nonneg (concat (c :: cd))) as Hc0.
    cbn [TextSplitter.pop_while].
    match goal with |- context [if ?b then _ else _] => destruct b eqn:E end.
    + exists kept. split.
      { rewrite <- IH. f_equal. simpl. unfold len. rewrite length_app.
        destruct (1 <? S (length cd))%nat; lia. }
      split; [by apply suffix_cons_r|]. split; [done|].
      intros tail Ht Hf.
      destruct tail as [|t tail]; [apply Hmax; [apply suffix_nil|done]|].
      apply suffix_cons_inv in Ht as [Ht|Ht]; [|by apply Hmax].
      exfalso. rewrite Ht in Hf. destruct Hf as [Hf1 Hf2].
      apply orb_true_iff in E as [E|E]; [lia|].
      apply andb_true_iff in E as [E _].
      destruct (0 <? length (c :: cd))%nat; lia.
    + exists (c :: cd). split; [done|].
      apply orb_false_iff in E as [E1 E2]. apply andb_false_iff in E2.
      split; [done|]. split; [|done]. split; [lia|].
      destruct (0 <? length (c :: cd))%nat; destruct E2; lia.
Qed.

Lemma join_docs_chunk run :
  TextSplitter.opt_to_list (TextSplitter._join_docs run []) = Chunker.chunk_of_run run.
Proof.
  unfold TextSplitter._join_docs, Chunker.chunk_of_run. rewrite join_nil.
  by destruct (decide (strip (concat run) = [])).
Qed.

Lemma chunks_of_runs_cons run runs :
  Chunker.chunks_of_runs (run :: runs)
  = Chunker.chunk_of_run run ++ Chunker.chunks_of_runs runs.
Proof. done. Qed.

(** The merge loop on short pieces returns the chunks of the runs. *)
Lemma merge_loop_runs splits : forall cd,
  Forall (fun d => len d < chunk_size) splits ->
  exists runs,
    merge_loop [] splits cd (len (concat cd)) = Ok (Chunker.chunks_of_runs runs)
    /\ Runs cd splits runs.
Proof.
  induction splits as [|d splits IH]; intros cd Hsplits.
  - exists [cd]. split; [|constructor].
    cbn [TextSplitter.merge_loop]. rewrite join_docs_chunk, chunks_of_runs_cons.
    by rewrite app_nil_r.
  - apply Forall_cons in Hsplits as [Hd Hsplits].
    pose proof (len_nonneg d) as Hd0.
    cbn [TextSplitter.merge_loop]. change (len []) with 0.
    match goal with |- context [Py.bind (if ?b then _ else _)] => destruct b eqn:E end.
    + destruct (pop_while_longest d cd Hd) as (kept & -> & Hkept).
      cbn [Py.bind fst snd].
      assert (len (concat (@app str kept [d]))
              = len (concat kept) + len d
                + (if (1 <? length (@app str kept [d]))%nat then 0 else 0)) as Htotal
        by (rewrite len_concat_app; destruct (1 <? _)%nat; lia).
      destruct (IH (@app str kept [d]) Hsplits) as (runs & Hm & Hruns).
      rewrite Htotal in Hm.
      exists (cd :: runs). rewrite Hm. cbn [Py.bind].
      split; [by rewrite join_docs_chunk, chunks_of_runs_cons|].
      eapply Chunker.Runs_full; [|exact Hkept|exact Hruns].
      apply andb_true_iff in E as [E _]. destruct (0 <? length cd)%nat; lia.
    + cbn [Py.bind fst snd app].
      assert (len (concat (@app str cd [d]))
              = len (concat cd) + len d
                + (if (1 <? length (@app str cd [d]))%nat then 0 else 0)) as Htotal
        by (rewrite len_concat_app; destruct (1 <? _)%nat; lia).
      destruct (IH (@app str cd [d]) Hsplits) as (runs & Hm & Hruns).
      rewrite Htotal in Hm.
      exists runs. rewrite Hm. split; [done|].
      apply Chunker.Runs_add; [|exact Hruns].
      apply andb_false_iff in E as [E|E].
      * destruct (0 <? length cd)%nat; lia.
      * destruct cd; [|done]. change (len (concat [])) with 0. lia.
Qed.

Lemma merge_good_runs good :
  Forall (fun d => len d < chunk_size) good ->
  exists runs,
    match good with
    | [] => Ok []
    | _ :: _ => _merge_splits good []
    end = Ok (Chunker.chunks_of_runs runs)
    /\ Runs [] good runs.
Proof.
  intros Hgood. destruct good as [|g good].
  - exists [[]]. split; [done|constructor].
  - unfold TextSplitter._merge_splits. change 0 with (len (concat [])) at 1.
    by apply merge_loop_runs.
Qed.

(** The loop over the pieces returns their chunks at this level. *)
Lemma split_loop_level recur (lower : str -> list str -> Prop) splits : forall good,
  match recur with
  | None => forall s, lower s [s]
  | Some f => forall s, exists out, f s = Ok out /\ lower s out
  end ->
  Forall (fun d => len d < chunk_size) good ->
  exists out,
    split_loop recur [] splits good = Ok out /\ Level lower (good ++ splits) out.
Proof.
  induction splits as [|s splits IH]; intros good Hrec Hgood.
  - cbn [TextSplitter.split_loop]. rewrite app_nil_r.
    destruct (merge_good_runs good Hgood) as (runs & -> & Hruns).
    eexists. split; [done|]. by constructor.
  - cbn [TextSplitter.split_loop]. destruct (len s <? chunk_size) eqn:E.
    + destruct (IH (good ++ [s]) Hrec) as (out & -> & Hout).
      { apply Forall_app. split; [done|]. constructor; [lia|done]. }
      exists out. split; [done|]. by rewrite <- app_assoc in Hout.
    + destruct (merge_good_runs good Hgood) as (runs & -> & Hruns).
      assert (exists other,
                 match recur with
                 | Some f => f s
                 | None => Ok [s]
                 end = Ok other /\ lower s other)
        as (other & -> & Hother).
      { destruct recur as [f|]; [apply Hrec|]. exists [s]. split; [done|apply Hrec]. }
      destruct (IH [] Hrec ltac:(done)) as (out & -> & Hout).
      cbn [Py.bind]. eexists. split; [done|].
      apply Chunker.Level_long; [done|lia|done..].
Qed.

(** The pieces that the library cuts are the pieces of the text. *)
Lemma regex_split_pieces text sep :
  Chunker.Pieces text sep (TextSplitter._split_text_with_regex text sep).
Proof.
  unfold Chunker.Pieces, TextSplitter._split_text_with_regex.
  destruct sep as [|a sep]; [by eexists|].
  eexists. split; [|done]. exists (Py.split (a :: sep) text). split; [|done].
  apply (split_go_cut (a :: sep) ltac:(done) (length text) text []); [done|].
  intros; simpl; lia.
Qed.

Lemma Chunked_cons boundary lower text chunks :
  Chunked (boundary :: lower) text chunks =
    match lower with
    | [] => Chunker.At chunk_size chunk_overlap (Chunker.whole) boundary text chunks
    | _ :: _ =>
        if decide (boundary = [])
        then Chunker.At chunk_size chunk_overlap (Chunker.whole) boundary text chunks
        else if contains boundary text
             then Chunker.At chunk_size chunk_overlap (Chunked lower) boundary text chunks
             else Chunked lower text chunks
    end.
Proof. done. Qed.

Lemma split_loop_at recur (lower : str -> list str -> Prop) text sep :
  match recur with
  | None => forall s, lower s [s]
  | Some f => forall s, exists out, f s = Ok out /\ lower s out
  end ->
  exists out,
    split_loop recur [] (TextSplitter._split_text_with_regex text sep) [] = Ok out
    /\ Chunker.At chunk_size chunk_overlap lower sep text out.
Proof.
  intros Hrec.
  destruct (split_loop_level recur lower (TextSplitter._split_text_with_regex text sep) []
              Hrec ltac:(done)) as (out & Hout & Hlevel).
  exists out. split; [done|]. eexists. split; [apply regex_split_pieces|exact Hlevel].
Qed.

(** The recursion returns for every list of separators that is not
    empty, and gives the chunks of the text. *)
Lemma _split_text_chunked separators :
  separators <> [] ->
  forall text, exists out,
    _split_text separators text = Ok out /\ Chunked separators text out.
Proof.
  induction separators as [|_s rest IH]; [done|]. intros _ text.
  rewrite _split_text_cons.
  destruct (split_loop_at None (Chunker.whole) text _s ltac:(done))
    as (out0 & Hout0 & Hat0).
  destruct rest as [|s' rest].
  - exists out0. split; [|by rewrite Chunked_cons].
    case_decide; [done|]. by destruct (contains _s text).
  - specialize (IH ltac:(done)).
    setoid_rewrite Chunked_cons.
    case_decide as Hs; [by exists out0|].
    destruct (contains _s text); [|apply IH].
    by apply (split_loop_at (Some (_split_text (s' :: rest))) (Chunked (s' :: rest))).
Qed.

(** The relations determine the chunks. *)
Lemma carried_over_unique d run kept1 kept2 :
  carried_over d run kept1 -> carried_over d run kept2 -> kept1 = kept2.
Proof.
  intros (S1 & F1 & M1) (S2 & F2 & M2).
  pose proof (M1 _ S2 F2) as H21. pose proof (M2 _ S1 F1) as H12.
  apply suffix_length_eq; [done|]. by apply suffix_length.
Qed.

Lemma Runs_unique run rest runs1 runs2 :
  Runs run rest runs1 -> Runs run rest runs2 -> runs1 = runs2.
Proof.
  intros H1. revert runs2.
  induction H1 as [run|run piece rest runs1 Hfit H1 IH|run piece rest kept runs1 Hfull Hk H1 IH];
    intros runs2 H2; inversion H2; subst; try done; try lia.
  - by apply IH.
  - f_equal. apply IH.
    by match goal with
       | H : Chunker.carried_over _ _ _ _ ?k |- _ =>
           rewrite (carried_over_unique _ _ _ _ Hk H)
       end.
Qed.

Lemma first_long_unique (good1 good2 : list str) long1 long2 rest1 rest2 :
  Forall (Chunker.short chunk_size) good1 -> chunk_size <= len long1 ->
  Forall (Chunker.short chunk_size) good2 -> chunk_size <= len long2 ->
  good1 ++ long1 :: rest1 = good2 ++ long2 :: rest2 ->
  good1 = good2 /\ long1 = long2 /\ rest1 = rest2.
Proof.
  revert good2. induction good1 as [|g good1 IH]; intros [|g2 good2] H1 L1 H2 L2 E;
    cbn [app] in E.
  - by injection E as -> ->.
  - injection E as -> _. apply Forall_cons in H2 as [H2 _].
    unfold Chunker.short in H2. lia.
  - injection E as -> _. apply Forall_cons in H1 as [H1 _].
    unfold Chunker.short in H1. lia.
  - injection E as -> E. apply Forall_cons in H1 as [_ H1]. apply Forall_cons in H2 as [_ H2].
    destruct (IH good2 H1 L1 H2 L2 E) as (-> & -> & ->). done.
Qed.

Lemma Level_unique (lower : str -> list str -> Prop) :
  (forall s out1 out2, lower s out1 -> lower s out2 -> out1 = out2) ->
  forall pieces chunks1 chunks2,
    Level lower pieces chunks1 -> Level lower pieces chunks2 -> chunks1 = chunks2.
Proof.
  intros Hlower pieces chunks1 chunks2 H1. revert chunks2.
  induction H1 as [pieces runs Hshort Hruns
                  |good long rest runs low more Hgood Hlong Hruns Hlow H1 IH];
    intros chunks2 H2.
  - inversion H2 as [pieces' runs' Hshort' Hruns'
                    |good' long' rest' runs' low' more' Hgood' Hlong' Hruns' Hlow' H2' E]; subst.
    + by rewrite (Runs_unique _ _ _ _ Hruns Hruns').
    + apply Forall_app in Hshort as [_ Hshort]. apply Forall_cons in Hshort as [Hshort _].
      unfold Chunker.short in Hshort. lia.
  - inversion H2 as [pieces' runs' Hshort' Hruns'
                    |good' long' rest' runs' low' more' Hgood' Hlong' Hruns' Hlow' H2' E]; subst.
    + apply Forall_app in Hshort' as [_ Hshort']. apply Forall_cons in Hshort' as [Hshort' _].
      unfold Chunker.short in Hshort'. lia.
    + destruct (first_long_unique _ _ _ _ _ _ Hgood' Hlong' Hgood Hlong E) as (-> & -> & ->).
      rewrite (Runs_unique _ _ _ _ Hruns Hruns'), (Hlower _ _ _ Hlow Hlow').
      by rewrite (IH _ H2').
Qed.

Lemma Pieces_unique text sep pieces1 pieces2 :
  Chunker.Pieces text sep pieces1 -> Chunker.Pieces text sep pieces2 -> pieces1 = pieces2.
Proof.
  intros (all1 & H1 & ->) (all2 & H2 & ->). f_equal. destruct sep as [|a sep].
  - congruence.
  - destruct H1 as (parts1 & C1 & ->), H2 as (parts2 & C2 & ->).
    by rewrite (Cut_unique _ _ _ _ C1 C2).
Qed.

Lemma At_unique (lower : str -> list str -> Prop) boundary text chunks1 chunks2 :
  (forall s out1 out2, lower s out1 -> lower s out2 -> out1 = out2) ->
  Chunker.At chunk_size chunk_overlap lower boundary text chunks1 ->
  Chunker.At chunk_size chunk_overlap lower boundary text chunks2 ->
  chunks1 = chunks2.
Proof.
  intros Hlower (pieces1 & P1 & L1) (pieces2 & P2 & L2).
  rewrite (Pieces_unique _ _ _ _ P1 P2) in L1.
  exact (Level_unique lower Hlower _ _ _ L1 L2).
Qed.

Lemma Chunked_unique boundaries : forall text chunks1 chunks2,
  Chunked boundaries text chunks1 -> Chunked boundaries text chunks2 -> chunks1 = chunks2.
Proof.
  assert (forall s (out1 out2 : list str),
             Chunker.whole s out1 -> Chunker.whole s out2 -> out1 = out2) as Hwhole.
  { unfold Chunker.whole. congruence. }
  induction boundaries as [|b rest IH]; [done|]. intros text chunks1 chunks2.
  rewrite !Chunked_cons. destruct rest as [|b' rest]; [by apply At_unique|].
  case_decide; [by apply At_unique|].
  destruct (contains b text); [by apply At_unique|apply IH].
Qed.

End SplitterProperties.


Section ShortText.
Variables (chunk_size chunk_overlap : Z).

Lemma _split_text_short separators text :
  separators <> [] -> len text < chunk_size ->
  TextSplitter._split_text chunk_size chunk_overlap separators text
  = Ok (if decide (strip text = []) then [] else [strip text]).
Proof.
  intros Hne Hlen.
  assert (forall recur _s,
             TextSplitter.split_loop chunk_size chunk_overlap recur []
               (TextSplitter._split_text_with_regex text _s) []
             = Ok (if decide (strip text = []) then [] else [strip text])) as Hloop.
  { intros recur _s. destruct (regex_split_spec text _s) as [_ Hconcat].
    rewrite split_loop_all_good.
    - cbn [app]. destruct (TextSplitter._split_text_with_regex text _s) as [|p ps] eqn:E.
      + simpl in Hconcat. subst text. done.
      + unfold TextSplitter._merge_splits.
        change 0 with (len (concat [])) at 1.
        rewrite merge_loop_fits.
        * cbn [app]. unfold TextSplitter._join_docs. rewrite join_nil, Hconcat.
          by destruct (decide (strip text = [])).
        * rewrite Hconcat. change (len (concat [])) with 0. lia.
    - apply Forall_forall. intros s Hs. apply len_elem_concat in Hs.
      rewrite Hconcat in Hs. lia. }
  revert Hloop. generalize (Ok (if decide (strip text = []) then [] else [strip text])).
  intros res Hloop.
  induction separators as [|_s rest IH]; [done|].
  rewrite _split_text_cons.
  case_decide; [apply Hloop|].
  destruct (contains _s text); [apply Hloop|].
  destruct rest as [|s' rest]; [apply Hloop|]. by apply IH.
Qed.
End ShortText.

(** Words are merged up to the chunk size; the pieces kept for the overlap
    are whole words, here none. *)
Example split_words :
  TextSplitter.split_text 10 3 [nlnl; nl; space; []] (lit "hello world foo bar baz  qux")
  = Ok [lit "hello"; lit "world foo"; lit "bar baz"; lit "qux"].
Proof. vm_compute. reflexivity. Qed.

(** A text without any separator is cut into characters, and then the
    overlap is exact: 1200 characters give chunks of 1000 and 350. *)
Example split_unbroken_text :
  TextSplitter.split_text 1000 150 [nlnl; nl; space; []] (replicate 1200 97%N)
  = Ok [replicate 1000 97%N; replicate 350 97%N].
Proof. vm_compute. reflexivity. Qed.

Lemma validate_ok cs co :
  1 <= cs -> 0 <= co -> co <= cs -> TextSplitter.validate cs co = Ok tt.
Proof.
  intros H1 H2 H3. unfold TextSplitter.validate.
  replace (cs <=? 0) with false by lia. replace (co <? 0) with false by lia.
  by replace (cs <? co) with false by lia.
Qed.

(** C5, as the code has it, for an overlap between 0 and the maximum
    chunk length (any other configuration is refused with [ValueError]): a
    text shorter than the maximum yields one chunk, the text without its
    leading and trailing whitespace, and no chunk at all when nothing but
    whitespace is in it. *)
Theorem short_text_single_stripped_chunk (chunk_size chunk_overlap : Z) (text : str) meta :
  0 <= chunk_overlap -> chunk_overlap <= chunk_size ->
  len text < chunk_size ->
  Ingest._split_docs [mkDocument text meta] chunk_size chunk_overlap
  = Ok (if decide (strip text = []) then [] else [mkDocument (strip text) meta]).
Proof.
  intros Hco0 Hco Hlen. pose proof (len_nonneg text).
  unfold Ingest._split_docs. rewrite validate_ok by lia.
  cbn [Py.bind TextSplitter.split_documents page_content metadata].
  unfold TextSplitter.split_text. rewrite _split_text_short by done.
  cbn [Py.bind]. by destruct (decide (strip text = [])).
Qed.

(** C5 as the spec states it fails: the chunk of a short text that starts
    with a space is not that text, and a text of two spaces has no chunk. *)
Lemma short_text_not_verbatim :
  len (lit " a") < 1000
  /\ Ingest._split_docs [mkDocument (lit " a") []] 1000 150 = Ok [mkDocument (lit "a") []]
  /\ Ingest._split_docs [mkDocument (lit " a") []] 1000 150 <> Ok [mkDocument (lit " a") []]
  /\ Ingest._split_docs [mkDocument (lit "  ") []] 1000 150 = Ok [].
Proof. repeat split; try (vm_compute; reflexivity). vm_compute. discriminate. Qed.

Lemma short_text_single_stripped_chunk_witness :
  0 <= 150 /\ 150 <= 1000
  /\ len (lit "Hello world. ") < 1000
  /\ Ingest._split_docs [mkDocument (lit "Hello world. ") []] 1000 150
     = Ok [mkDocument (lit "Hello world.") []].
Proof.
  split; [lia|]. split; [lia|]. split; [vm_compute; reflexivity|].
  apply (short_text_single_stripped_chunk 1000 150 (lit "Hello world. ") []);
    vm_compute; congruence.
Defined.

(** C6 as the spec states it fails: with the default sizes, two paragraphs
    of 600 characters become two chunks that have no character in common,
    let alone an overlap of 150. *)
Lemma no_overlap_between_paragraphs :
  Ingest._split_docs [mkDocument Examples.two_paragraphs []] 1000 150
  = Ok [mkDocument (replicate 600 97%N) []; mkDocument (replicate 600 98%N) []]
  /\ ~ TextSplitter.overlap_by 150 (replicate 600 97%N) (replicate 600 98%N).
Proof.
  split; [vm_compute; reflexivity|].
  intros (_ & _ & H). vm_compute in H. discriminate H.
Qed.

Section Priority.

Variables (chunk_size chunk_overlap : Z).

(** The text is split at the first separator of the list that occurs in
    it (the empty separator always does); the separators after it serve for
    the pieces that are too long. *)
Lemma first_separator_present before : forall sep after text,
  Forall (fun s => s <> [] /\ contains s text = false) before ->
  sep = [] \/ contains sep text = true ->
  TextSplitter._split_text chunk_size chunk_overlap (before ++ sep :: after) text
  = TextSplitter.split_loop chunk_size chunk_overlap
      (TextSplitter.lower_priority chunk_size chunk_overlap sep after) []
      (TextSplitter._split_text_with_regex text sep) [].
Proof.
  induction before as [|b before IH]; intros sep after text Hb Hsep.
  - cbn [app]. rewrite _split_text_cons. unfold TextSplitter.lower_priority.
    case_decide as Hs; [by subst sep|].
    destruct Hsep as [?|Hc]; [done|]. rewrite Hc. destruct sep; [done|]. by destruct after.
  - apply Forall_cons in Hb as [[Hne Hc] Hb].
    cbn [app]. rewrite _split_text_cons. rewrite decide_False by done. rewrite Hc.
    destruct (before ++ sep :: after) eqn:E; [by destruct before|].
    rewrite <- E. by apply IH.
Qed.

End Priority.

(** With a maximum of 10 and an overlap of 3 the second chunk starts with
    the last word of the first: the two words before it would exceed the
    overlap. *)
Example split_words_with_overlap :
  TextSplitter.split_text 10 3 [nlnl; nl; space; []] (lit "ab cd ef gh ij")
  = Ok [lit "ab cd ef"; lit "ef gh ij"].
Proof. vm_compute. reflexivity. Qed.

(** Chunks of these words that fit the maximum but carry nothing over are
    not the chunks of the text. *)
Example chunks_without_overlap_refused :
  ~ Chunker.Chunked 10 3 [nlnl; nl; space; []] (lit "ab cd ef gh ij")
      [lit "ab cd ef"; lit "gh ij"].
Proof.
  intros H.
  destruct (_split_text_chunked 10 3 ltac:(lia) [nlnl; nl; space; []] ltac:(done)
              (lit "ab cd ef gh ij")) as (out & Hout & Hchunked).
  vm_compute in Hout. injection Hout as <-.
  pose proof (Chunked_unique 10 3 _ _ _ _ H Hchunked) as E.
  vm_compute in E. discriminate E.
Qed.

(** A configuration that [TextSplitter.__init__] refuses. *)
Lemma split_docs_invalid_configuration docs chunk_size chunk_overlap :
  chunk_size <= 0 \/ chunk_overlap < 0 \/ chunk_size < chunk_overlap ->
  Ingest._split_docs docs chunk_size chunk_overlap = Raise ValueError.
Proof.
  intros H. unfold Ingest._split_docs, TextSplitter.validate.
  destruct (chunk_size <=? 0) eqn:E1; [done|].
  destruct (chunk_overlap <? 0) eqn:E2; [done|].
  destruct (chunk_size <? chunk_overlap) eqn:E3; [done|]. lia.
Qed.

(** C6, as the code has it, for a maximum of at least 1 and an overlap
    between 0 and the maximum (1000 and 150 by default; any other
    configuration is refused). The chunker returns, and its chunks are
    - non-empty substrings of the text of length at most the maximum;
    - the chunks of the text in the words of [Chunker.Chunked] for the
      boundaries paragraph break, line break, space and single character,
      in this order: the text is cut at the first of them that occurs in
      it, in front of every occurrence from left to right; the pieces
      shorter than the maximum are gathered into a chunk while their total
      length stays within the maximum; the chunk after a full one starts
      with the longest tail of the full one's pieces that is within the
      overlap and leaves room for the piece that did not fit, whole pieces
      only and possibly none, and this tail is what the two chunks share;
      a piece that is not shorter than the maximum is chunked by itself at
      the boundaries of lower priority; every gathered chunk loses the
      whitespace at its ends, and is left out when nothing remains;
    - the only chunks of that description. *)
Theorem chunks_fit_budget_in_priority_order (chunk_size chunk_overlap : Z) (text : str) meta :
  1 <= chunk_size -> 0 <= chunk_overlap -> chunk_overlap <= chunk_size ->
  exists chunks,
    Ingest._split_docs [mkDocument text meta] chunk_size chunk_overlap
    = Ok ((fun c => mkDocument c meta) <$> chunks)
    /\ Forall (fun c => c <> [] /\ len c <= chunk_size /\ substring c text) chunks
    /\ Chunker.Chunked chunk_size chunk_overlap [nlnl; nl; space; []] text chunks
    /\ forall chunks',
         Chunker.Chunked chunk_size chunk_overlap [nlnl; nl; space; []] text chunks' ->
         chunks' = chunks.
Proof.
  intros Hcs Hco Hle.
  destruct (_split_text_spec chunk_size chunk_overlap Hco Hcs [nlnl; nl; space; []]
              ltac:(done) text) as (chunks & Hchunks & Hall).
  destruct (_split_text_chunked chunk_size chunk_overlap Hco [nlnl; nl; space; []]
              ltac:(done) text) as (chunks0 & Hchunks0 & Hchunked).
  assert (chunks0 = chunks) as -> by congruence.
  exists chunks. split; [|split; [exact Hall|split; [exact Hchunked|]]].
  - unfold Ingest._split_docs. rewrite validate_ok by lia.
    cbn [Py.bind TextSplitter.split_documents page_content metadata].
    unfold TextSplitter.split_text. rewrite Hchunks.
    cbn [Py.bind]. by rewrite app_nil_r.
  - intros chunks' H. exact (Chunked_unique chunk_size chunk_overlap _ _ _ _ H Hchunked).
Qed.

Lemma chunks_fit_budget_in_priority_order_witness :
  1 <= 1000 /\ 0 <= 150 /\ 150 <= 1000
  /\ exists chunks,
       Ingest._split_docs [mkDocument Examples.two_paragraphs []] 1000 150
       = Ok ((fun c => mkDocument c []) <$> chunks)
       /\ Forall (fun c => c <> [] /\ len c <= 1000
                          /\ substring c Examples.two_paragraphs) chunks
       /\ Chunker.Chunked 1000 150 [nlnl; nl; space; []] Examples.two_paragraphs chunks
       /\ forall chunks',
            Chunker.Chunked 1000 150 [nlnl; nl; space; []] Examples.two_paragraphs chunks' ->
            chunks' = chunks.
Proof.
  repeat (split; [lia|]).
  apply (chunks_fit_budget_in_priority_order 1000 150 Examples.two_paragraphs []); lia.
Defined.

(** * Further properties of the code *)

(** ** Loading and ingesting *)

Section IngestOutcomes.

Context {float : Type} {F32 : Float32 float}.
Variable ldr : str -> result (list Document).
Variable emb : str -> str -> Embeddings float.
Implicit Types fs : gmap (list str) (FS.entry float).

(** X1: when the loader fails on a file and has read every file before it
    in the batch, [_load_pdfs] raises the loader's exception for that file;
    the files after it are not looked at. *)
Theorem load_pdfs_first_failure before p after e :
  Forall (fun q => exists ds, ldr q = Ok ds) before -> ldr p = Raise e ->
  Ingest._load_pdfs ldr (before ++ p :: after) = Raise e.
Proof.
  intros Hb Hp. induction Hb as [|q before [ds Hq] _ IH]; simpl.
  - by rewrite Hp.
  - rewrite Hq. simpl. by rewrite IH.
Qed.

(** X2: [_load_pdfs] returns exactly when the loader reads every file, and
    then it returns the pages of the files in the order of the paths. *)
Theorem load_pdfs_in_path_order paths raw :
  Ingest._load_pdfs ldr paths = Ok raw <->
  exists pages, Forall2 (fun p ds => ldr p = Ok ds) paths pages /\ raw = concat pages.
Proof.
  revert raw. induction paths as [|p paths IH]; intros raw; simpl.
  - split.
    + intros [= <-]. exists []. by split; [constructor|].
    + intros (pages & H & ->). by inversion H.
  - split.
    + destruct (ldr p) as [ds|e] eqn:E; [|done]. simpl.
      destruct (Ingest._load_pdfs ldr paths) as [rest|e] eqn:E'; [|done]. simpl.
      intros [= <-]. destruct (proj1 (IH rest) eq_refl) as (pages & H & ->).
      exists (ds :: pages). split; [by constructor|done].
    + intros (pages & H & ->). inversion H as [|? ds ? pages' Hp Hrest]; subst.
      rewrite Hp. simpl. rewrite (proj2 (IH (concat pages'))); [done|]. eauto.
Qed.

Lemma mkdir_inv fs fs' :
  FS.mkdir fs = (Ok tt, fs') ->
  fs' !! [] = Some FS.Dir /\ forall q, q <> [] -> fs' !! q = fs !! q.
Proof.
  unfold FS.mkdir. destruct (fs !! []) as [[|c]|] eqn:E; intros [= <-]; try done.
  split; [by rewrite lookup_insert_eq|]. intros q Hq. by rewrite lookup_insert_ne.
Qed.

Lemma mkdir_again fs : fs !! [] = Some FS.Dir -> FS.mkdir fs = (Ok tt, fs).
Proof. intros H. unfold FS.mkdir. by rewrite H. Qed.

Lemma save_local_ok (vs : FAISS.t float) fs :
  fs !! [] = Some FS.Dir ->
  fs !! FAISS.index_faiss <> Some FS.Dir -> fs !! FAISS.index_pkl <> Some FS.Dir ->
  FAISS.save_local vs fs = (Ok tt, FAISS.saved vs fs).
Proof.
  destruct index_names_distinct as (Hfp & Hf & Hp). intros Hroot H1 H2.
  unfold FAISS.save_local, io_bind. rewrite (mkdir_again fs Hroot).
  unfold FS.write_file, FAISS.saved.
  destruct (fs !! FAISS.index_faiss) as [[|c]|] eqn:E1; try done;
    rewrite lookup_insert_ne by done;
    by destruct (fs !! FAISS.index_pkl) as [[|c']|] eqn:E2.
Qed.

Lemma saved_lookup_ne (vs : FAISS.t float) fs q :
  q <> FAISS.index_faiss -> q <> FAISS.index_pkl -> FAISS.saved vs fs !! q = fs !! q.
Proof. intros. unfold FAISS.saved. by rewrite !lookup_insert_ne. Qed.

Lemma load_local_files vs0 fs :
  FAISS.load_local fs = Ok vs0 ->
  fs !! FAISS.index_faiss
    = Some (FS.File (FS.FaissIndex (FAISS.index_d vs0) (FAISS.index_vectors vs0)))
  /\ fs !! FAISS.index_pkl = Some (FS.File (FS.Pickle (FAISS.docstore vs0))).
Proof.
  unfold FAISS.load_local.
  destruct (fs !! FAISS.index_faiss) as [[|[d v|?|?]]|]; try done.
  destruct (fs !! FAISS.index_pkl) as [[|[?|docs|?]]|]; try done.
  by intros [= <-].
Qed.

Lemma load_local_ext fs fs' :
  fs' !! FAISS.index_faiss = fs !! FAISS.index_faiss ->
  fs' !! FAISS.index_pkl = fs !! FAISS.index_pkl ->
  FAISS.load_local fs' = FAISS.load_local fs.
Proof. intros H1 H2. unfold FAISS.load_local. by rewrite H1, H2. Qed.

(** X3: ingestion is all or nothing. Whatever makes [add_pdfs_to_index]
    raise (the directory, the loader, the splitter, the stored index, the
    embedding service or the vector store), every file below the index
    directory is then as it was before the call. The one exclusion is a
    directory in the place of [index.pkl] while [index.faiss] is missing. *)
Theorem failed_ingestion_writes_nothing paths key (w : World float) e :
  (files w !! FAISS.index_faiss = None -> files w !! FAISS.index_pkl <> Some FS.Dir) ->
  (Ingest.add_pdfs_to_index ldr emb paths key w).1 = Raise e ->
  forall q, q <> [] ->
    files (Ingest.add_pdfs_to_index ldr emb paths key w).2 !! q = files w !! q.
Proof.
  destruct index_names_distinct as (Hfp & Hf & Hp).
  intros Hpkl. run_ingest.
  pose proof (mkdir_lookup_ne (files w)) as Hmk. revert Hmk.
  destruct (FS.mkdir (files w)) as [[[]|e0] fs'] eqn:E; simpl; intros Hmk;
    [|intros _ q Hq; by apply Hmk].
  apply mkdir_inv in E as [Hroot Hsame].
  destruct (Ingest._load_pdfs ldr paths) as [[|d raw]|e1]; simpl; [done| |by intros _].
  destruct (Ingest._split_docs (d :: raw) 1000 150) as [docs|e2]; simpl; [|by intros _].
  destruct (FS.exists_ FAISS.index_faiss fs') eqn:Ex; simpl.
  - destruct (FAISS.load_local fs') as [vs|e3] eqn:El; simpl; [|by intros _].
    unfold FAISS.add_documents, io_bind, call_embed_documents, io_lift. simpl.
    destruct (embed_documents _ _) as [embs|e4]; simpl; [|by intros _].
    destruct (FAISS.add vs docs embs) as [vs'|e5]; simpl; [|by intros _].
    apply load_local_files in El as [El1 El2].
    unfold on_files. simpl. rewrite save_local_ok; [done|done|by rewrite El1|by rewrite El2].
  - unfold FAISS.from_documents, io_bind, call_embed_documents, io_lift. simpl.
    destruct (embed_documents _ _) as [[|e0 embs]|e4]; simpl; [by intros _| |by intros _].
    destruct (FAISS.add _ docs (e0 :: embs)) as [vs'|e5]; simpl; [|by intros _].
    apply bool_decide_eq_false in Ex.
    assert (fs' !! FAISS.index_faiss = None) as Hnone.
    { destruct (fs' !! FAISS.index_faiss) eqn:E'; [|done]. destruct Ex. eauto. }
    unfold on_files. simpl.
    rewrite save_local_ok; [done|done|by rewrite Hnone|].
    rewrite Hsame by done. apply Hpkl. by rewrite <- Hsame.
Qed.

(** X4: a call of [add_pdfs_to_index] sends at most one batch to the
    embedding service, and that batch is the texts of the new chunks in
    order: chunks that are in the index already are never embedded again. *)
Theorem ingestion_embeds_one_batch paths key (w : World float) :
  let r := Ingest.add_pdfs_to_index ldr emb paths key w in
  embed_calls r.2 = embed_calls w
  \/ exists raw docs,
       Ingest._load_pdfs ldr paths = Ok raw
       /\ Ingest._split_docs raw 1000 150 = Ok docs
       /\ embed_calls r.2 = embed_calls w ++ [page_content <$> docs].
Proof.
  run_ingest.
  destruct (FS.mkdir (files w)) as [[[]|e0] fs'] eqn:E; simpl; [|by left].
  destruct (Ingest._load_pdfs ldr paths) as [[|d raw]|e1] eqn:El; simpl; [by left| |by left].
  destruct (Ingest._split_docs (d :: raw) 1000 150) as [docs|e2] eqn:Es; simpl; [|by left].
  destruct (FS.exists_ FAISS.index_faiss fs') eqn:Ex; simpl.
  - destruct (FAISS.load_local fs') as [vs|e3]; simpl; [|by left].
    right. exists (d :: raw), docs. split; [done|]. split; [done|].
    unfold FAISS.add_documents, io_bind, call_embed_documents, io_lift. simpl.
    destruct (embed_documents _ _) as [embs|e4]; simpl; [|done].
    destruct (FAISS.add vs docs embs) as [vs'|e5]; simpl; [|done].
    unfold on_files. simpl. by destruct (FAISS.save_local vs' fs').
  - right. exists (d :: raw), docs. split; [done|]. split; [done|].
    unfold FAISS.from_documents, io_bind, call_embed_documents, io_lift. simpl.
    destruct (embed_documents _ _) as [[|e0 embs]|e4]; simpl; [done| |done].
    destruct (FAISS.add _ docs (e0 :: embs)) as [vs'|e5]; simpl; [|done].
    unfold on_files. simpl. by destruct (FAISS.save_local vs' fs').
Qed.

Lemma write_file_keeps fs p c q :
  is_Some (fs !! q) -> is_Some ((FS.write_file p c fs).2 !! q).
Proof.
  intros H. unfold FS.write_file.
  destruct (fs !! p) as [[|c']|] eqn:E; simpl; try done;
    (destruct (decide (q = p)) as [->|];
     [rewrite lookup_insert_eq; eauto|by rewrite lookup_insert_ne]).
Qed.

Lemma mkdir_keeps fs q : is_Some (fs !! q) -> is_Some ((FS.mkdir fs).2 !! q).
Proof.
  intros H. unfold FS.mkdir. destruct (fs !! []) as [[|c]|] eqn:E; simpl; try done.
  destruct (decide (q = [])) as [->|];
    [rewrite lookup_insert_eq; eauto|by rewrite lookup_insert_ne].
Qed.

Lemma save_local_keeps (vs : FAISS.t float) fs q :
  is_Some (fs !! q) -> is_Some ((FAISS.save_local vs fs).2 !! q).
Proof.
  intros H. unfold FAISS.save_local, io_bind.
  pose proof (mkdir_keeps fs q H) as H1. revert H1.
  destruct (FS.mkdir fs) as [[[]|e] fs1]; simpl; [|done]. intros H1.
  pose proof (write_file_keeps fs1 FAISS.index_faiss
                (FS.FaissIndex (FAISS.index_d vs) (FAISS.index_vectors vs)) q H1) as H2.
  revert H2.
  destruct (FS.write_file FAISS.index_faiss _ fs1) as [[[]|e] fs2]; simpl; [|done].
  intros H2. by apply write_file_keeps.
Qed.

Lemma add_pdfs_to_index_keeps paths key (w : World float) q :
  is_Some (files w !! q) ->
  is_Some (files (Ingest.add_pdfs_to_index ldr emb paths key w).2 !! q).
Proof.
  intros H. run_ingest.
  pose proof (mkdir_keeps (files w) q H) as H1. revert H1.
  destruct (FS.mkdir (files w)) as [[[]|e0] fs'] eqn:E; simpl; [|done]. intros H1.
  destruct (Ingest._load_pdfs ldr paths) as [[|d raw]|e1]; simpl; [done| |done].
  destruct (Ingest._split_docs (d :: raw) 1000 150) as [docs|e2]; simpl; [|done].
  destruct (FS.exists_ FAISS.index_faiss fs') eqn:Ex; simpl.
  - destruct (FAISS.load_local fs') as [vs|e3] eqn:El; simpl; [|done].
    unfold FAISS.add_documents, io_bind, call_embed_documents, io_lift. simpl.
    destruct (embed_documents _ _) as [embs|e4]; simpl; [|done].
    destruct (FAISS.add vs docs embs) as [vs'|e5]; simpl; [|done].
    unfold on_files. simpl.
    pose proof (save_local_keeps vs' fs' q H1) as H2. revert H2.
    by destruct (FAISS.save_local vs' fs') as [[[]|?] ?].
  - unfold FAISS.from_documents, io_bind, call_embed_documents, io_lift. simpl.
    destruct (embed_documents _ _) as [[|e0 embs]|e4]; simpl; [done| |done].
    destruct (FAISS.add _ docs (e0 :: embs)) as [vs'|e5]; simpl; [|done].
    unfold on_files. simpl.
    pose proof (save_local_keeps vs' fs' q H1) as H2. revert H2.
    by destruct (FAISS.save_local vs' fs') as [[[]|?] ?].
Qed.

(** X5: [add_pdfs_to_index] never removes anything: a file or directory
    that is in the index directory before the call is there after it,
    whether the call returns or raises. *)
Theorem ingestion_deletes_nothing paths key (w : World float) q e :
  files w !! q = Some e ->
  exists e', files (Ingest.add_pdfs_to_index ldr emb paths key w).2 !! q = Some e'.
Proof.
  intros H. apply (add_pdfs_to_index_keeps paths key w q). by rewrite H.
Qed.

Lemma add_ok (vs : FAISS.t float) docs embs :
  embs <> [] -> length docs = length embs ->
  Forall (fun v => length v = FAISS.index_d vs) embs ->
  FAISS.add vs docs embs
  = Ok (FAISS.mk (FAISS.index_d vs)
          (FAISS.index_vectors vs ++ (fmap (M:=list) float32 <$> embs))
          (FAISS.docstore vs ++ docs)).
Proof.
  intros Hne Hlen Hd. unfold FAISS.add.
  rewrite (proj2 (Nat.eqb_eq _ _) Hlen). simpl.
  destruct embs as [|e0 embs]; [done|].
  pose proof (Forall_inv Hd) as H0.
  assert (forallb (fun v => (length v =? length e0)%nat) (e0 :: embs) = true) as ->.
  { apply forallb_forall. intros v Hv%list_elem_of_In.
    rewrite Forall_forall in Hd. apply Nat.eqb_eq. rewrite (Hd v Hv). done. }
  simpl. by rewrite (proj2 (Nat.eqb_eq _ _) H0).
Qed.

(** The run of [add_pdfs_to_index] into a directory without
    [index.faiss], when every step succeeds. *)
Lemma first_ingestion_run paths key (w : World float) raw docs e0 embs :
  (forall c, files w !! [] <> Some (FS.File c)) ->
  files w !! FAISS.index_faiss = None ->
  files w !! FAISS.index_pkl <> Some FS.Dir ->
  Ingest._load_pdfs ldr paths = Ok raw -> raw <> [] ->
  Ingest._split_docs raw 1000 150 = Ok docs ->
  embed_documents (Ingest._get_embeddings emb key) (page_content <$> docs) = Ok (e0 :: embs) ->
  length docs = length (e0 :: embs) ->
  Forall (fun v => length v = length e0) embs ->
  Ingest.add_pdfs_to_index ldr emb paths key w
  = (Ok tt,
     mkWorld
       (FAISS.saved (FAISS.mk (length e0) (fmap (M:=list) float32 <$> e0 :: embs) docs)
          (FS.mkdir (files w)).2)
       (embed_calls w ++ [page_content <$> docs])).
Proof.
  destruct index_names_distinct as (Hfp & Hf & Hp).
  intros Hroot Hnone Hpkl Hload Hne Hsplit Hemb Hlen Hdim.
  destruct (mkdir_ok (files w) Hroot) as [Hmk _].
  rewrite (add_pdfs_to_index_unfold ldr emb paths key w raw docs Hload Hne Hsplit Hmk).
  cbv zeta. simpl files.
  destruct (FS.mkdir (files w)) as [[[]|?] fs'] eqn:E; [|done].
  apply mkdir_inv in E as [Hr Hsame]. simpl.
  assert (FS.exists_ FAISS.index_faiss fs' = false) as ->.
  { apply bool_decide_eq_false. rewrite Hsame, Hnone by done. by intros [? ?]. }
  unfold FAISS.from_documents, io_bind, call_embed_documents, io_lift. simpl.
  rewrite Hemb.
  rewrite add_ok; [|done|done|by constructor]. simpl.
  unfold on_files. simpl.
  by rewrite save_local_ok; [|done|by rewrite Hsame, Hnone|by rewrite Hsame].
Qed.

(** X6: the first ingestion. Into a directory without [index.faiss], a
    call whose loader, splitter and embedding service succeed returns, and
    the retriever loaded afterwards holds exactly the new chunks, in order,
    each with its vector converted to single precision, in an index of the
    dimension of the first vector; no other file of the directory is
    touched. *)
Theorem first_ingestion_creates_index paths key (w : World float) raw docs e0 embs k :
  (forall c, files w !! [] <> Some (FS.File c)) ->
  files w !! FAISS.index_faiss = None ->
  files w !! FAISS.index_pkl <> Some FS.Dir ->
  Ingest._load_pdfs ldr paths = Ok raw -> raw <> [] ->
  Ingest._split_docs raw 1000 150 = Ok docs ->
  embed_documents (Ingest._get_embeddings emb key) (page_content <$> docs) = Ok (e0 :: embs) ->
  length docs = length (e0 :: embs) ->
  Forall (fun v => length v = length e0) embs ->
  let vs := FAISS.mk (length e0) (fmap (M:=list) float32 <$> e0 :: embs) docs in
  let r := Ingest.add_pdfs_to_index ldr emb paths key w in
  r.1 = Ok tt
  /\ Rag.load_retriever emb key k (files r.2)
     = Ok (Rag.mkRetriever vs (Rag._get_embeddings emb key) k)
  /\ (forall q, q <> [] -> q <> FAISS.index_faiss -> q <> FAISS.index_pkl ->
        files r.2 !! q = files w !! q).
Proof.
  intros Hroot Hnone Hpkl Hload Hne Hsplit Hemb Hlen Hdim vs r. subst r.
  rewrite (first_ingestion_run paths key w raw docs e0 embs) by done.
  cbn [fst snd files]. split; [done|]. split.
  { unfold Rag.load_retriever. by rewrite load_local_saved. }
  intros q H1 H2 H3. rewrite saved_lookup_ne by done. by apply mkdir_lookup_ne.
Qed.

(** X7: a later ingestion only appends. Into a directory whose index
    loads, a call whose steps succeed with vectors of the index's
    dimension returns, and the retriever loaded afterwards holds the old
    rows unchanged, followed by the new chunks in order, each with its
    vector converted to single precision; only the new chunks were sent to
    the embedding service. *)
Theorem later_ingestion_appends paths key (w : World float) vs0 raw docs embs k :
  FAISS.load_local (files w) = Ok vs0 ->
  (forall c, files w !! [] <> Some (FS.File c)) ->
  Ingest._load_pdfs ldr paths = Ok raw -> raw <> [] ->
  Ingest._split_docs raw 1000 150 = Ok docs ->
  embed_documents (Ingest._get_embeddings emb key) (page_content <$> docs) = Ok embs ->
  embs <> [] -> length docs = length embs ->
  Forall (fun v => length v = FAISS.index_d vs0) embs ->
  let vs := FAISS.mk (FAISS.index_d vs0)
              (FAISS.index_vectors vs0 ++ (fmap (M:=list) float32 <$> embs))
              (FAISS.docstore vs0 ++ docs) in
  let r := Ingest.add_pdfs_to_index ldr emb paths key w in
  r.1 = Ok tt
  /\ Rag.load_retriever emb key k (files r.2)
     = Ok (Rag.mkRetriever vs (Rag._get_embeddings emb key) k)
  /\ embed_calls r.2 = embed_calls w ++ [page_content <$> docs]
  /\ (forall q, q <> [] -> q <> FAISS.index_faiss -> q <> FAISS.index_pkl ->
        files r.2 !! q = files w !! q).
Proof.
  destruct index_names_distinct as (Hfp & Hf & Hp).
  intros Hvs0 Hroot Hload Hne Hsplit Hemb Hembs Hlen Hdim vs r. subst r.
  destruct (mkdir_ok (files w) Hroot) as [Hmk _].
  rewrite (add_pdfs_to_index_unfold ldr emb paths key w raw docs Hload Hne Hsplit Hmk).
  cbv zeta. simpl files.
  destruct (FS.mkdir (files w)) as [[[]|?] fs'] eqn:E; [|done].
  apply mkdir_inv in E as [Hr Hsame]. simpl.
  assert (FAISS.load_local fs' = Ok vs0) as Hvs'.
  { rewrite <- Hvs0. apply load_local_ext; by apply Hsame. }
  destruct (load_local_files _ _ Hvs') as [H1 H2].
  assert (FS.exists_ FAISS.index_faiss fs' = true) as ->.
  { apply bool_decide_eq_true. rewrite H1. eauto. }
  unfold io_bind at 1. unfold io_lift at 1. rewrite Hvs'.
  unfold FAISS.add_documents, io_bind, call_embed_documents, io_lift. simpl.
  rewrite Hemb. rewrite add_ok by done. simpl.
  unfold on_files. simpl.
  rewrite save_local_ok; [|done|by rewrite H1|by rewrite H2]. simpl.
  split; [done|]. split.
  { unfold Rag.load_retriever. by rewrite load_local_saved. }
  split; [done|]. intros q Hq1 Hq2 Hq3. rewrite saved_lookup_ne by done. by apply Hsame.
Qed.

End IngestOutcomes.

Lemma load_pdfs_first_failure_witness :
  Ingest._load_pdfs Examples.loader Examples.batch = Raise (External 1).
Proof.
  apply (load_pdfs_first_failure Examples.loader [lit "a.pdf"] (lit "bad.pdf")
           [lit "c.pdf"] (External 1)).
  - constructor; [|constructor]. eexists. vm_compute. reflexivity.
  - vm_compute. reflexivity.
Defined.

Lemma failed_ingestion_writes_nothing_witness :
  (Ingest.add_pdfs_to_index Examples.loader Examples.embedder Examples.batch
     Examples.key Examples.empty_world).1 = Raise (External 1)
  /\ forall q, q <> [] ->
       files (Ingest.add_pdfs_to_index Examples.loader Examples.embedder Examples.batch
                Examples.key Examples.empty_world).2 !! q
       = files Examples.empty_world !! q.
Proof.
  split; [vm_compute; reflexivity|].
  apply (failed_ingestion_writes_nothing Examples.loader Examples.embedder Examples.batch
           Examples.key Examples.empty_world (External 1)).
  - intros _ H. vm_compute in H. discriminate.
  - vm_compute. reflexivity.
Defined.

Lemma ingestion_deletes_nothing_witness :
  exists e',
    files (Ingest.add_pdfs_to_index Examples.loader Examples.embedder [lit "a.pdf"]
             Examples.key Examples.world_a).2 !! FAISS.index_faiss = Some e'.
Proof.
  apply (ingestion_deletes_nothing Examples.loader Examples.embedder [lit "a.pdf"]
           Examples.key Examples.world_a FAISS.index_faiss
           (FS.File (FS.FaissIndex 2 [[12; 1]]))).
  vm_compute. reflexivity.
Defined.

Lemma first_ingestion_creates_index_witness :
  (Ingest.add_pdfs_to_index Examples.loader Scenarios.wide_embedder [lit "a.pdf"]
     Examples.key Examples.empty_world).1 = Ok tt
  /\ Rag.load_retriever Scenarios.wide_embedder Examples.key 4
       (files (Ingest.add_pdfs_to_index Examples.loader Scenarios.wide_embedder
                 [lit "a.pdf"] Examples.key Examples.empty_world).2)
     = Ok (Rag.mkRetriever (FAISS.mk 2 [[16777216; 12]] [Examples.chunk_a])
             (Rag._get_embeddings Scenarios.wide_embedder Examples.key) 4)
  /\ (forall q, q <> [] -> q <> FAISS.index_faiss -> q <> FAISS.index_pkl ->
        files (Ingest.add_pdfs_to_index Examples.loader Scenarios.wide_embedder
                 [lit "a.pdf"] Examples.key Examples.empty_world).2 !! q
        = files Examples.empty_world !! q).
Proof.
  refine (first_ingestion_creates_index Examples.loader Scenarios.wide_embedder
            [lit "a.pdf"] Examples.key Examples.empty_world [Examples.chunk_a]
            [Examples.chunk_a] [16777217; 12] [] 4 _ _ _ _ _ _ _ _ _).
  - intros c H. vm_compute in H. discriminate.
  - vm_compute. reflexivity.
  - intros H. vm_compute in H. discriminate.
  - vm_compute. reflexivity.
  - discriminate.
  - vm_compute. reflexivity.
  - vm_compute. reflexivity.
  - reflexivity.
  - constructor.
Defined.

Lemma later_ingestion_appends_witness :
  (Ingest.add_pdfs_to_index Examples.loader Scenarios.wide_embedder [lit "a.pdf"]
     Examples.key Examples.world_a).1 = Ok tt
  /\ Rag.load_retriever Scenarios.wide_embedder Examples.key 4
       (files (Ingest.add_pdfs_to_index Examples.loader Scenarios.wide_embedder
                 [lit "a.pdf"] Examples.key Examples.world_a).2)
     = Ok (Rag.mkRetriever
             (FAISS.mk 2 [[12; 1]; [16777216; 12]] [Examples.chunk_a; Examples.chunk_a])
             (Rag._get_embeddings Scenarios.wide_embedder Examples.key) 4)
  /\ embed_calls (Ingest.add_pdfs_to_index Examples.loader Scenarios.wide_embedder
                    [lit "a.pdf"] Examples.key Examples.world_a).2
     = embed_calls Examples.world_a ++ [page_content <$> [Examples.chunk_a]]
  /\ (forall q, q <> [] -> q <> FAISS.index_faiss -> q <> FAISS.index_pkl ->
        files (Ingest.add_pdfs_to_index Examples.loader Scenarios.wide_embedder
                 [lit "a.pdf"] Examples.key Examples.world_a).2 !! q
        = files Examples.world_a !! q).
Proof.
  refine (later_ingestion_appends Examples.loader Scenarios.wide_embedder [lit "a.pdf"]
            Examples.key Examples.world_a (FAISS.mk 2 [[12; 1]] [Examples.chunk_a])
            [Examples.chunk_a] [Examples.chunk_a] [[16777217; 12]] 4 _ _ _ _ _ _ _ _ _).
  - vm_compute. reflexivity.
  - intros c H. vm_compute in H. discriminate.
  - vm_compute. reflexivity.
  - discriminate.
  - vm_compute. reflexivity.
  - vm_compute. reflexivity.
  - discriminate.
  - reflexivity.
  - repeat constructor.
Defined.

(** ** What the chunks keep of the pages *)

Section VisibleText.
Implicit Types s t : str.

Abbreviation visible := PyText.visible.

Lemma visible_app s t : visible (s ++ t) = visible s ++ visible t.
Proof. apply filter_app. Qed.

Lemma visible_lstrip s : visible (lstrip s) = visible s.
Proof.
  induction s as [|c s IH]; [done|]. cbn [lstrip].
  destruct (isspace c) eqn:E; [|done].
  rewrite IH. unfold PyText.visible. rewrite filter_cons.
  by rewrite decide_False by congruence.
Qed.

Lemma visible_strip s : visible (strip s) = visible s.
Proof.
  unfold strip, rstrip, PyText.visible.
  rewrite filter_reverse. fold (visible (lstrip (reverse (lstrip s)))).
  rewrite visible_lstrip. unfold PyText.visible.
  rewrite filter_reverse, reverse_involutive. apply visible_lstrip.
Qed.

Lemma visible_join_docs docs :
  visible (concat (TextSplitter.opt_to_list (TextSplitter._join_docs docs [])))
  = visible (concat docs).
Proof.
  unfold TextSplitter._join_docs. rewrite join_nil.
  case_decide as H; simpl.
  - by rewrite <- (visible_strip (concat docs)), H.
  - by rewrite app_nil_r, visible_strip.
Qed.

Lemma visible_concat_app (l1 l2 : list str) :
  visible (concat (l1 ++ l2)) = visible (concat l1) ++ visible (concat l2).
Proof. rewrite <- visible_app. f_equal. apply concat_app. Qed.

Lemma visible_concat_snoc (l : list str) s :
  visible (concat (l ++ [s])) = visible (concat l) ++ visible s.
Proof. rewrite visible_concat_app. cbn [concat]. by rewrite app_nil_r. Qed.

Lemma visible_concat_cons (l : list str) s :
  visible (concat (s :: l)) = visible s ++ visible (concat l).
Proof. cbn [concat]. apply visible_app. Qed.

End VisibleText.

Section ChunksKeepText.
Variables (chunk_size chunk_overlap : Z).

Lemma pop_while_suffix sl l : forall cd total total' cd',
  TextSplitter.pop_while chunk_size chunk_overlap sl l total cd = Ok (total', cd') ->
  cd' `suffix_of` cd.
Proof.
  induction cd as [|c cd IH]; intros total total' cd'; cbn [TextSplitter.pop_while].
  - match goal with |- context [if ?b then _ else _] => destruct b end; [done|].
    by intros [= _ <-].
  - match goal with |- context [if ?b then _ else _] => destruct b end.
    + intros H%IH. by apply suffix_cons_r.
    + by intros [= _ <-].
Qed.

(** Every piece given to the merge loop is in a document that it emits. *)
Lemma merge_loop_keeps splits : forall cd total out,
  TextSplitter.merge_loop chunk_size chunk_overlap [] splits cd total = Ok out ->
  PyText.visible (concat cd ++ concat splits) `sublist_of` PyText.visible (concat out).
Proof.
  induction splits as [|d splits IH]; intros cd total out.
  - cbn [TextSplitter.merge_loop]. intros [= <-].
    by rewrite visible_join_docs, app_nil_r.
  - cbn [TextSplitter.merge_loop].
    match goal with |- context [Py.bind (if ?b then _ else _)] => destruct b end.
    + destruct (TextSplitter.pop_while _ _ _ _ _ _) as [[t cd']|e] eqn:Ep; [|done].
      apply pop_while_suffix in Ep as [pre ->].
      cbn [Py.bind fst snd].
      destruct (TextSplitter.merge_loop _ _ _ _ _ _) as [rest|e] eqn:Er; [|done].
      cbn [Py.bind]. intros [= <-]. apply IH in Er.
      rewrite visible_app, (visible_concat_app (TextSplitter.opt_to_list _)).
      rewrite visible_join_docs, visible_concat_cons.
      apply sublist_app; [done|].
      etrans; [|exact Er].
      rewrite visible_app, visible_concat_snoc, <- app_assoc.
      by apply sublist_inserts_l.
    + cbn [Py.bind fst snd app].
      destruct (TextSplitter.merge_loop _ _ _ _ _ _) as [rest|e] eqn:Er; [|done].
      cbn [Py.bind]. intros [= <-]. apply IH in Er.
      etrans; [|exact Er].
      by rewrite !visible_app, visible_concat_snoc, visible_concat_cons, <- app_assoc.
Qed.

Lemma split_loop_keeps recur splits : forall good out,
  match recur with
  | None => True
  | Some f =>
      forall s chunks, f s = Ok chunks ->
        PyText.visible s `sublist_of` PyText.visible (concat chunks)
  end ->
  TextSplitter.split_loop chunk_size chunk_overlap recur [] splits good = Ok out ->
  PyText.visible (concat good ++ concat splits) `sublist_of` PyText.visible (concat out).
Proof.
  assert (forall good merged,
            match good with
            | [] => Ok []
            | _ :: _ => TextSplitter._merge_splits chunk_size chunk_overlap good []
            end = Ok merged ->
            PyText.visible (concat good) `sublist_of` PyText.visible (concat merged))
    as Hmerge.
  { intros [|g good] merged.
    - by intros [= <-].
    - intros H%merge_loop_keeps. revert H. by cbn [concat app]. }
  induction splits as [|s splits IH]; intros good out Hrec.
  - cbn [TextSplitter.split_loop]. intros H%Hmerge. by rewrite visible_app, app_nil_r.
  - cbn [TextSplitter.split_loop]. destruct (len s <? chunk_size).
    + intros H%IH; [|done]. revert H.
      by rewrite !visible_app, visible_concat_snoc, visible_concat_cons, <- app_assoc.
    + destruct (match good with [] => _ | _ => _ end) as [merged|e] eqn:Em; [|done].
      apply Hmerge in Em. cbn [Py.bind].
      destruct recur as [f|].
      all: match goal with |- context [Py.bind ?m _] => destruct m as [other|e] eqn:Eo end;
        [|done].
      all: cbn [Py.bind];
        destruct (TextSplitter.split_loop _ _ _ _ _ _) as [rest|e'] eqn:Er; [|done];
        cbn [Py.bind]; intros [= <-]; apply IH in Er; [|done];
        rewrite visible_app in Er;
        change (PyText.visible (concat [])) with (@nil char) in Er;
        rewrite app_nil_l in Er;
        rewrite visible_app, visible_concat_cons, !visible_concat_app;
        (apply sublist_app; [done|]); (apply sublist_app; [|done]).
      * by apply Hrec.
      * injection Eo as <-. cbn [concat]. by rewrite app_nil_r.
Qed.

Lemma _split_text_keeps separators : forall text out,
  TextSplitter._split_text chunk_size chunk_overlap separators text = Ok out ->
  PyText.visible text `sublist_of` PyText.visible (concat out).
Proof.
  induction separators as [|_s rest IH]; intros text out; [done|].
  rewrite _split_text_cons.
  destruct (regex_split_spec text _s) as [_ Hconcat].
  assert (forall recur,
            match recur with
            | None => True
            | Some f =>
                forall s chunks, f s = Ok chunks ->
                  PyText.visible s `sublist_of` PyText.visible (concat chunks)
            end ->
            TextSplitter.split_loop chunk_size chunk_overlap recur []
              (TextSplitter._split_text_with_regex text _s) [] = Ok out ->
            PyText.visible text `sublist_of` PyText.visible (concat out)) as Hloop.
  { intros recur Hrec H%split_loop_keeps; [|done]. by rewrite Hconcat in H. }
  case_decide; [by apply Hloop|].
  destruct (contains _s text).
  - apply Hloop. by destruct rest.
  - destruct rest as [|s' rest]; [by apply Hloop|]. apply IH.
Qed.

End ChunksKeepText.

Section ChunksWithoutOverlap.
Variable chunk_size : Z.

Lemma len_0_nil (s : str) : len s <= 0 -> s = [].
Proof. destruct s; [done|]. unfold len. simpl. lia. Qed.

(** With no overlap nothing is carried over: the documents of the merge
    loop are the pieces, each once. *)
Lemma merge_loop_exact splits : forall cd out,
  TextSplitter.merge_loop chunk_size 0 [] splits cd (len (concat cd)) = Ok out ->
  PyText.visible (concat out) = PyText.visible (concat cd ++ concat splits).
Proof.
  induction splits as [|d splits IH]; intros cd out.
  - cbn [TextSplitter.merge_loop]. intros [= <-].
    by rewrite visible_join_docs, app_nil_r.
  - cbn [TextSplitter.merge_loop]. change (len []) with 0.
    match goal with |- context [Py.bind (if ?b then _ else _)] => destruct b end.
    + destruct (pop_while_spec chunk_size 0 ltac:(done) (len d) cd)
        as (cd' & -> & _ & Hov & _).
      apply len_0_nil in Hov.
      cbn [Py.bind fst snd].
      replace (len (concat cd') + len d
               + (if (1 <? length (cd' ++ [d]))%nat then 0 else 0))
        with (len (concat (cd' ++ [d])))
        by (rewrite len_concat_app; destruct (1 <? _)%nat; lia).
      destruct (TextSplitter.merge_loop _ _ _ _ _ _) as [rest|e] eqn:Er; [|done].
      cbn [Py.bind]. intros [= <-]. apply IH in Er.
      rewrite (visible_concat_app (TextSplitter.opt_to_list _)), visible_join_docs, Er.
      rewrite !visible_app, visible_concat_snoc, visible_concat_cons, Hov. done.
    + cbn [Py.bind fst snd app].
      replace (len (concat cd) + len d
               + (if (1 <? length (cd ++ [d]))%nat then 0 else 0))
        with (len (concat (cd ++ [d])))
        by (rewrite len_concat_app; destruct (1 <? _)%nat; lia).
      destruct (TextSplitter.merge_loop _ _ _ _ _ _) as [rest|e] eqn:Er; [|done].
      cbn [Py.bind]. intros [= <-]. apply IH in Er. rewrite Er.
      by rewrite !visible_app, visible_concat_snoc, visible_concat_cons, <- app_assoc.
Qed.

Lemma split_loop_exact recur splits : forall good out,
  match recur with
  | None => True
  | Some f =>
      forall s chunks, f s = Ok chunks -> PyText.visible (concat chunks) = PyText.visible s
  end ->
  TextSplitter.split_loop chunk_size 0 recur [] splits good = Ok out ->
  PyText.visible (concat out) = PyText.visible (concat good ++ concat splits).
Proof.
  assert (forall good merged,
            match good with
            | [] => Ok []
            | _ :: _ => TextSplitter._merge_splits chunk_size 0 good []
            end = Ok merged ->
            PyText.visible (concat merged) = PyText.visible (concat good)) as Hmerge.
  { intros [|g good] merged.
    - by intros [= <-].
    - unfold TextSplitter._merge_splits. change 0 with (len (concat [])) at 2.
      intros H%merge_loop_exact. revert H. by cbn [concat app]. }
  induction splits as [|s splits IH]; intros good out Hrec.
  - cbn [TextSplitter.split_loop]. intros H%Hmerge. by rewrite visible_app, app_nil_r.
  - cbn [TextSplitter.split_loop]. destruct (len s <? chunk_size).
    + intros H%IH; [|done]. rewrite H.
      by rewrite !visible_app, visible_concat_snoc, visible_concat_cons, <- app_assoc.
    + destruct (match good with [] => _ | _ => _ end) as [merged|e] eqn:Em; [|done].
      apply Hmerge in Em. cbn [Py.bind].
      destruct recur as [f|].
      all: match goal with |- context [Py.bind ?m _] => destruct m as [other|e] eqn:Eo end;
        [|done].
      all: cbn [Py.bind];
        destruct (TextSplitter.split_loop _ _ _ _ _ _) as [rest|e'] eqn:Er; [|done];
        cbn [Py.bind]; intros [= <-]; apply IH in Er; [|done];
        rewrite visible_app in Er;
        change (PyText.visible (concat [])) with (@nil char) in Er;
        rewrite app_nil_l in Er;
        rewrite visible_app, visible_concat_cons, !visible_concat_app, Em, Er;
        f_equal; f_equal.
      * by apply Hrec.
      * injection Eo as <-. cbn [concat]. by rewrite app_nil_r.
Qed.

Lemma _split_text_exact separators : forall text out,
  TextSplitter._split_text chunk_size 0 separators text = Ok out ->
  PyText.visible (concat out) = PyText.visible text.
Proof.
  induction separators as [|_s rest IH]; intros text out; [done|].
  rewrite _split_text_cons.
  destruct (regex_split_spec text _s) as [_ Hconcat].
  assert (forall recur,
            match recur with
            | None => True
            | Some f =>
                forall s chunks, f s = Ok chunks ->
                  PyText.visible (concat chunks) = PyText.visible s
            end ->
            TextSplitter.split_loop chunk_size 0 recur []
              (TextSplitter._split_text_with_regex text _s) [] = Ok out ->
            PyText.visible (concat out) = PyText.visible text) as Hloop.
  { intros recur Hrec H%split_loop_exact; [|done]. by rewrite Hconcat in H. }
  case_decide; [by apply Hloop|].
  destruct (contains _s text).
  - apply Hloop. by destruct rest.
  - destruct rest as [|s' rest]; [by apply Hloop|]. apply IH.
Qed.

End ChunksWithoutOverlap.

Section SplitDocsProperties.

Lemma split_documents_app cs co seps a b :
  TextSplitter.split_documents cs co seps (a ++ b)
  = (x <- TextSplitter.split_documents cs co seps a ;;
     y <- TextSplitter.split_documents cs co seps b ;;
     Ok (x ++ y)).
Proof.
  induction a as [|d a IH]; cbn [app TextSplitter.split_documents Py.bind].
  - by destruct (TextSplitter.split_documents cs co seps b).
  - destruct (TextSplitter.split_text cs co seps (page_content d)) as [chunks|e];
      cbn [Py.bind]; [|done].
    rewrite IH.
    destruct (TextSplitter.split_documents cs co seps a) as [x|e]; cbn [Py.bind]; [|done].
    destruct (TextSplitter.split_documents cs co seps b) as [y|e]; cbn [Py.bind]; [|done].
    by rewrite app_assoc.
Qed.

(** X8: [_split_docs] works page by page. Splitting two lists of pages
    one after the other gives the chunks of the first list followed by the
    chunks of the second, and raises when either part does: the chunks of a
    batch keep the order of its pages, and no chunk spans two pages. *)
Theorem split_docs_page_by_page a b cs co :
  Ingest._split_docs (a ++ b) cs co
  = (x <- Ingest._split_docs a cs co ;;
     y <- Ingest._split_docs b cs co ;;
     Ok (x ++ y)).
Proof.
  unfold Ingest._split_docs.
  destruct (TextSplitter.validate cs co) as [[]|e]; cbn [Py.bind]; [|done].
  apply split_documents_app.
Qed.

Lemma split_docs_returns documents cs co :
  1 <= cs -> 0 <= co <= cs ->
  exists out, Ingest._split_docs documents cs co = Ok out.
Proof.
  intros Hcs Hco. unfold Ingest._split_docs.
  rewrite validate_ok by lia. cbn [Py.bind].
  induction documents as [|d documents (out & IH)].
  - by exists [].
  - cbn [TextSplitter.split_documents]. unfold TextSplitter.split_text.
    destruct (_split_text_spec cs co ltac:(lia) Hcs [nlnl; nl; space; []] eq_refl
                (page_content d)) as (chunks & -> & _).
    rewrite IH. cbn [Py.bind]. by eexists.
Qed.

(** X9: for every list of pages and every valid configuration,
    [_split_docs] returns, and each chunk carries the metadata (source and
    page number) of a page of the list, of whose text its own text is a
    non-empty part of at most [chunk_size] characters. *)
Theorem split_docs_chunks_of_pages documents cs co :
  1 <= cs -> 0 <= co <= cs ->
  exists out,
    Ingest._split_docs documents cs co = Ok out
    /\ Forall (chunk_from cs documents) out.
Proof.
  intros Hcs Hco. unfold Ingest._split_docs.
  rewrite validate_ok by lia. cbn [Py.bind].
  induction documents as [|d documents (out & IH & Hout)].
  - by exists [].
  - cbn [TextSplitter.split_documents]. unfold TextSplitter.split_text.
    destruct (_split_text_spec cs co ltac:(lia) Hcs [nlnl; nl; space; []] eq_refl
                (page_content d)) as (chunks & -> & Hchunks).
    rewrite IH. cbn [Py.bind]. eexists. split; [done|].
    apply Forall_app. split.
    + apply Forall_fmap. eapply Forall_impl; [exact Hchunks|].
      intros c Hc. exists d. split; [by left|]. by split.
    + eapply Forall_impl; [exact Hout|].
      intros c (d' & Hd' & Hm & Hc). exists d'. split; [by right|]. by split.
Qed.

(** X10: chunking loses no text. For every list of pages and every valid
    configuration, the characters of the pages that are not whitespace
    all occur, in their order, in the chunks that [_split_docs] returns;
    with an overlap of 0 the chunks hold exactly these characters, none of
    them twice. *)
Theorem chunks_keep_visible_text documents cs co :
  1 <= cs -> 0 <= co <= cs ->
  exists out,
    Ingest._split_docs documents cs co = Ok out
    /\ PyText.visible (texts documents) `sublist_of` PyText.visible (texts out)
    /\ (co = 0 -> PyText.visible (texts out) = PyText.visible (texts documents)).
Proof.
  intros Hcs Hco.
  destruct (split_docs_returns documents cs co Hcs Hco) as (out & Hout).
  exists out. split; [done|].
  revert Hout. unfold Ingest._split_docs.
  rewrite validate_ok by lia. cbn [Py.bind].
  revert out. induction documents as [|d documents IH]; intros out.
  - by intros [= <-].
  - cbn [TextSplitter.split_documents]. unfold TextSplitter.split_text.
    destruct (TextSplitter._split_text _ _ _ _) as [chunks|e] eqn:Ec; [|done].
    cbn [Py.bind].
    destruct (TextSplitter.split_documents _ _ _ _) as [rest|e] eqn:Er; [|done].
    cbn [Py.bind]. intros [= <-].
    destruct (IH rest eq_refl) as [IH1 IH2].
    assert (texts (((fun chunk => mkDocument chunk (metadata d)) <$> chunks) ++ rest)
            = concat chunks ++ texts rest) as ->.
    { unfold texts. rewrite fmap_app, concat_app. f_equal. f_equal.
      rewrite <- list_fmap_compose. apply list_fmap_id. }
    change (texts (d :: documents)) with (page_content d ++ texts documents).
    rewrite !visible_app. split.
    + apply sublist_app; [|done]. by apply _split_text_keeps in Ec.
    + intros ->. rewrite IH2 by done. f_equal. by apply _split_text_exact in Ec.
Qed.

End SplitDocsProperties.

Lemma split_docs_chunks_of_pages_witness :
  exists out,
    Ingest._split_docs Examples.two_chunks 1000 150 = Ok out
    /\ Forall (chunk_from 1000 Examples.two_chunks) out.
Proof. apply (split_docs_chunks_of_pages Examples.two_chunks 1000 150); lia. Defined.

Lemma chunks_keep_visible_text_witness :
  exists out,
    Ingest._split_docs [mkDocument Examples.two_paragraphs []] 1000 0 = Ok out
    /\ PyText.visible (texts [mkDocument Examples.two_paragraphs []])
         `sublist_of` PyText.visible (texts out)
    /\ (0 = 0 ->
        PyText.visible (texts out)
        = PyText.visible (texts [mkDocument Examples.two_paragraphs []])).
Proof.
  apply (chunks_keep_visible_text [mkDocument Examples.two_paragraphs []] 1000 0); lia.
Defined.

(** ** The script: reset, ingestion and questions *)

Section ScriptProperties.

Context {float : Type} {F32 : Float32 float}.
Variable parse : str -> list N -> result (list Document).
Variable emb : str -> str -> Embeddings float.
Variable similarity : list float -> list float -> Q.
Variable chat : str -> float -> str -> list Rag.Message -> result Rag.Response.
Implicit Types fs : gmap (list str) (FS.entry float).
Implicit Types s : Main.Session float.
Implicit Types inp : Main.Inputs float.

Abbreviation main := (Main.main parse emb similarity chat).
Abbreviation ingest_documents := (Main.ingest_documents parse emb).
Abbreviation ask := (Main.ask emb similarity chat).

Lemma is_dir_lookup fs p : FS.is_dir p fs = true <-> fs !! p = Some FS.Dir.
Proof. unfold FS.is_dir. destruct (fs !! p) as [[|c]|]; split; done. Qed.

Lemma exists_is_Some fs p : FS.exists_ p fs = true <-> is_Some (fs !! p).
Proof. unfold FS.exists_. apply bool_decide_eq_true. Qed.

(** The two loops of the reset on any state of the index directory. *)
Lemma clear_index_dir_spec fs :
  exists fs',
    App.clear_index_dir fs = (Ok tt, fs')
    /\ (FS.is_dir [] fs = true -> fs' = {[ [] := FS.Dir ]})
    /\ (FS.is_dir [] fs = false -> fs' = fs).
Proof.
  unfold App.clear_index_dir.
  destruct (FS.is_dir [] fs) eqn:Hroot.
  - assert (fs !! [] = Some FS.Dir) as Hr by (by apply is_dir_lookup).
    assert (FS.exists_ [] fs = true) as ->.
    { apply bool_decide_eq_true. rewrite Hr. eauto. }
    destruct (unlink_each_spec (FS.glob_all fs) fs) as (fs1 & H1 & Hfs1).
    { apply glob_all_NoDup. }
    { intros p Hp. by apply glob_all_spec in Hp as (_ & _ & ?). }
    unfold io_bind. rewrite H1.
    assert (fs1 !! [] = Some FS.Dir) as Hr1 by (by rewrite Hfs1, Hr).
    assert (FS.is_dir [] fs1 = true) as Hroot1 by (by apply is_dir_lookup).
    destruct (sorted_reverse_spec (FS.glob_all fs1)) as [Hs Hp].
    destruct (rmdir_each_spec (App.sorted_reverse (FS.glob_all fs1)) fs1)
      as (fs2 & H2 & Hr2 & Hgone).
    + exact Hs.
    + rewrite Hp. apply glob_all_NoDup.
    + rewrite Hp. by intros (_ & ? & _)%glob_all_spec.
    + intros q Hq. rewrite Hp, glob_all_spec. tauto.
    + intros q. rewrite Hp. intros (_ & Hq & e & He)%glob_all_spec.
      revert He. rewrite Hfs1. destruct (fs !! q) as [[|c]|] eqn:E; try done.
      rewrite decide_True; [done|]. apply glob_all_spec. rewrite E. eauto.
    + rewrite H2. exists fs2. split; [done|]. split; [|done]. intros _.
      apply map_eq. intros q. destruct (decide (q = [])) as [->|Hq].
      * by rewrite Hr2, Hr1, lookup_singleton_eq.
      * rewrite Hgone by done. by rewrite lookup_singleton_ne.
  - assert (FS.glob_all fs = []) as Hg by (unfold FS.glob_all; by rewrite Hroot).
    exists fs. split; [|done].
    destruct (FS.exists_ [] fs); [|done].
    unfold io_bind. rewrite Hg. simpl. rewrite Hg. done.
Qed.

(** X11: resetting twice is resetting once: the second "Reset Index" finds
    the directory as the first one left it and changes nothing. *)
Theorem reset_index_idempotent (st : @App.State float) :
  App.reset_index (App.reset_index st).2 = App.reset_index st.
Proof.
  destruct st as [fs ready]. unfold App.reset_index.
  cbn [App.index_dir App.retriever_ready].
  destruct (clear_index_dir_spec fs) as (fs' & -> & H1 & H2).
  cbn [snd App.index_dir App.retriever_ready].
  destruct (clear_index_dir_spec fs') as (fs'' & -> & H1' & H2').
  f_equal. f_equal.
  destruct (FS.is_dir [] fs) eqn:E.
  - rewrite (H1 eq_refl) in *. apply H1'. by apply is_dir_lookup, lookup_singleton_eq.
  - rewrite (H2 eq_refl) in *. by apply H2'.
Qed.

(** What the "Reset Index" button leaves. *)
Lemma sidebar_controls_reset inp s :
  Main.reset_clicked inp = true ->
  exists fs',
    Main.sidebar_controls inp s
    = (Ok tt, Main.mkSession (mkWorld fs' (embed_calls (Main.world s))) false)
    /\ (FS.is_dir [] (files (Main.world s)) = true -> fs' = {[ [] := FS.Dir ]})
    /\ (FS.is_dir [] (files (Main.world s)) = false -> fs' = files (Main.world s)).
Proof.
  intros Hc. unfold Main.sidebar_controls, App.reset_index. rewrite Hc. simpl.
  destruct (clear_index_dir_spec (files (Main.world s))) as (fs' & -> & H1 & H2).
  simpl. by exists fs'.
Qed.

Lemma ask_without_index key inp s :
  FS.is_dir [] (files (Main.world s)) = true ->
  files (Main.world s) !! FAISS.index_faiss = None ->
  ask key inp s = Raise RuntimeError.
Proof.
  intros Hd Hn. unfold Main.ask.
  assert (FS.exists_ [] (files (Main.world s)) = true) as ->.
  { apply bool_decide_eq_true. apply is_dir_lookup in Hd. rewrite Hd. eauto. }
  rewrite orb_true_r. unfold Rag.load_retriever, FAISS.load_local. by rewrite Hn.
Qed.

(** X12: an index directory without an index stops the page. When the
    directory exists and holds no [index.faiss], or when "Reset Index" has
    just emptied it, a run of [main] without ingestion raises
    [RuntimeError] from [load_retriever], because the retriever is loaded
    whenever the directory exists. *)
Theorem main_raises_without_index key inp s :
  FS.is_dir [] (files (Main.world s)) = true ->
  Main.ingest_clicked inp = false ->
  Main.reset_clicked inp = true \/ files (Main.world s) !! FAISS.index_faiss = None ->
  (main key inp s).1 = Raise RuntimeError.
Proof.
  intros Hd Hi Hcase. unfold Main.main, io_bind. rewrite Hi.
  destruct (Main.reset_clicked inp) eqn:Hr.
  - destruct (sidebar_controls_reset inp s Hr) as (fs' & -> & H1 & _).
    rewrite (H1 Hd). unfold io_ret. cbn [fst snd].
    rewrite ask_without_index; done.
  - destruct Hcase as [|Hn]; [done|].
    unfold Main.sidebar_controls. rewrite Hr. unfold io_ret.
    rewrite ask_without_index; done.
Qed.

Lemma sidebar_controls_inv inp s :
  Main.ready_has_dir s -> Main.ready_has_dir (Main.sidebar_controls inp s).2.
Proof.
  intros Hs. destruct (Main.reset_clicked inp) eqn:Hr.
  - destruct (sidebar_controls_reset inp s Hr) as (fs' & -> & _). by intros ?.
  - unfold Main.sidebar_controls. by rewrite Hr.
Qed.

Lemma ingest_documents_inv key uploaded s :
  Main.ready_has_dir s -> Main.ready_has_dir (ingest_documents key uploaded s).2.
Proof.
  intros Hs. unfold Main.ingest_documents, io_bind, Main.on_world at 1, Ingest.ensure_index,
    on_files.
  pose proof (mkdir_keeps (files (Main.world s)) []) as Hk.
  pose proof (mkdir_inv (files (Main.world s))) as Hinv.
  revert Hk Hinv.
  destruct (FS.mkdir (files (Main.world s))) as [[[]|e] fs1] eqn:E; simpl; intros Hk Hinv.
  - destruct (Hinv fs1 eq_refl) as [Hroot _].
    unfold Main.on_world. simpl.
    match goal with |- context [Ingest.add_pdfs_to_index ?l _ ?p _ ?w] =>
      pose proof (add_pdfs_to_index_keeps l emb p key w []
                    ltac:(simpl; rewrite Hroot; eauto)) as Hd;
      destruct (Ingest.add_pdfs_to_index l emb p key w) as [[[]|e] w']
    end; simpl in *; intros _; by apply exists_is_Some.
  - intros Hready. apply exists_is_Some, Hk. by apply exists_is_Some, Hs.
Qed.

(** X13: the session key [retriever_ready] is only ever set while the
    index directory exists. Every run of [main], whatever is clicked and
    whether it returns or raises, keeps this, so the test
    [retriever_ready or INDEX_DIR.exists()] is decided by the directory
    alone. *)
Theorem retriever_ready_implies_index_dir key inp s :
  Main.ready_has_dir s -> Main.ready_has_dir (main key inp s).2.
Proof.
  intros Hs. unfold Main.main, io_bind.
  pose proof (sidebar_controls_inv inp s Hs) as H1. revert H1.
  destruct (Main.sidebar_controls inp s) as [[[]|e] s1]; simpl; [|done]. intros H1.
  destruct (Main.ingest_clicked inp).
  - pose proof (ingest_documents_inv key (Main.uploaded inp) s1 H1) as H2. revert H2.
    by destruct (ingest_documents key (Main.uploaded inp) s1) as [[[]|e] s2].
  - done.
Qed.

Lemma ingest_documents_run key uploaded s :
  files (Main.world s) !! [] = Some FS.Dir ->
  ingest_documents key uploaded s =
    let saved := Main.save_uploaded_files uploaded in
    match Ingest.add_pdfs_to_index (Main.load_saved parse saved.2) emb saved.1 key
            (Main.world s) with
    | (Ok _, w') => (Ok tt, Main.mkSession w' true)
    | (Raise e, w') => (Raise e, Main.mkSession w' (Main.retriever_ready s))
    end.
Proof.
  intros Hroot. destruct s as [[fs calls] ready]. simpl in Hroot.
  unfold Main.ingest_documents, io_bind, Main.on_world, Ingest.ensure_index, on_files.
  cbn [Main.world Main.retriever_ready files embed_calls].
  rewrite (mkdir_again fs Hroot). cbn [Main.world Main.retriever_ready].
  by destruct (Ingest.add_pdfs_to_index _ _ _ _ _) as [[[]|e] w'].
Qed.

(** X14: a reset forgets the old chunks. After "Reset Index" on an
    existing index directory, an "Ingest Documents" whose loader, splitter
    and embedding service succeed returns, sets [retriever_ready], and the
    retriever loaded then holds the chunks of the uploaded files, with
    their vectors in single precision, and nothing of what was indexed
    before. *)
Theorem reset_then_ingest_keeps_only_new key inp uploaded s raw docs e0 embs k :
  FS.is_dir [] (files (Main.world s)) = true ->
  Main.reset_clicked inp = true ->
  let saved := Main.save_uploaded_files uploaded in
  Ingest._load_pdfs (Main.load_saved parse saved.2) saved.1 = Ok raw -> raw <> [] ->
  Ingest._split_docs raw 1000 150 = Ok docs ->
  embed_documents (Ingest._get_embeddings emb key) (page_content <$> docs) = Ok (e0 :: embs) ->
  length docs = length (e0 :: embs) ->
  Forall (fun v => length v = length e0) embs ->
  let s1 := (Main.sidebar_controls inp s).2 in
  let r := ingest_documents key uploaded s1 in
  r.1 = Ok tt
  /\ Main.retriever_ready r.2 = true
  /\ Rag.load_retriever emb key k (files (Main.world r.2))
     = Ok (Rag.mkRetriever
             (FAISS.mk (length e0) (fmap (M:=list) float32 <$> e0 :: embs) docs)
             (Rag._get_embeddings emb key) k).
Proof.
  intros Hd Hr saved Hload Hne Hsplit Hemb Hlen Hdim s1 r. subst s1 r.
  destruct (sidebar_controls_reset inp s Hr) as (fs' & -> & H1 & _).
  rewrite (H1 Hd). cbn [snd].
  rewrite ingest_documents_run by apply lookup_singleton_eq.
  cbv zeta. cbn [Main.world Main.retriever_ready]. fold saved.
  rewrite (first_ingestion_run (Main.load_saved parse saved.2) emb saved.1 key
             (mkWorld {[ [] := FS.Dir ]} (embed_calls (Main.world s)))
             raw docs e0 embs
             ltac:(intros c; simpl; by rewrite lookup_singleton_eq)
             ltac:(by apply lookup_singleton_ne)
             ltac:(simpl; by rewrite lookup_singleton_ne)
             Hload Hne Hsplit Hemb Hlen Hdim).
  cbn [fst snd Main.world Main.retriever_ready files].
  split; [done|]. split; [done|].
  unfold Rag.load_retriever. by rewrite load_local_saved.
Qed.

End ScriptProperties.

Lemma save_loop_spec uploaded_files : forall saved temp_dir,
  let r := Main.save_loop uploaded_files saved temp_dir in
  r.1 = saved ++ (Main.name <$> uploaded_files)
  /\ forall n,
       r.2 !! n =
         match last (filter (fun uf => Main.name uf = n) uploaded_files) with
         | Some uf => Some (Main.getbuffer uf)
         | None => temp_dir !! n
         end.
Proof.
  induction uploaded_files as [|uf ufs IH]; intros saved temp_dir; cbn [Main.save_loop].
  - split; [by rewrite app_nil_r|done].
  - destruct (IH (saved ++ [Main.name uf]) (<[Main.name uf := Main.getbuffer uf]> temp_dir))
      as [IH1 IH2].
    split; [by rewrite IH1, <- app_assoc|].
    intros n. rewrite IH2, filter_cons.
    destruct (decide (Main.name uf = n)) as [<-|Hne].
    + rewrite last_cons, lookup_insert_eq. by destruct (last _).
    + by rewrite lookup_insert_ne.
Qed.

(** X15: [save_uploaded_files] returns one path per upload, in upload
    order, and the file at a path holds the bytes of the last upload with
    that name: uploads with different names are read back unchanged, and of
    two uploads with the same name both paths lead to the later one. *)
Theorem save_uploaded_files_last_wins uploaded_files :
  let r := Main.save_uploaded_files uploaded_files in
  r.1 = Main.name <$> uploaded_files
  /\ forall n,
       r.2 !! n = Main.getbuffer <$> last (filter (fun uf => Main.name uf = n) uploaded_files).
Proof.
  destruct (save_loop_spec uploaded_files [] ∅) as [H1 H2].
  split; [exact H1|]. intros n. unfold Main.save_uploaded_files. rewrite H2.
  by destruct (last _).
Qed.

Lemma main_raises_without_index_witness :
  (Main.main Scenarios.parse Examples.embedder Examples.closeness Examples.chat
     Examples.key Scenarios.asking Scenarios.fresh_session).1 = Raise RuntimeError.
Proof.
  apply (main_raises_without_index Scenarios.parse Examples.embedder Examples.closeness
           Examples.chat Examples.key Scenarios.asking Scenarios.fresh_session).
  - vm_compute. reflexivity.
  - reflexivity.
  - right. vm_compute. reflexivity.
Defined.

Lemma retriever_ready_implies_index_dir_witness :
  Main.ready_has_dir Scenarios.cluttered_session
  /\ Main.ready_has_dir
       (Main.main Scenarios.parse Examples.embedder Examples.closeness Examples.chat
          Examples.key Scenarios.resetting Scenarios.cluttered_session).2.
Proof.
  assert (Main.ready_has_dir Scenarios.cluttered_session) as H.
  { intros _. vm_compute. reflexivity. }
  split; [exact H|].
  exact (retriever_ready_implies_index_dir Scenarios.parse Examples.embedder
           Examples.closeness Examples.chat Examples.key Scenarios.resetting
           Scenarios.cluttered_session H).
Defined.

Lemma reset_then_ingest_keeps_only_new_witness :
  (Main.ingest_documents Scenarios.parse Scenarios.wide_embedder Examples.key
     [Scenarios.upload_a]
     (Main.sidebar_controls Scenarios.resetting Scenarios.cluttered_session).2).1 = Ok tt
  /\ Main.retriever_ready
       (Main.ingest_documents Scenarios.parse Scenarios.wide_embedder Examples.key
          [Scenarios.upload_a]
          (Main.sidebar_controls Scenarios.resetting Scenarios.cluttered_session).2).2
     = true
  /\ Rag.load_retriever Scenarios.wide_embedder Examples.key 4
       (files (Main.world
                 (Main.ingest_documents Scenarios.parse Scenarios.wide_embedder
                    Examples.key [Scenarios.upload_a]
                    (Main.sidebar_controls Scenarios.resetting
                       Scenarios.cluttered_session).2).2))
     = Ok (Rag.mkRetriever (FAISS.mk 2 [[16777216; 12]] [Examples.chunk_a])
             (Rag._get_embeddings Scenarios.wide_embedder Examples.key) 4).
Proof.
  refine (reset_then_ingest_keeps_only_new Scenarios.parse Scenarios.wide_embedder
            Examples.key Scenarios.resetting [Scenarios.upload_a]
            Scenarios.cluttered_session [Examples.chunk_a] [Examples.chunk_a]
            [16777217; 12] [] 4 _ _ _ _ _ _ _ _).
  - vm_compute. reflexivity.
  - reflexivity.
  - vm_compute. reflexivity.
  - discriminate.
  - vm_compute. reflexivity.
  - vm_compute. reflexivity.
  - reflexivity.
  - constructor.
Defined.

(** ** The text inputs of the tabs *)

Section StripProperties.
Implicit Types s t u : str.

Lemma lstrip_idem s : lstrip (lstrip s) = lstrip s.
Proof.
  induction s as [|c s IH]; [done|]. cbn [lstrip].
  destruct (isspace c) eqn:E; [done|]. cbn [lstrip]. by rewrite E.
Qed.

Lemma lstrip_snoc s c : isspace c = false -> lstrip (s ++ [c]) = lstrip s ++ [c].
Proof.
  intros Hc. induction s as [|a s IH]; cbn [app lstrip].
  - by rewrite Hc.
  - by destruct (isspace a).
Qed.

Lemma rstrip_cons c t : isspace c = false -> rstrip (c :: t) = c :: rstrip t.
Proof.
  intros Hc. unfold rstrip. rewrite reverse_cons, lstrip_snoc by done.
  by rewrite reverse_app.
Qed.

Lemma rstrip_idem t : rstrip (rstrip t) = rstrip t.
Proof. unfold rstrip. by rewrite reverse_involutive, lstrip_idem. Qed.

Lemma lstrip_head s : lstrip s = [] \/ exists c s', lstrip s = c :: s' /\ isspace c = false.
Proof.
  induction s as [|c s IH]; [by left|]. cbn [lstrip].
  destruct (isspace c) eqn:E; [done|]. right. eauto.
Qed.

Lemma strip_idem s : strip (strip s) = strip s.
Proof.
  unfold strip. destruct (lstrip_head s) as [->|(c & s' & -> & Hc)]; [done|].
  rewrite rstrip_cons by done. cbn [lstrip]. rewrite Hc.
  by rewrite <- rstrip_cons, rstrip_idem.
Qed.

Lemma strip_space_cons c s : isspace c = true -> strip (c :: s) = strip s.
Proof. intros Hc. unfold strip. cbn [lstrip]. by rewrite Hc. Qed.

Lemma lstrip_spaces s : Forall (fun c => isspace c = true) s -> lstrip s = [].
Proof. induction 1 as [|c s Hc _ IH]; [done|]. cbn [lstrip]. by rewrite Hc. Qed.

Lemma strip_spaces s : Forall (fun c => isspace c = true) s -> strip s = [].
Proof. intros H. unfold strip. by rewrite lstrip_spaces. Qed.

Lemma strip_each_spec items u :
  u ∈ PyText.strip_each items <-> exists x, x ∈ items /\ u = strip x /\ u <> [].
Proof.
  unfold PyText.strip_each. rewrite list_elem_of_fmap. split.
  - intros (x & -> & [Hx Hin]%list_elem_of_filter). eauto.
  - intros (x & Hin & -> & Hne). exists x. split; [done|]. by apply list_elem_of_filter.
Qed.

Lemma strip_each_clean items : Forall PyText.clean (PyText.strip_each items).
Proof.
  apply Forall_forall. intros u (x & _ & -> & Hne)%strip_each_spec.
  split; [done|apply strip_idem].
Qed.

Lemma strip_each_id items : Forall PyText.clean items -> PyText.strip_each items = items.
Proof.
  unfold PyText.strip_each. induction 1 as [|u items [Hne Hs] _ IH]; [done|].
  rewrite filter_cons, decide_True by (by rewrite Hs).
  rewrite fmap_cons, Hs. by rewrite IH.
Qed.

Lemma strip_each_blank items :
  Forall (fun x => strip x = []) items -> PyText.strip_each items = [].
Proof.
  unfold PyText.strip_each. induction 1 as [|x items Hx _ IH]; [done|].
  rewrite filter_cons, decide_False by (by intros ?). exact IH.
Qed.

End StripProperties.

Section LineProperties.
Implicit Types s t u cur text : str.

(** Every line is free of line boundaries and is a part of the text. *)
Lemma splitlines_go_spec n : forall text cur,
  (length text <= n)%nat -> PyText.no_linebreak cur ->
  Forall (fun x => PyText.no_linebreak x /\ substring x (reverse cur ++ text))
    (PyText.splitlines_go cur text).
Proof.
  induction n as [|n IH]; intros text cur Hn Hcur.
  - destruct text; [|simpl in Hn; lia]. cbn [PyText.splitlines_go].
    destruct cur; [done|]. constructor; [|done].
    split; [by apply Forall_reverse|]. rewrite app_nil_r. apply substring_refl.
  - destruct text as [|c rest].
    { cbn [PyText.splitlines_go]. destruct cur; [done|]. constructor; [|done].
      split; [by apply Forall_reverse|]. rewrite app_nil_r. apply substring_refl. }
    cbn [PyText.splitlines_go]. simpl in Hn.
    destruct (PyText.is_linebreak c) eqn:Ec.
    + constructor.
      { split; [by apply Forall_reverse|]. apply substring_app_r, substring_refl. }
      assert (forall rest', substring rest' rest -> (length rest' <= n)%nat ->
                Forall (fun x => PyText.no_linebreak x
                                 /\ substring x (reverse cur ++ c :: rest))
                  (PyText.splitlines_go [] rest')) as Hrest.
      { intros rest' Hsub Hlen.
        eapply Forall_impl; [apply (IH rest' []); [done|constructor]|].
        intros x [Hx Hs]. split; [done|]. change (reverse [] ++ rest') with rest' in Hs.
        apply substring_app_l. change (c :: rest) with ([c] ++ rest).
        apply substring_app_l. by eapply substring_trans. }
      destruct (c =? 13)%N; [|apply Hrest; [apply substring_refl|lia]].
      destruct rest as [|c2 rest']; [apply Hrest; [apply substring_refl|simpl; lia]|].
      destruct (c2 =? 10)%N; [|apply Hrest; [apply substring_refl|lia]].
      apply Hrest; [|simpl in Hn; lia].
      change (c2 :: rest') with ([c2] ++ rest'). apply substring_app_l, substring_refl.
    + eapply Forall_impl; [apply (IH rest (c :: cur)); [lia|by constructor]|].
      intros x [Hx Hs]. split; [done|].
      revert Hs. by rewrite reverse_cons, <- app_assoc.
Qed.

Lemma splitlines_spec text :
  Forall (fun x => PyText.no_linebreak x /\ substring x text) (PyText.splitlines text).
Proof. apply (splitlines_go_spec (length text) text []); [done|constructor]. Qed.

Lemma splitlines_go_line u : forall cur rest,
  PyText.no_linebreak u ->
  PyText.splitlines_go cur (u ++ rest) = PyText.splitlines_go (reverse u ++ cur) rest.
Proof.
  induction u as [|c u IH]; intros cur rest Hu; [done|].
  apply Forall_cons in Hu as [Hc Hu].
  cbn [app PyText.splitlines_go]. rewrite Hc, IH by done.
  by rewrite reverse_cons, <- app_assoc.
Qed.

(** Lines that are joined with a newline are split into the same lines. *)
Lemma splitlines_join urls :
  Forall (fun u => u <> [] /\ PyText.no_linebreak u) urls ->
  PyText.splitlines (join nl urls) = urls.
Proof.
  unfold PyText.splitlines.
  induction 1 as [|u urls [Hne Hu] Hrest IH]; [done|].
  destruct urls as [|v urls].
  - cbn [join]. rewrite <- (app_nil_r u) at 1. rewrite splitlines_go_line by done.
    rewrite app_nil_r. cbn [PyText.splitlines_go].
    destruct (reverse u) eqn:E.
    + apply (f_equal reverse) in E. rewrite reverse_involutive in E. done.
    + by rewrite <- E, reverse_involutive.
  - change (join nl (u :: v :: urls)) with (u ++ nl ++ join nl (v :: urls)).
    rewrite splitlines_go_line by done. rewrite app_nil_r.
    unfold nl at 1. cbn [app PyText.splitlines_go].
    change (PyText.is_linebreak 10%N) with true. change (10 =? 13)%N with false.
    cbv iota. by rewrite IH, reverse_involutive.
Qed.

Lemma lines_of_blank_text text :
  Forall (fun c => isspace c = true) text ->
  PyText.strip_each (PyText.splitlines text) = [].
Proof.
  intros Hall. apply strip_each_blank.
  eapply Forall_impl; [apply splitlines_spec|].
  intros x [_ (a & b & Heq)]. apply strip_spaces.
  rewrite Heq in Hall.
  by apply Forall_app in Hall as [_ [? _]%Forall_app].
Qed.

End LineProperties.

Section NameProperties.

Lemma split_go_comma_piece u : forall cur rest,
  PyText.comma ∉ u ->
  Py.split_go [PyText.comma] 0 cur (u ++ rest)
  = Py.split_go [PyText.comma] 0 (reverse u ++ cur) rest.
Proof.
  induction u as [|c u IH]; intros cur rest Hu; [done|].
  apply not_elem_of_cons in Hu as [Hc Hu].
  cbn [app Py.split_go startswith]. rewrite decide_False by done.
  rewrite IH by done. by rewrite reverse_cons, <- app_assoc.
Qed.

Lemma split_go_comma_no_comma text : forall cur,
  PyText.comma ∉ cur ->
  Forall (fun p => PyText.comma ∉ p) (Py.split_go [PyText.comma] 0 cur text).
Proof.
  induction text as [|c text IH]; intros cur Hcur; cbn [Py.split_go startswith].
  - constructor; [|done]. by rewrite elem_of_reverse.
  - destruct (decide (PyText.comma = c)) as [<-|Hc].
    + cbn [length Nat.sub]. constructor; [by rewrite elem_of_reverse|].
      apply IH. apply not_elem_of_nil.
    + apply IH. apply not_elem_of_cons. split; [done|done].
Qed.

Lemma split_join_names n names : forall cur,
  Forall (fun m => PyText.comma ∉ m) (n :: names) ->
  Py.split_go [PyText.comma] 0 cur (join (lit ", ") (n :: names))
  = (reverse cur ++ n) :: ((fun m => Py.space ++ m) <$> names).
Proof.
  revert n. induction names as [|m names IH]; intros n cur Hall.
  - cbn [join]. rewrite <- (app_nil_r n) at 1.
    rewrite split_go_comma_piece by (by apply Forall_inv in Hall).
    cbn [Py.split_go]. by rewrite reverse_app, reverse_involutive.
  - apply Forall_cons in Hall as [Hn Hall].
    change (join (lit ", ") (n :: m :: names))
      with (n ++ PyText.comma :: Py.space ++ join (lit ", ") (m :: names)).
    rewrite split_go_comma_piece by done.
    cbn [Py.split_go startswith]. rewrite decide_True by done.
    cbn [length Nat.sub].
    rewrite reverse_app, reverse_involutive. f_equal.
    unfold Py.space at 1. cbn [app Py.split_go startswith].
    rewrite decide_False by done.
    rewrite IH by done. done.
Qed.

(** Names that are joined with a comma and a space are read back. *)
Lemma competitor_names_join names :
  Forall (fun n => PyText.clean n /\ PyText.comma ∉ n) names ->
  Main.competitor_names (join (lit ", ") names) = names.
Proof.
  intros H. unfold Main.competitor_names, Py.split.
  destruct names as [|n names]; [done|].
  change (lit ",") with [PyText.comma].
  rewrite split_join_names by (eapply Forall_impl; [exact H|]; by intros u [_ ?]).
  change (reverse [] ++ n) with n. apply Forall_cons in H as [[Hn _] H].
  unfold PyText.strip_each. rewrite filter_cons.
  destruct Hn as [Hne Hs]. rewrite decide_True by (by rewrite Hs).
  rewrite fmap_cons, Hs. f_equal.
  induction H as [|m names [[Hm1 Hm2] _] _ IH]; [done|].
  assert (strip (Py.space ++ m) = m) as Hsm.
  { rewrite <- Hm2 at 2. by apply (strip_space_cons 32%N). }
  rewrite fmap_cons, filter_cons. cbv beta. rewrite Hsm.
  rewrite decide_True by done.
  by rewrite fmap_cons, Hsm, IH.
Qed.

End NameProperties.

Section SliceProperties.
Context {A : Type}.
Implicit Types l : list A.

Lemma slice_to_take n l : 0 <= n -> PyText.slice_to n l = take (Z.to_nat n) l.
Proof. intros H. unfold PyText.slice_to. by replace (0 <=? n) with true by lia. Qed.

Lemma slice_to_length n l : 0 <= n -> Z.of_nat (length (PyText.slice_to n l)) <= n.
Proof. intros H. rewrite slice_to_take, length_take by done. lia. Qed.

Lemma slice_to_prefix n l : PyText.slice_to n l `prefix_of` l.
Proof. unfold PyText.slice_to. destruct (0 <=? n); apply prefix_take. Qed.

Lemma slice_to_all n l : Z.of_nat (length l) <= n -> PyText.slice_to n l = l.
Proof. intros H. rewrite slice_to_take by lia. apply take_ge. lia. Qed.

End SliceProperties.

Section TabProperties.

Context {float : Type}.
Variable chat : str -> float -> str -> list Rag.Message -> result Rag.Response.
Variable parse : str -> result (list (gmap str str)).
Variable get : Q -> str -> result (Z * str).
Variable extract : str -> result (option str).

(** X16: the feed and source URLs that the tabs read from a text area are
    never empty, have no whitespace at either end, contain no line
    boundary and occur in the text as typed. *)
Theorem url_lines_are_clean (text : str) :
  Forall (fun u => PyText.clean u /\ PyText.no_linebreak u /\ substring u text)
    (PyText.strip_each (PyText.splitlines text)).
Proof.
  apply Forall_forall. intros u Hu.
  pose proof (strip_each_clean (PyText.splitlines text)) as Hc.
  rewrite Forall_forall in Hc. split; [by apply Hc|].
  apply strip_each_spec in Hu as (x & Hx & -> & _).
  pose proof (splitlines_spec text) as Hs.
  rewrite Forall_forall in Hs. destruct (Hs x Hx) as [Hnl Hsub].
  pose proof (strip_substring x) as Hsx. split.
  - destruct Hsx as (a & b & Heq). unfold PyText.no_linebreak in Hnl. rewrite Heq in Hnl.
    by apply Forall_app in Hnl as [_ [? _]%Forall_app].
  - by eapply substring_trans.
Qed.

(** X17: with a feed text of nothing but whitespace and line breaks,
    "Summarize News" shows "No news entries available." and no entry; the
    feed parser and the chat service have no part in the result. *)
Theorem news_tab_without_feeds key model temperature (feed_text : str) max_items :
  Forall (fun c => isspace c = true) feed_text ->
  Main.news_tab chat parse key model temperature feed_text max_items
  = Ok (lit "No news entries available.", []).
Proof.
  intros H. unfold Main.news_tab. by rewrite lines_of_blank_text.
Qed.

(** X18: the feed text round trip. The text area is prefilled with the
    default feeds joined by newlines; for feed URLs that are clean and free
    of line boundaries, the tab reads exactly these URLs back, in order,
    and summarizes their entries. *)
Theorem news_tab_reads_feeds_back key model temperature feeds max_items :
  Forall (fun u => PyText.clean u /\ PyText.no_linebreak u) feeds ->
  Main.news_tab chat parse key model temperature (join nl feeds) max_items
  = (summary <- News.summarize_news chat (News.fetch_rss_entries parse feeds max_items)
                  key model temperature ;;
     Ok (summary, News.fetch_rss_entries parse feeds max_items)).
Proof.
  intros H. unfold Main.news_tab.
  rewrite splitlines_join, strip_each_id; [done| |].
  - eapply Forall_impl; [exact H|]. by intros u [? _].
  - eapply Forall_impl; [exact H|]. by intros u [[? _] ?].
Qed.

(** X19: the competitor names that the Market tab reads from its text
    input are never empty, have no whitespace at either end and contain no
    comma. *)
Theorem competitor_names_are_clean (competitors : str) :
  Forall (fun n => PyText.clean n /\ PyText.comma ∉ n) (Main.competitor_names competitors).
Proof.
  apply Forall_forall. intros n Hn.
  pose proof (strip_each_clean (Py.split (lit ",") competitors)) as Hc.
  rewrite Forall_forall in Hc. split; [by apply Hc|].
  apply strip_each_spec in Hn as (x & Hx & -> & _).
  pose proof (split_go_comma_no_comma competitors [] ltac:(apply not_elem_of_nil)) as Hs.
  rewrite Forall_forall in Hs. specialize (Hs x Hx).
  destruct (strip_substring x) as (a & b & Heq). rewrite Heq in Hs.
  intros Hin. apply Hs. apply elem_of_app. right. apply elem_of_app. by left.
Qed.

(** X20: the Market tab round trip. Names written as the prompt writes
    them, joined by a comma and a space, and URLs written one per line are
    read back unchanged: the brief is made for exactly these names from the
    pages of exactly these URLs, fetched with a timeout of 12 seconds. *)
Theorem market_tab_reads_inputs_back key model temperature names urls :
  Forall (fun n => PyText.clean n /\ PyText.comma ∉ n) names ->
  Forall (fun u => PyText.clean u /\ PyText.no_linebreak u) urls ->
  Main.market_tab chat get extract key model temperature
    (join (lit ", ") names) (join nl urls)
  = (brief <- Market.synthesize_competitor_brief chat names
                (Market.fetch_pages get extract urls 12) key model temperature ;;
     Ok (brief, Market.fetch_pages get extract urls 12)).
Proof.
  intros Hn Hu. unfold Main.market_tab.
  rewrite competitor_names_join by done.
  rewrite splitlines_join, strip_each_id; [done| |].
  - eapply Forall_impl; [exact Hu|]. by intros u [? _].
  - eapply Forall_impl; [exact Hu|]. by intros u [[? _] ?].
Qed.

End TabProperties.

(** Decides that a concrete text is clean and free of line boundaries,
    or free of commas. *)
Ltac clean_text :=
  repeat match goal with
  | |- Forall _ _ => constructor
  | |- _ /\ _ => split
  | |- PyText.clean _ => split
  | |- _ <> [] => discriminate
  | |- strip _ = _ => vm_compute; reflexivity
  | |- PyText.no_linebreak _ => unfold PyText.no_linebreak
  | |- PyText.is_linebreak _ = false => reflexivity
  | |- _ ∉ _ =>
      let H := fresh in
      intros H; unfold PyText.comma, lit in H; simpl in H;
      repeat (apply elem_of_cons in H as [H|H]; [discriminate H|]);
      by apply elem_of_nil in H
  end.

Lemma news_tab_without_feeds_witness :
  Main.news_tab Examples.chat Scenarios.feedparser Examples.key Scenarios.model 0
    Scenarios.blank 5
  = Ok (lit "No news entries available.", []).
Proof.
  apply (news_tab_without_feeds Examples.chat Scenarios.feedparser Examples.key
           Scenarios.model 0 Scenarios.blank 5).
  repeat constructor.
Defined.

Lemma news_tab_reads_feeds_back_witness :
  Main.news_tab Examples.chat Scenarios.feedparser Examples.key Scenarios.model 0
    (join nl Scenarios.feeds) 5
  = (summary <- News.summarize_news Examples.chat
                  (News.fetch_rss_entries Scenarios.feedparser Scenarios.feeds 5)
                  Examples.key Scenarios.model 0 ;;
     Ok (summary, News.fetch_rss_entries Scenarios.feedparser Scenarios.feeds 5)).
Proof.
  apply (news_tab_reads_feeds_back Examples.chat Scenarios.feedparser Examples.key
           Scenarios.model 0 Scenarios.feeds 5).
  clean_text.
Defined.

Lemma market_tab_reads_inputs_back_witness :
  Main.market_tab Examples.chat Scenarios.httpx Scenarios.trafilatura Examples.key
    Scenarios.model 0 (join (lit ", ") Scenarios.competitors) (join nl Scenarios.sites)
  = (brief <- Market.synthesize_competitor_brief Examples.chat Scenarios.competitors
                (Market.fetch_pages Scenarios.httpx Scenarios.trafilatura
                   Scenarios.sites 12)
                Examples.key Scenarios.model 0 ;;
     Ok (brief,
         Market.fetch_pages Scenarios.httpx Scenarios.trafilatura Scenarios.sites 12)).
Proof.
  apply (market_tab_reads_inputs_back Examples.chat Scenarios.httpx Scenarios.trafilatura
           Examples.key Scenarios.model 0 Scenarios.competitors Scenarios.sites);
    clean_text.
Defined.

(** ** The agents: fetching and prompts *)

Section MarketProperties.

Variable get : Q -> str -> result (Z * str).
Variable extract : str -> result (option str).

Abbreviation fetch_pages := (Market.fetch_pages get extract).

Lemma fetch_page_inv timeout url ps :
  Market.fetch_page get extract timeout url = Ok ps ->
  ps = []
  \/ exists body ex,
       get timeout url = Ok (200, body) /\ extract body = Ok ex
       /\ ps = [Market.mkPage url (PyText.slice_to 20000 (PyText.or_empty ex))].
Proof.
  unfold Market.fetch_page.
  destruct (get timeout url) as [[status body]|e] eqn:Eg; [|done]. cbn [Py.bind fst snd].
  destruct (status =? 200) eqn:Es; [|intros [= <-]; by left].
  apply Z.eqb_eq in Es as ->.
  destruct (extract body) as [ex|e] eqn:Ee; [|done]. cbn [Py.bind].
  intros [= <-]. right. by exists body, ex.
Qed.

Lemma fetch_page_ok timeout url body ex :
  get timeout url = Ok (200, body) -> extract body = Ok ex ->
  Market.fetch_page get extract timeout url
  = Ok [Market.mkPage url (PyText.slice_to 20000 (PyText.or_empty ex))].
Proof. intros Hg He. unfold Market.fetch_page. rewrite Hg. cbn. by rewrite He. Qed.

(** X21: [fetch_pages] skips what fails and keeps the rest. The URLs of
    the result are a subsequence of the given URLs; every page of the
    result was answered with status 200, extracted without an exception
    and holds at most the first 20000 characters of the extracted text;
    and every URL that is answered with 200 and extracted has its page in
    the result whatever happens to the other URLs. *)
Theorem fetch_pages_skips_failures urls timeout :
  (Market.url <$> fetch_pages urls timeout) `sublist_of` urls
  /\ (forall p, p ∈ fetch_pages urls timeout ->
        len (Market.text p) <= 20000
        /\ exists body ex,
             get timeout (Market.url p) = Ok (200, body) /\ extract body = Ok ex
             /\ Market.text p = PyText.slice_to 20000 (PyText.or_empty ex))
  /\ (forall url body ex,
        url ∈ urls -> get timeout url = Ok (200, body) -> extract body = Ok ex ->
        Market.mkPage url (PyText.slice_to 20000 (PyText.or_empty ex))
          ∈ fetch_pages urls timeout).
Proof.
  induction urls as [|url urls (IH1 & IH2 & IH3)].
  - split; [done|]. split; [by intros p ?%elem_of_nil|by intros ? ? ? ?%elem_of_nil].
  - cbn [Market.fetch_pages].
    pose proof (fetch_page_ok timeout url) as Hok.
    destruct (Market.fetch_page get extract timeout url) as [ps|e] eqn:E.
    + apply fetch_page_inv in E as [->|(body & ex & Hg & He & ->)].
      * cbn [app]. split; [by apply sublist_cons|]. split; [done|].
        intros u body ex [->|Hin]%elem_of_cons Hg He; [|by eapply IH3].
        by specialize (Hok body ex Hg He).
      * cbn [app fmap list_fmap Market.url]. split; [by apply sublist_skip|]. split.
        -- intros p [->|Hin]%elem_of_cons; [|by apply IH2]. cbn [Market.text Market.url].
           split; [by apply slice_to_length|eauto].
        -- intros u body' ex' [->|Hin]%elem_of_cons Hg' He'; [|right; by eapply IH3].
           assert (ex' = ex) as -> by congruence. by left.
    + cbn [app]. split; [by apply sublist_cons|]. split; [done|].
      intros u body ex [->|Hin]%elem_of_cons Hg He; [|by eapply IH3].
      by specialize (Hok body ex Hg He).
Qed.

Lemma len_app (s t : str) : len (s ++ t) = len s + len t.
Proof. unfold len. rewrite length_app. lia. Qed.

Lemma join_substring sep (items : list str) x :
  x ∈ items -> substring x (join sep items).
Proof.
  induction items as [|y items IH]; [by intros ?%elem_of_nil|].
  intros [->|Hin]%elem_of_cons.
  - destruct items; [apply substring_refl|]. cbn [join]. apply substring_app_r, substring_refl.
  - destruct items as [|z items]; [by apply elem_of_nil in Hin|].
    change (join sep (y :: z :: items)) with (y ++ sep ++ join sep (z :: items)).
    by apply substring_app_l, substring_app_l, IH.
Qed.

(** X22: the prompt of the competitor brief holds at most 40000 characters
    of page text: besides the joined competitor names it is never longer
    than 40255 characters; when the joined pages fit into 40000 characters,
    the URL and the text of every page are in the prompt. *)
Theorem brief_prompt_truncates_sources competitors pages :
  len (Market.brief_prompt competitors pages)
    <= 255 + len (join (lit ", ") competitors) + 40000
  /\ (len (Market.joined_pages pages) <= 40000 ->
      forall p, p ∈ pages ->
        substring (Market.url p) (Market.brief_prompt competitors pages)
        /\ substring (Market.text p) (Market.brief_prompt competitors pages)).
Proof.
  unfold Market.brief_prompt. split.
  - rewrite !len_app.
    pose proof (slice_to_length 40000 (Market.joined_pages pages) ltac:(lia)) as H.
    vm_compute (len (lit _)). vm_compute (len nlnl). vm_compute (len nl).
    unfold len. lia.
  - intros Hfit p Hp. rewrite slice_to_all by exact Hfit.
    assert (substring (lit "URL: " ++ Market.url p ++ nl ++ Market.text p)
              (Market.joined_pages pages)) as Hsub.
    { apply join_substring, list_elem_of_fmap. by exists p. }
    split.
    + do 9 apply substring_app_l. eapply substring_trans; [|exact Hsub].
      apply substring_app_l, substring_app_r, substring_refl.
    + do 9 apply substring_app_l. eapply substring_trans; [|exact Hsub].
      do 3 apply substring_app_l. apply substring_refl.
Qed.

End MarketProperties.

Section NewsProperties.

Variable parse : str -> result (list (gmap str str)).

Abbreviation fetch_rss_entries := (News.fetch_rss_entries parse).

(** X23: the entries that [fetch_rss_entries] returns are exactly the
    first [max_items_per_feed] entries of every feed that can be parsed:
    a feed that fails contributes nothing and stops nothing, every entry
    names its feed as [source], and a field that the feed leaves out is
    the empty string. *)
Theorem fetch_rss_entries_spec feed_urls max_items e :
  e ∈ fetch_rss_entries feed_urls max_items <->
  exists url entries entry,
    url ∈ feed_urls /\ parse url = Ok entries
    /\ entry ∈ PyText.slice_to max_items entries
    /\ e = News.mkEntry (News.get entry "title") (News.get entry "link")
             (News.get entry "summary") (News.get entry "published") url.
Proof.
  induction feed_urls as [|u feed_urls IH]; cbn [News.fetch_rss_entries].
  - split; [by intros ?%elem_of_nil|by intros (? & ? & ? & ?%elem_of_nil & _)].
  - rewrite elem_of_app, IH. unfold News.feed_entries. split.
    + intros [H|(url & entries & entry & Hin & H)].
      * destruct (parse u) as [entries|err] eqn:E; [|by apply elem_of_nil in H].
        apply list_elem_of_fmap in H as (entry & -> & Hentry).
        exists u, entries, entry. split; [by left|done].
      * exists url, entries, entry. split; [by right|done].
    + intros (url & entries & entry & [->|Hin]%elem_of_cons & Hp & Hentry & ->).
      * left. rewrite Hp. apply list_elem_of_fmap. by exists entry.
      * right. by exists url, entries, entry.
Qed.

(** X24: [fetch_rss_entries] returns at most [max_items_per_feed] entries
    for every feed URL, when that number is not negative. *)
Theorem fetch_rss_entries_bound feed_urls max_items :
  0 <= max_items ->
  Z.of_nat (length (fetch_rss_entries feed_urls max_items))
  <= max_items * Z.of_nat (length feed_urls).
Proof.
  intros Hmax. induction feed_urls as [|u feed_urls IH]; cbn [News.fetch_rss_entries].
  - simpl. lia.
  - rewrite length_app.
    assert (Z.of_nat (length (News.feed_entries parse u max_items)) <= max_items) as H.
    { unfold News.feed_entries. destruct (parse u); [|simpl; lia].
      rewrite length_fmap. by apply slice_to_length. }
    cbn [length]. lia.
Qed.


End NewsProperties.

Section ReportProperties.

Variable read_csv : list N -> result Report.DataFrame.

(** X26: when the CSV can be read, [load_csv_preview] returns its columns
    unchanged and a prefix of its rows; for a [max_rows] that is not
    negative the number of rows is the smaller of [max_rows] and the number
    of rows read. *)
Theorem load_csv_preview_rows csv_bytes max_rows df :
  read_csv csv_bytes = Ok df ->
  exists out,
    Report.load_csv_preview read_csv csv_bytes max_rows = Ok out
    /\ Report.columns out = Report.columns df
    /\ Report.rows out `prefix_of` Report.rows df
    /\ (0 <= max_rows ->
        Z.of_nat (length (Report.rows out))
        = Z.min (Z.of_nat (length (Report.rows df))) max_rows).
Proof.
  intros Hr. unfold Report.load_csv_preview. rewrite Hr. cbn [Py.bind].
  eexists. split; [done|].
  destruct (max_rows <? Z.of_nat (length (Report.rows df))) eqn:E.
  - cbn [Report.head Report.columns Report.rows]. split; [done|].
    split; [apply slice_to_prefix|]. intros H.
    rewrite slice_to_take, length_take by done. lia.
  - split; [done|]. split; [done|]. lia.
Qed.

End ReportProperties.

Lemma fetch_rss_entries_bound_witness :
  Z.of_nat (length (News.fetch_rss_entries Scenarios.feedparser Scenarios.feeds 1))
  <= 1 * Z.of_nat (length Scenarios.feeds).
Proof.
  apply (fetch_rss_entries_bound Scenarios.feedparser Scenarios.feeds 1). lia.
Defined.


Lemma load_csv_preview_rows_witness :
  exists out,
    Report.load_csv_preview Scenarios.read_csv [] 2 = Ok out
    /\ Report.columns out = [lit "day"; lit "visits"]
    /\ Report.rows out
         `prefix_of` [[lit "1"; lit "10"]; [lit "2"; lit "12"]; [lit "3"; lit "9"]]
    /\ (0 <= 2 -> Z.of_nat (length (Report.rows out)) = Z.min 3 2).
Proof.
  apply (load_csv_preview_rows Scenarios.read_csv [] 2
           (Report.mkDataFrame [lit "day"; lit "visits"]
              [[lit "1"; lit "10"]; [lit "2"; lit "12"]; [lit "3"; lit "9"]])).
  reflexivity.
Defined.

Section QuestionProperties.

Context {float : Type} {F32 : Float32 float}.
Variable parse : str -> list N -> result (list Document).
Variable emb : str -> str -> Embeddings float.
Variable similarity : list float -> list float -> Q.
Variable chat : str -> float -> str -> list Rag.Message -> result Rag.Response.

(** X27: a question of nothing but whitespace is not asked. On an index
    that loads, a run of [main] in which only "Ask" is clicked on such a
    question shows the number of index files and no answer, and leaves the
    session as it is; the embedding and chat services have no part in it. *)
Theorem blank_question_is_not_asked key inp (s : Main.Session float) vs :
  FAISS.load_local (files (Main.world s)) = Ok vs ->
  FS.exists_ [] (files (Main.world s)) = true ->
  Main.reset_clicked inp = false -> Main.ingest_clicked inp = false ->
  Forall (fun c => isspace c = true) (Main.question inp) ->
  Main.main parse emb similarity chat key inp s = (Ok (Main.index_files s, None), s).
Proof.
  intros Hvs Hex Hr Hi Hq.
  unfold Main.main, io_bind, Main.sidebar_controls. rewrite Hr, Hi. unfold io_ret.
  unfold Main.ask. rewrite Hex, orb_true_r.
  unfold Rag.load_retriever. rewrite Hvs. cbn [Py.bind].
  rewrite (strip_spaces _ Hq).
  rewrite bool_decide_eq_false_2 by (by intros ?).
  by rewrite andb_false_r.
Qed.

End QuestionProperties.

Lemma blank_question_is_not_asked_witness :
  Main.main Scenarios.parse Examples.embedder Examples.closeness Examples.chat
    Examples.key Scenarios.asking_nothing Scenarios.indexed_session
  = (Ok (Main.index_files Scenarios.indexed_session, None), Scenarios.indexed_session).
Proof.
  apply (blank_question_is_not_asked Scenarios.parse Examples.embedder Examples.closeness
           Examples.chat Examples.key Scenarios.asking_nothing Scenarios.indexed_session
           (FAISS.mk 2 [[12; 1]] [Examples.chunk_a])).
  - vm_compute. reflexivity.
  - vm_compute. reflexivity.
  - reflexivity.
  - reflexivity.
  - repeat constructor.
Defined.

(** ** Runs on the concrete inputs *)

(** Two uploads with the same name: both paths lead to the second file. *)
Example save_same_name_twice :
  Main.save_uploaded_files
    [Main.mkUploadedFile (lit "a.pdf") (lit "one"); Main.mkUploadedFile (lit "a.pdf") (lit "two")]
  = ([lit "a.pdf"; lit "a.pdf"], {[ lit "a.pdf" := lit "two" ]}).
Proof. vm_compute. reflexivity. Qed.

(** Of a page that is served, a page that is missing and a site that is
    down, the served page is fetched. *)
Example fetch_pages_of_three_sites :
  Market.fetch_pages Scenarios.httpx Scenarios.trafilatura Scenarios.sites 12
  = [Market.mkPage Scenarios.site_ok (lit "<p>Plans from 10 a month</p>")].
Proof. vm_compute. reflexivity. Qed.

(** The feed that cannot be parsed is passed over; fields that an entry
    lacks are empty. *)
Example fetch_rss_entries_of_two_feeds :
  News.fetch_rss_entries Scenarios.feedparser Scenarios.feeds 1
  = [News.mkEntry (lit "One") (lit "https://a.example/1") [] [] Scenarios.feed_a].
Proof. vm_compute. reflexivity. Qed.
